(** * Clean Code Assistant: the analysis engine of [src/extension.ts]

    A shallow embedding of the analysis engine (readability scorer, metric
    engine, responsibility classifier, duplication detector, testability
    and side-effect heuristics, dependency graph and cycle detector, and
    the finding aggregator) together with the properties the specification
    states about it; then the analysis of one unit and its fallback, the
    log scopes and padding helpers of the logger, and the scans and the
    selection of the extract-responsibility command, with properties read
    off the code.

    Modelling conventions.
    - A JavaScript string is a [string]: one [ascii] per UTF-16 code unit,
      so the development covers texts in the Latin-1 range.
    - JavaScript numbers that hold counts, lengths and indices are [nat];
      the readability score, which is decremented before being floored,
      is a [Z]; the quotients [sum / length] and [1 - dist / max] and the
      product [length * 0.8] are exact rationals ([Q]).
    - An array is a [list]; a [Set] that is only tested, extended and
      shrunk is a [gset]; the [Map] of the dependency graph keeps its
      insertion order and is an association list.
    - A regular expression is a term of [Regex.regex], run by a
      backtracking matcher with the priorities of the JavaScript one. *)

From Stdlib Require Import ZArith QArith Lqa String Ascii List Bool Lia.
From stdpp Require Import base list strings gmap pretty.

Open Scope string_scope.

(** ** Characters and strings *)

Module Js.

Definition charCode (c : ascii) : nat := nat_of_ascii c.

Definition between (lo hi : nat) (c : ascii) : bool :=
  (lo <=? charCode c)%nat && (charCode c <=? hi)%nat.

Definition isUpper : ascii -> bool := between 65 90.     (* [A-Z] *)
Definition isLower : ascii -> bool := between 97 122.    (* [a-z] *)
Definition isDigit : ascii -> bool := between 48 57.     (* [0-9] *)
Definition isLetter (c : ascii) : bool := isLower c || isUpper c.
Definition isAlnum (c : ascii) : bool := isLetter c || isDigit c.
Definition isChar (a : ascii) (c : ascii) : bool := Ascii.eqb a c.

(** [\w] *)
Definition isWord (c : ascii) : bool := isAlnum c || isChar "_" c.

(** [[A-Za-z_]] *)
Definition isNameStart (c : ascii) : bool := isLetter c || isChar "_" c.

Definition LF : ascii := ascii_of_nat 10.
Definition CR : ascii := ascii_of_nat 13.

Definition isLineTerminator (c : ascii) : bool := isChar LF c || isChar CR c.

(** [\s], which is also what [trim] and [trimStart] strip: tab, line
    feed, vertical tab, form feed, carriage return, space, no-break
    space. *)
Definition isSpace (c : ascii) : bool :=
  between 9 13 c || (charCode c =? 32)%nat || (charCode c =? 160)%nat.

(** [s.split('\n')] *)
Fixpoint split (s : string) : list string :=
  match s with
  | EmptyString => [EmptyString]
  | String c s' =>
      if isChar LF c then EmptyString :: split s'
      else match split s' with
           | l :: ls => String c l :: ls
           | [] => [String c EmptyString]
           end
  end.

(** [s.trimStart()] *)
Fixpoint trimStart (s : string) : string :=
  match s with
  | EmptyString => EmptyString
  | String c s' => if isSpace c then trimStart s' else s
  end.

(** [s.trimEnd()] *)
Fixpoint trimEnd (s : string) : string :=
  match s with
  | EmptyString => EmptyString
  | String c s' =>
      match trimEnd s' with
      | EmptyString => if isSpace c then EmptyString else String c EmptyString
      | t => String c t
      end
  end.

(** [s.trim()] *)
Definition trim (s : string) : string := trimEnd (trimStart s).

(** [s.includes(w)] *)
Fixpoint includes (s w : string) : bool :=
  String.prefix w s ||
  match s with
  | EmptyString => false
  | String _ s' => includes s' w
  end.

(** [c.toLowerCase()] on one code unit of the Latin-1 range. *)
Definition lowerChar (c : ascii) : ascii :=
  if isUpper c || (between 192 222 c && negb (charCode c =? 215)%nat)
  then ascii_of_nat (charCode c + 32) else c.

(** [s.toLowerCase()] *)
Fixpoint toLowerCase (s : string) : string :=
  match s with
  | EmptyString => EmptyString
  | String c s' => String (lowerChar c) (toLowerCase s')
  end.

(** [parts.join(sep)] *)
Fixpoint join (sep : string) (parts : list string) : string :=
  match parts with
  | [] => EmptyString
  | [p] => p
  | p :: ps => p +:+ sep +:+ join sep ps
  end.

(** [arr.push(x)] *)
Definition push {A} (arr : list A) (x : A) : list A := (arr ++ [x])%list.

(** [arr.indexOf(x)], [-1] when [x] does not occur. *)
Fixpoint indexOf (arr : list string) (x : string) : Z :=
  match arr with
  | [] => (-1)%Z
  | y :: ys =>
      if String.eqb y x then 0%Z
      else let k := indexOf ys x in
           if (k <? 0)%Z then (-1)%Z else (k + 1)%Z
  end.

(** [arr.slice(start)]: a negative [start] counts from the end. *)
Definition slice {A} (start : Z) (arr : list A) : list A :=
  if (start <? 0)%Z
  then drop (Z.to_nat (Z.max (Z.of_nat (length arr) + start) 0)) arr
  else drop (Z.to_nat start) arr.

(** [x || dflt] on an optional string: [undefined] and the empty string
    are both falsy. *)
Definition orElse (x : option string) (dflt : string) : string :=
  match x with
  | Some (String c s) => String c s
  | _ => dflt
  end.

(** [${n}] for a number that holds a natural or an integer. *)
Definition showNat (n : nat) : string := pretty n.
Definition showZ (z : Z) : string := pretty z.

End Js.

(** ** Regular expressions *)

Module Regex.

Inductive regex : Type :=
| Eps                                   (* the empty pattern *)
| Chr (p : ascii -> bool)               (* a literal or a character class *)
| Seq (r1 r2 : regex)                   (* r1 r2 *)
| Alt (r1 r2 : regex)                   (* r1 | r2 *)
| Star (r : regex)                      (* r*, greedy *)
| Bol                                   (* ^ *)
| Eol                                   (* $ *)
| WordB.                                (* \b *)

Definition Plus (r : regex) : regex := Seq r (Star r).   (* r+ *)
Definition Opt (r : regex) : regex := Alt r Eps.         (* r? *)

(** A literal word, one [Chr] per character. *)
Fixpoint Lit (s : string) : regex :=
  match s with
  | EmptyString => Eps
  | String c s' => Seq (Chr (Js.isChar c)) (Lit s')
  end.

(** A position of the input: the character just before it (none at the
    start of the input) and the input that remains. *)
Definition pos : Type := option ascii * string.

Definition wordBefore (p : pos) : bool :=
  match p.1 with Some c => Js.isWord c | None => false end.

Definition wordAfter (p : pos) : bool :=
  match p.2 with String c _ => Js.isWord c | EmptyString => false end.

Definition atBol (multiline : bool) (p : pos) : bool :=
  match p.1 with
  | None => true
  | Some c => multiline && Js.isLineTerminator c
  end.

Definition atEol (multiline : bool) (p : pos) : bool :=
  match p.2 with
  | EmptyString => true
  | String c _ => multiline && Js.isLineTerminator c
  end.

Definition advances (p p' : pos) : bool :=
  (String.length p'.2 <? String.length p.2)%nat.

(** The iterations of a greedy star: one more round first, stopping
    here last; a round that consumes nothing is rejected, so [n] rounds
    are enough on an input of [n] characters. *)
Fixpoint star (step : pos -> list pos) (n : nat) (p : pos) : list pos :=
  match n with
  | 0 => [p]
  | S n' =>
      (flat_map (star step n') (List.filter (advances p) (step p)) ++ [p])%list
  end.

(** Every way of matching [r] at [p], as the positions reached, in the
    order a backtracking matcher tries them. *)
Fixpoint run (multiline : bool) (r : regex) (p : pos) : list pos :=
  match r with
  | Eps => [p]
  | Chr f =>
      match p.2 with
      | String c s' => if f c then [(Some c, s')] else []
      | EmptyString => []
      end
  | Seq r1 r2 => flat_map (run multiline r2) (run multiline r1 p)
  | Alt r1 r2 => (run multiline r1 p ++ run multiline r2 p)%list
  | Star r1 => star (run multiline r1) (String.length p.2) p
  | Bol => if atBol multiline p then [p] else []
  | Eol => if atEol multiline p then [p] else []
  | WordB => if xorb (wordBefore p) (wordAfter p) then [p] else []
  end.

(** The leftmost match at or after [p]. *)
Fixpoint search (multiline : bool) (r : regex) (prev : option ascii)
    (s : string) : option pos :=
  match run multiline r (prev, s) with
  | q :: _ => Some q
  | [] =>
      match s with
      | EmptyString => None
      | String c s' => search multiline r (Some c) s'
      end
  end.

(** [re.test(s)] *)
Definition test (multiline : bool) (r : regex) (s : string) : bool :=
  match search multiline r None s with Some _ => true | None => false end.

(** [s.replace(re, rep)] for a global [re] and a replacement without
    [$] patterns. After an empty match the next character is copied and
    the scan resumes behind it. *)
Fixpoint replaceFrom (fuel : nat) (multiline : bool) (r : regex)
    (rep : string) (prev : option ascii) (s : string) : string :=
  match fuel with
  | 0 => s
  | S fuel' =>
      match run multiline r (prev, s) with
      | q :: _ =>
          if advances (prev, s) q
          then rep +:+ replaceFrom fuel' multiline r rep q.1 q.2
          else match s with
               | EmptyString => rep
               | String c s' =>
                   rep +:+ String c (replaceFrom fuel' multiline r rep (Some c) s')
               end
      | [] =>
          match s with
          | EmptyString => EmptyString
          | String c s' => String c (replaceFrom fuel' multiline r rep (Some c) s')
          end
      end
  end.

Definition replaceAll (multiline : bool) (r : regex) (rep s : string) : string :=
  replaceFrom (S (String.length s)) multiline r rep None s.

End Regex.

(** ** The syntax tree handed over by the parser *)

Module Ast.

(** The kinds of node that [getDescendantsOfKind] is asked for. *)
Inductive SyntaxKind : Type :=
| IfStatement | ForStatement | WhileStatement | OtherKind.

Definition SyntaxKind_eqb (k1 k2 : SyntaxKind) : bool :=
  match k1, k2 with
  | IfStatement, IfStatement | ForStatement, ForStatement
  | WhileStatement, WhileStatement | OtherKind, OtherKind => true
  | _, _ => false
  end.

(** A body, as the kinds of its descendant nodes. *)
Definition Body : Type := list SyntaxKind.

Definition getDescendantsOfKind (body : Body) (k : SyntaxKind) : list SyntaxKind :=
  List.filter (SyntaxKind_eqb k) body.

(** A method of a class; a declaration without implementation has no
    body. *)
Record MethodDeclaration : Type := { methodBody : option Body }.

Inductive Declaration : Type :=
| ClassDeclaration (methods : list MethodDeclaration)
| FunctionDeclaration (body : option Body).

(** A unit under analysis, [ClassDeclaration | FunctionDeclaration]. *)
Record CodeUnit : Type := {
  declaration : Declaration;
  getName : option string;
  getText : string;
  getStart : nat;
  getEnd : nat
}.

Definition isClass (u : CodeUnit) : bool :=
  match declaration u with ClassDeclaration _ => true | _ => false end.

(** A parsed document: its text, [sourceFile.getClasses()] and
    [sourceFile.getFunctions()], each in source order. *)
Record Document : Type := {
  documentText : string;
  getClasses : list CodeUnit;
  getFunctions : list CodeUnit
}.

End Ast.

(** ** Diagnostics *)

Inductive DiagnosticSeverity : Type := Error | Warning | Information | Hint.

Record Diagnostic : Type := {
  range : nat * nat;
  message : string;
  severity : DiagnosticSeverity;
  code : string;
  source : string
}.

(** ** The [Map] of the dependency graph, in insertion order *)

Module JsMap.

Definition t : Type := list (string * list string).

(** [m.set(k, v)]: a key already present keeps its place. *)
Fixpoint set (m : t) (k : string) (v : list string) : t :=
  match m with
  | [] => [(k, v)]
  | (k', v') :: m' =>
      if String.eqb k' k then (k, v) :: m' else (k', v') :: set m' k v
  end.

(** [m.get(k)] *)
Fixpoint get (m : t) (k : string) : option (list string) :=
  match m with
  | [] => None
  | (k', v') :: m' => if String.eqb k' k then Some v' else get m' k
  end.

(** [m.keys()] *)
Definition keys (m : t) : list string := map fst m.

End JsMap.

(** ** Arithmetic on numbers *)

Definition Qltb (x y : Q) : bool := negb (Qle_bool y x).

Definition natQ (n : nat) : Q := inject_Z (Z.of_nat n).

Definition min3 (x y z : nat) : nat := Nat.min x (Nat.min y z).

(** ** The engine, first variant (the current [extension.ts]) *)

Module Engine.
Import Js Regex Ast.

Fixpoint seqs (rs : list regex) : regex :=
  match rs with
  | [] => Eps
  | [r] => r
  | r :: rs' => Seq r (seqs rs')
  end.

(** [/^[a-zA-Z][a-zA-Z0-9]*$/] *)
Definition re_identifier : regex :=
  seqs [Bol; Chr isLetter; Star (Chr isAlnum); Eol].

(** [/^[a-z]/] *)
Definition re_lowerStart : regex := seqs [Bol; Chr isLower].

(** [/\b[A-Za-z_]\w*\b/g] *)
Definition re_name : regex :=
  seqs [WordB; Chr isNameStart; Star (Chr isWord); WordB].

(** [/\s+/g] *)
Definition re_spaces : regex := Plus (Chr isSpace).

(** [/\bglobal\b|\bwindow\b|\bdocument\b/] *)
Definition re_globals : regex :=
  Alt (seqs [WordB; Lit "global"; WordB])
      (Alt (seqs [WordB; Lit "window"; WordB])
           (seqs [WordB; Lit "document"; WordB])).

(** [/\bconsole\.(log|error|warn)\b/] *)
Definition re_console : regex :=
  seqs [WordB; Lit "console"; Chr (isChar ".");
        Alt (Lit "log") (Alt (Lit "error") (Lit "warn")); WordB].

Definition isArithOp (c : ascii) : bool :=
  isChar "+" c || isChar "-" c || isChar "*" c || isChar "/" c.

(** [/(^|[^.])\b([A-Za-z_]\w* )\s*([+\-*/]?=)\s*/m], where the blank
    before the second closing parenthesis is not part of the pattern. *)
Definition re_bareAssignment : regex :=
  seqs [Alt Bol (Chr (fun c => negb (isChar "." c))); WordB;
        Seq (Chr isNameStart) (Star (Chr isWord));
        Star (Chr isSpace);
        Seq (Opt (Chr isArithOp)) (Chr (isChar "="));
        Star (Chr isSpace)].

(** [/\bnew\s+\w+/] *)
Definition re_new : regex :=
  seqs [WordB; Lit "new"; Plus (Chr isSpace); Plus (Chr isWord)].

(** [/\bthis\.\w+\s*=/] *)
Definition re_thisAssignment : regex :=
  seqs [WordB; Lit "this"; Chr (isChar "."); Plus (Chr isWord);
        Star (Chr isSpace); Chr (isChar "=")].

(** *** Readability scorer *)

Definition indentLevels (text : string) : list nat :=
  map (fun line => String.length line - String.length (trimStart line))
      (split text).

Definition avgIndent (text : string) : Q :=
  let levels := indentLevels text in
  let total := foldl (fun a b => a + b) 0 levels in
  let count := length levels in
  (natQ total / natQ count)%Q.

Definition evaluateReadability (unit : CodeUnit) : Z :=
  let score := 100%Z in
  let name := orElse (getName unit) "" in
  let score := if negb (test false re_identifier name)
               then (score - 20)%Z else score in
  let score := if (String.length name <? 3)%nat
               then (score - 10)%Z else score in
  let score := if test false re_lowerStart name
               then (score - 20)%Z else score in
  let text := getText unit in
  let avg := avgIndent text in
  let score := if Qltb avg 2 || Qltb 4 avg
               then (score - 15)%Z else score in
  Z.max 0 score.

(** *** Metric engine *)

Record Metrics : Type := {
  lineCount : nat;
  methodCount : nat;
  complexity : nat
}.

Definition branches (body : Body) : nat :=
  length (getDescendantsOfKind body IfStatement)
  + length (getDescendantsOfKind body ForStatement)
  + length (getDescendantsOfKind body WhileStatement).

Definition computeMetrics (unit : CodeUnit) : Metrics :=
  let text := getText unit in
  let lineCount := length (split text) in
  match declaration unit with
  | ClassDeclaration methods =>
      {| lineCount := lineCount;
         methodCount := length methods;
         complexity :=
           foldl (fun complexity method =>
                    match methodBody method with
                    | Some body => complexity + branches body
                    | None => complexity
                    end) 1 methods |}
  | FunctionDeclaration body =>
      {| lineCount := lineCount;
         methodCount := 1;
         complexity :=
           match body with
           | Some body => 1 + branches body
           | None => 1
           end |}
  end.

(** *** Responsibility classifier *)

Definition keywords : list (string * list string) :=
  [("data", ["data"; "database"; "query"; "save"; "load"]);
   ("ui", ["ui"; "view"; "render"; "display"; "button"]);
   ("business", ["business"; "logic"; "calculate"; "process"]);
   ("validation", ["validate"; "check"; "error"; "invalid"]);
   ("communication", ["email"; "send"; "http"; "api"; "network"])].

Definition identifyResponsibilities (unit : CodeUnit) : list string :=
  let text := toLowerCase (getText unit) in
  foldl (fun responsibilities entry =>
           if existsb (fun word => includes text word) entry.2
           then push responsibilities entry.1 else responsibilities)
        [] keywords.

(** *** Duplication detector *)

Definition trimmedLines (text : string) : list string :=
  List.filter (fun l => (0 <? String.length l)%nat) (map trim (split text)).

Definition hasDuplication (unit : CodeUnit) : bool :=
  let text := getText unit in
  let lines := trimmedLines text in
  let uniqueLines : gset string := list_to_set lines in
  let count := length lines in
  Qltb (natQ (size uniqueLines)) (natQ count * (8 # 10))%Q.

Definition normalizeForDuplication (s : string) : string :=
  trim (replaceAll false re_spaces " " (replaceAll false re_name "id" s)).

(** The table [dp] of the edit distance: [dp[i][j]] and
    [dp[i][j] = v]. Every index the loops use is within the table. *)
Abbreviation Table := (list (list nat)).

Definition cell (dp : Table) (i j : nat) : nat :=
  default 0 (dp !! i ≫= fun row => row !! j).

Definition setCell (dp : Table) (i j v : nat) : Table :=
  alter (fun row => <[j := v]> row) i dp.

(** [s[i]] *)
Definition charAt (s : string) (i : nat) : option ascii := String.get i s.

Definition levenshtein (a b : string) : nat :=
  let m := String.length a in
  let n := String.length b in
  let dp : Table := replicate (m + 1) (replicate (n + 1) 0) in
  let dp := foldl (fun dp i => setCell dp i 0 i) dp (seq 0 (m + 1)) in
  let dp := foldl (fun dp j => setCell dp 0 j j) dp (seq 0 (n + 1)) in
  let dp :=
    foldl (fun dp i =>
      foldl (fun dp j =>
        setCell dp i j
          (min3 (cell dp (i - 1) j + 1)
                (cell dp i (j - 1) + 1)
                (cell dp (i - 1) (j - 1)
                 + (if bool_decide (charAt a (i - 1) = charAt b (j - 1))
                    then 0 else 1))))
        dp (seq 1 n))
      dp (seq 1 m) in
  cell dp m n.

Definition textSimilarity (a b : string) : Q :=
  let na := normalizeForDuplication a in
  let nb := normalizeForDuplication b in
  if (1000 <? String.length na)%nat || (1000 <? String.length nb)%nat then 0%Q
  else if (String.length na =? 0)%nat && (String.length nb =? 0)%nat then 1%Q
  else
    let dist := levenshtein na nb in
    let longest := Nat.max (String.length na) (String.length nb) in
    (1 - natQ dist / natQ longest)%Q.

(** *** Testability and side-effect heuristics *)

Definition isTestable (unit : CodeUnit) : bool :=
  let text := getText unit in
  let hasGlobals := test false re_globals text in
  let hasConsole := test false re_console text in
  let bareAssignment := test true re_bareAssignment text in
  negb (test false re_new text) && negb hasGlobals && negb hasConsole
  && negb bareAssignment.

Definition hasSideEffects (unit : CodeUnit) : bool :=
  let text := getText unit in
  let modifiesThis := test false re_thisAssignment text in
  let consoleIo := test false re_console text in
  let bareAssignment := test true re_bareAssignment text in
  modifiesThis || consoleIo || bareAssignment.

(** *** Dependency graph and cycle detector *)

Definition unitKey (unit : CodeUnit) : string :=
  orElse (getName unit) "anonymous".

(** The inner loop of [buildDependencyGraph]: the names of the other
    units that occur in [text]. *)
Definition referencedNames (units : list CodeUnit) (name text : string)
    : list string :=
  foldl (fun deps otherUnit =>
           match getName otherUnit with
           | Some (String c s) =>
               let otherName := String c s in
               if negb (String.eqb otherName name) && includes text otherName
               then push deps otherName else deps
           | _ => deps
           end)
        [] units.

Definition buildDependencyGraph (units : list CodeUnit) : JsMap.t :=
  foldl (fun graph unit =>
           let name := unitKey unit in
           let text := getText unit in
           JsMap.set graph name (referencedNames units name text))
        [] units.

(** The variables [dfs] closes over, and the array [path] it is handed
    and restores before it returns. *)
Record DfsState : Type := {
  cycles : list (list string);
  visited : gset string;
  recStack : gset string;
  path : list string
}.

Fixpoint dfs (fuel : nat) (graph : JsMap.t) (node : string) (st : DfsState)
    : option DfsState :=
  match fuel with
  | 0 => None
  | S fuel' =>
      if bool_decide (node ∈ recStack st) then
        let cycleStart := indexOf (path st) node in
        Some {| cycles := push (cycles st) (slice cycleStart (path st));
                visited := visited st;
                recStack := recStack st;
                path := path st |}
      else if bool_decide (node ∈ visited st) then Some st
      else
        let st1 := {| cycles := cycles st;
                      visited := {[node]} ∪ visited st;
                      recStack := {[node]} ∪ recStack st;
                      path := push (path st) node |} in
        match foldl (fun acc neighbor => acc ≫= dfs fuel' graph neighbor)
                    (Some st1) (default [] (JsMap.get graph node)) with
        | Some st2 =>
            Some {| cycles := cycles st2;
                    visited := visited st2;
                    recStack := recStack st2 ∖ {[node]};
                    path := removelast (path st2) |}
        | None => None
        end
  end.

Definition dfsRoots (fuel : nat) (graph : JsMap.t) : option DfsState :=
  foldl (fun acc node =>
           acc ≫= fun st =>
             if bool_decide (node ∈ visited st) then Some st
             else dfs fuel graph node
                    {| cycles := cycles st; visited := visited st;
                       recStack := recStack st; path := [] |})
        (Some {| cycles := []; visited := ∅; recStack := ∅; path := [] |})
        (JsMap.keys graph).

(** Every name the traversal can meet: the keys and the dependencies. *)
Definition nodes (graph : JsMap.t) : list string :=
  (JsMap.keys graph ++ concat (map snd graph))%list.

(** The recursion of [dfs] is never deeper than the number of nodes
    (see [dfsRoots_total]), so the second branch is not taken. *)
Definition detectCycles (graph : JsMap.t) : list (list string) :=
  match dfsRoots (S (length (nodes graph))) graph with
  | Some st => cycles st
  | None => []
  end.

(** *** Finding aggregator *)

Definition mkDiagnostic (rng : nat * nat) (msg : string)
    (sev : DiagnosticSeverity) (cd : string) : Diagnostic :=
  {| range := rng; message := msg; severity := sev; code := cd;
     source := "clean-code-assistant" |}.

Definition unitRange (unit : CodeUnit) : nat * nat :=
  (getStart unit, getEnd unit).

(** The body of the loop over the units. *)
Definition analyzeUnitInto (sev : DiagnosticSeverity)
    (diagnostics : list Diagnostic) (unit : CodeUnit) : list Diagnostic :=
  let readabilityScore := evaluateReadability unit in
  let diagnostics :=
    if (readabilityScore <? 90)%Z
    then push diagnostics
           (mkDiagnostic (unitRange unit)
              ("Poor readability: Use meaningful names, consistent formatting. Score: "
               +:+ showZ readabilityScore +:+ "/100")
              sev "clean-code-assistant.readability")
    else diagnostics in
  let metrics := computeMetrics unit in
  let diagnostics :=
    if (15 <? lineCount metrics)%nat
    then push diagnostics
           (mkDiagnostic (unitRange unit)
              ("Large function: " +:+ showNat (lineCount metrics)
               +:+ " lines. Consider breaking into smaller functions.")
              sev "clean-code-assistant.size")
    else diagnostics in
  let diagnostics :=
    if (8 <? complexity metrics)%nat
    then push diagnostics
           (mkDiagnostic (unitRange unit)
              ("High complexity: Cyclomatic " +:+ showNat (complexity metrics)
               +:+ ". Refactor into smaller functions or use a strategy pattern.")
              sev "clean-code-assistant.complexity")
    else diagnostics in
  let diagnostics :=
    if isClass unit && (10 <? methodCount metrics)%nat
    then push diagnostics
           (mkDiagnostic (unitRange unit)
              ("God class: " +:+ showNat (methodCount metrics)
               +:+ " methods. Possible SRP violation.")
              sev "clean-code-assistant.god-class")
    else diagnostics in
  let responsibilities := identifyResponsibilities unit in
  let diagnostics :=
    if (1 <? length responsibilities)%nat
    then push diagnostics
           (mkDiagnostic (unitRange unit)
              ("SRP Violation: Unit handles multiple concerns - "
               +:+ join ", " responsibilities
               +:+ ". Split into separate units.")
              sev "clean-code-assistant.srp")
    else diagnostics in
  let diagnostics :=
    if hasDuplication unit
    then push diagnostics
           (mkDiagnostic (unitRange unit)
              "Code duplication detected. Extract to shared method."
              sev "clean-code-assistant.duplication")
    else diagnostics in
  let diagnostics :=
    if negb (isTestable unit)
    then push diagnostics
           (mkDiagnostic (unitRange unit)
              "Code not easily testable (tight coupling, globals)."
              sev "clean-code-assistant.testability")
    else diagnostics in
  let diagnostics :=
    if hasSideEffects unit
    then push diagnostics
           (mkDiagnostic (unitRange unit) "Unexpected side effects."
              sev "clean-code-assistant.side-effects")
    else diagnostics in
  diagnostics.

(** The body of the loop over the cycles. *)
Definition reportCycleInto (sev : DiagnosticSeverity) (document : Document)
    (diagnostics : list Diagnostic) (cycle : list string) : list Diagnostic :=
  let cycleRange := (0, String.length (documentText document)) in
  let cycleMessage :=
    "Dependency cycle detected: " +:+ join " -> " cycle
    +:+ ". Refactor to break loops." in
  push diagnostics
    (mkDiagnostic cycleRange cycleMessage sev
       "clean-code-assistant.dependency-cycle").

(** The body of the two nested loops over the pairs of functions. *)
Definition comparePairInto (sev : DiagnosticSeverity)
    (diagnostics : list Diagnostic) (a b : CodeUnit) : list Diagnostic :=
  let sim := textSimilarity (getText a) (getText b) in
  if Qltb (6 # 10) sim
  then
    let msgA := "Code duplication: Similar logic to function "
                +:+ orElse (getName b) "anonymous" +:+ "." in
    let msgB := "Code duplication: Similar logic to function "
                +:+ orElse (getName a) "anonymous" +:+ "." in
    let diagA := mkDiagnostic (unitRange a) msgA sev
                   "clean-code-assistant.duplication" in
    let diagB := mkDiagnostic (unitRange b) msgB sev
                   "clean-code-assistant.duplication" in
    push (push diagnostics diagA) diagB
  else diagnostics.

(** The analysis pass of [analyzeDocument] on a parsed document: the
    statements of its [try] block, with the list [diagnostics] threaded
    through them. *)
Definition analyzeDocument (sev : DiagnosticSeverity) (document : Document)
    : list Diagnostic :=
  let diagnostics : list Diagnostic := [] in
  let classes := getClasses document in
  let functions := getFunctions document in
  let units := (classes ++ functions)%list in
  let diagnostics := foldl (analyzeUnitInto sev) diagnostics units in
  let dependencyGraph := buildDependencyGraph units in
  let cycles := detectCycles dependencyGraph in
  let diagnostics := foldl (reportCycleInto sev document) diagnostics cycles in
  let functionsOnly := getFunctions document in
  let count := length functionsOnly in
  foldl (fun diagnostics i =>
           foldl (fun diagnostics j =>
                    match functionsOnly !! i, functionsOnly !! j with
                    | Some a, Some b => comparePairInto sev diagnostics a b
                    | _, _ => diagnostics
                    end)
                 diagnostics (seq (i + 1) (count - (i + 1))))
        diagnostics (seq 0 count).

End Engine.

(** ** The engine, second variant (the earlier [extension.ts] kept in
    the same file) *)

Module Engine2.
Import Js Regex Ast.

(** [/\bset\w+/] *)
Definition re_setter : regex :=
  Engine.seqs [WordB; Lit "set"; Plus (Chr isWord)].

Definition hasSideEffects (unit : CodeUnit) : bool :=
  let text := getText unit in
  test false Engine.re_thisAssignment text || test false re_setter text.

End Engine2.

(** * Statements

    The notions the properties below are stated with, and the sample
    inputs they are evaluated on. *)

Import Js Regex Ast.

(** The indentation test of the scorer, as a proposition. *)
Definition indentOutsideBand (text : string) : Prop :=
  (Engine.avgIndent text < 2)%Q \/ (4 < Engine.avgIndent text)%Q.

(** A function [a] on one line. *)
Definition unitA : CodeUnit :=
  {| declaration := FunctionDeclaration (Some []);
     getName := Some "a";
     getText := "function a(){}";
     getStart := 0;
     getEnd := 14 |}.

(** The findings one unit contributes to the list. *)
Definition unitFindings (sev : DiagnosticSeverity) (unit : CodeUnit)
    : list Diagnostic :=
  Engine.analyzeUnitInto sev [] unit.

(** The per-unit rules in the order of the specification, each with the
    condition under which it reports. *)
Definition unitRules (unit : CodeUnit) : list (string * bool) :=
  [("clean-code-assistant.readability",
    (Engine.evaluateReadability unit <? 90)%Z);
   ("clean-code-assistant.size",
    (15 <? Engine.lineCount (Engine.computeMetrics unit))%nat);
   ("clean-code-assistant.complexity",
    (8 <? Engine.complexity (Engine.computeMetrics unit))%nat);
   ("clean-code-assistant.god-class",
    isClass unit && (10 <? Engine.methodCount (Engine.computeMetrics unit))%nat);
   ("clean-code-assistant.srp",
    (1 <? length (Engine.identifyResponsibilities unit))%nat);
   ("clean-code-assistant.duplication", Engine.hasDuplication unit);
   ("clean-code-assistant.testability", negb (Engine.isTestable unit));
   ("clean-code-assistant.side-effects", Engine.hasSideEffects unit)].

(** The finding of one dependency cycle. *)
Definition cycleFinding (sev : DiagnosticSeverity) (document : Document)
    (cycle : list string) : Diagnostic :=
  Engine.mkDiagnostic (0, String.length (documentText document))
    ("Dependency cycle detected: " +:+ join " -> " cycle
     +:+ ". Refactor to break loops.")
    sev "clean-code-assistant.dependency-cycle".

(** The pairs [(l[i], l[j])] with [i < j], by [i] and then by [j]. *)
Fixpoint pairsOf {A} (l : list A) : list (A * A) :=
  match l with
  | [] => []
  | a :: l' => (map (pair a) l' ++ pairsOf l')%list
  end.

(** The findings of the cross-unit duplication pass. *)
Definition crossFindings (sev : DiagnosticSeverity) (functions : list CodeUnit)
    : list Diagnostic :=
  flat_map (fun ab => Engine.comparePairInto sev [] ab.1 ab.2)
           (pairsOf functions).

(** The units of a document by increasing start offset. *)
Fixpoint insertByStart (u : CodeUnit) (l : list CodeUnit) : list CodeUnit :=
  match l with
  | [] => [u]
  | v :: l' =>
      if (getStart u <=? getStart v)%nat then u :: v :: l'
      else v :: insertByStart u l'
  end.

Definition documentOrder (document : Document) : list CodeUnit :=
  foldr insertByStart [] (getClasses document ++ getFunctions document)%list.

(** The document [function f(){}], line feed, [class C{}]. *)
Definition unitF : CodeUnit :=
  {| declaration := FunctionDeclaration (Some []);
     getName := Some "f";
     getText := "function f(){}";
     getStart := 0;
     getEnd := 14 |}.

Definition unitC : CodeUnit :=
  {| declaration := ClassDeclaration [];
     getName := Some "C";
     getText := "class C{}";
     getStart := 15;
     getEnd := 24 |}.

Definition documentFC : Document :=
  {| documentText := "function f(){}" +:+ String LF "class C{}";
     getClasses := [unitC];
     getFunctions := [unitF] |}.

(** The patterns the side-effect predicates look for in a unit text. *)
Definition mutatesField (text : string) : bool :=
  test false Engine.re_thisAssignment text.

Definition consoleIo (text : string) : bool :=
  test false Engine.re_console text.

Definition bareAssignment (text : string) : bool :=
  test true Engine.re_bareAssignment text.

Definition setterWord (text : string) : bool :=
  test false Engine2.re_setter text.

(** A function that logs, and a function that calls a setter. *)
Definition unitLog : CodeUnit :=
  {| declaration := FunctionDeclaration (Some []);
     getName := Some "report";
     getText := "function report(){ console.log(1) }";
     getStart := 0;
     getEnd := 35 |}.

Definition unitSetter : CodeUnit :=
  {| declaration := FunctionDeclaration (Some []);
     getName := Some "rename";
     getText := "function rename(o){ o.setName(1) }";
     getStart := 0;
     getEnd := 34 |}.

(** The number of distinct lines of a list of lines. *)
Definition distinctCount (lines : list string) : nat :=
  length (remove_dups lines).

(** The cost of substituting [a[i]] by [b[j]]. *)
Definition substCost (a b : string) (i j : nat) : nat :=
  if bool_decide (Engine.charAt a i = Engine.charAt b j) then 0 else 1.

(** The recurrence the table of [levenshtein] is filled by: the edit
    distance between the first [i] characters of [a] and the first [j]
    characters of [b]. *)
Fixpoint editDistance (a b : string) (i j : nat) : nat :=
  match i with
  | 0 => j
  | S i' =>
      (fix row (j : nat) : nat :=
         match j with
         | 0 => S i'
         | S j' =>
             min3 (editDistance a b i' (S j') + 1)
                  (row j' + 1)
                  (editDistance a b i' j' + substCost a b i' j')
         end) j
  end.

(** A table of [rows] rows of [cols] cells. *)
Definition tableDims (rows cols : nat) (dp : Engine.Table) : Prop :=
  length dp = rows /\ Forall (fun row => length row = cols) dp.

(** The cells of the region [K] hold the edit distances of [a] and [b]. *)
Definition tableAgrees (a b : string) (K : nat -> nat -> Prop)
    (dp : Engine.Table) : Prop :=
  forall i j, K i j -> Engine.cell dp i j = editDistance a b i j.

(** Texts that are identical except for their ASCII names. An ASCII
    name is a maximal run of the letters [A-Z] and [a-z], the digits and
    the underscore that starts with a letter or an underscore; the
    skeleton of a text keeps every other character and puts one mark in
    the place of each such name. A [$] or a letter beyond ASCII is no
    part of such a name. *)
Inductive token : Type := NameTok | CharTok (c : ascii).

Inductive lexState : Type := Outside | InName | InNumber.

Fixpoint skeleton (st : lexState) (s : string) : list token :=
  match s with
  | EmptyString => []
  | String c s' =>
      if isWord c then
        match st with
        | Outside =>
            if isNameStart c then NameTok :: skeleton InName s'
            else CharTok c :: skeleton InNumber s'
        | InName => skeleton InName s'
        | InNumber => CharTok c :: skeleton InNumber s'
        end
      else CharTok c :: skeleton Outside s'
  end.

Definition sameExceptAsciiNames (a b : string) : Prop :=
  skeleton Outside a = skeleton Outside b.

(** Texts that are identical except for their identifier names, an
    identifier being what JavaScript takes for one, within Latin-1: it
    starts with a letter, [$] or [_] and goes on with letters, digits,
    [$] and [_]; the letters are those of ASCII, the ordinal indicators,
    the micro sign and the accented letters from 192 on. *)
Definition isLatinLetter (c : ascii) : bool :=
  isLetter c
  || (charCode c =? 170)%nat || (charCode c =? 181)%nat || (charCode c =? 186)%nat
  || between 192 214 c || between 216 246 c || between 248 255 c.

Definition isIdentifierStart (c : ascii) : bool :=
  isLatinLetter c || isChar "$" c || isChar "_" c.

Definition isIdentifierPart (c : ascii) : bool :=
  isIdentifierStart c || isDigit c.

Fixpoint identifierSkeleton (st : lexState) (s : string) : list token :=
  match s with
  | EmptyString => []
  | String c s' =>
      if isIdentifierPart c then
        match st with
        | Outside =>
            if isIdentifierStart c then NameTok :: identifierSkeleton InName s'
            else CharTok c :: identifierSkeleton InNumber s'
        | InName => identifierSkeleton InName s'
        | InNumber => CharTok c :: identifierSkeleton InNumber s'
        end
      else CharTok c :: identifierSkeleton Outside s'
  end.

Definition sameExceptIdentifiers (a b : string) : Prop :=
  identifierSkeleton Outside a = identifierSkeleton Outside b.

(** Two functions that differ in their names only, one of them named
    [$]. *)
Definition textDollar : string := "function $(){}".
Definition textF : string := "function f(){}".

(** The skeleton written out with [id] for every identifier. *)
Fixpoint render (ts : list token) : string :=
  match ts with
  | [] => EmptyString
  | NameTok :: ts' => "id" +:+ render ts'
  | CharTok c :: ts' => String c (render ts')
  end.

(** The position behind the word characters at the start of [s]. *)
Fixpoint skipWord (prev : option ascii) (s : string) : pos :=
  match s with
  | String c s' => if isWord c then skipWord (Some c) s' else (prev, s)
  | EmptyString => (prev, s)
  end.

(** The state of the skeleton behind the character [prev]. *)
Definition stateAt (prev : option ascii) : lexState :=
  if wordBefore (prev, EmptyString) then InNumber else Outside.

(** Two functions that differ in their names only. *)
Definition textFoo : string := "function foo(n){ return n + 1; }".
Definition textBar : string := "function bar(k){ return k + 1; }".

(** The names that occur in the dependency lists of a graph. *)
Definition edgeTargets (graph : JsMap.t) : list string :=
  concat (map snd graph).

(** [name] is the name the parser extracts from [unit]. *)
Definition hasName (unit : CodeUnit) (name : string) : Prop :=
  getName unit = Some name /\ name <> EmptyString.

(** A unit without an extractable name. *)
Definition nameless (unit : CodeUnit) : Prop :=
  getName unit = None.

(** The document of two functions that call each other. *)
Definition unitFoo : CodeUnit :=
  {| declaration := FunctionDeclaration (Some []);
     getName := Some "foo";
     getText := "function foo(){ bar(); }";
     getStart := 0;
     getEnd := 24 |}.

Definition unitBar : CodeUnit :=
  {| declaration := FunctionDeclaration (Some []);
     getName := Some "bar";
     getText := "function bar(){ foo(); }";
     getStart := 25;
     getEnd := 49 |}.

Definition documentFooBar : Document :=
  {| documentText :=
       "function foo(){ bar(); }" +:+ String LF "function bar(){ foo(); }";
     getClasses := [];
     getFunctions := [unitFoo; unitBar] |}.

(** The same two functions behind a class that names [bar]. *)
Definition unitK : CodeUnit :=
  {| declaration := ClassDeclaration [ {| methodBody := Some [] |} ];
     getName := Some "K";
     getText := "class K { m(){ bar(); } }";
     getStart := 0;
     getEnd := 25 |}.

Definition unitFooBehindK : CodeUnit :=
  {| declaration := FunctionDeclaration (Some []);
     getName := Some "foo";
     getText := "function foo(){ bar(); }";
     getStart := 26;
     getEnd := 50 |}.

Definition unitBarBehindK : CodeUnit :=
  {| declaration := FunctionDeclaration (Some []);
     getName := Some "bar";
     getText := "function bar(){ foo(); }";
     getStart := 51;
     getEnd := 75 |}.

Definition documentKFooBar : Document :=
  {| documentText :=
       "class K { m(){ bar(); } }"
       +:+ String LF ("function foo(){ bar(); }"
       +:+ String LF "function bar(){ foo(); }");
     getClasses := [unitK];
     getFunctions := [unitFooBehindK; unitBarBehindK] |}.

(** Three functions: one named [anonymous], a default export without a
    name that calls [foo], and [foo], which calls [anonymous]. *)
Definition unitAnonymous : CodeUnit :=
  {| declaration := FunctionDeclaration (Some []);
     getName := Some "anonymous";
     getText := "function anonymous(){}";
     getStart := 0;
     getEnd := 22 |}.

Definition unitDefault : CodeUnit :=
  {| declaration := FunctionDeclaration (Some []);
     getName := None;
     getText := "export default function(){ foo(); }";
     getStart := 23;
     getEnd := 58 |}.

Definition unitCaller : CodeUnit :=
  {| declaration := FunctionDeclaration (Some []);
     getName := Some "foo";
     getText := "function foo(){ anonymous(); }";
     getStart := 59;
     getEnd := 89 |}.

Definition unitsAnonymous : list CodeUnit :=
  [unitAnonymous; unitDefault; unitCaller].

(** What [dfs] keeps true of its state on a graph: the recursion stack
    holds the names on the path, every name on the path but the first
    is an edge target, and so is every name of a reported cycle. *)
Definition dfsInvariant (graph : JsMap.t) (st : Engine.DfsState) : Prop :=
  (forall x, x ∈ Engine.recStack st <-> In x (Engine.path st))
  /\ (forall x, In x (tail (Engine.path st)) -> In x (edgeTargets graph))
  /\ (forall cycle x, In cycle (Engine.cycles st) -> In x cycle ->
                      In x (edgeTargets graph)).

(** The names the traversal can meet, as a set. *)
Definition nodeSet (graph : JsMap.t) : gset string :=
  list_to_set (Engine.nodes graph).

(** Inputs of the extension's test suite: the class [UserService], and
    the two functions that update and print a global counter. *)
Definition nl : string := String LF EmptyString.
Definition dq : string := String (ascii_of_nat 34) EmptyString.
Definition tab : string := String (ascii_of_nat 9) EmptyString.

Fixpoint indent (n : nat) : string :=
  match n with
  | 0 => EmptyString
  | S n' => tab +:+ indent n'
  end.

Definition unitUserService : CodeUnit :=
  {| declaration := ClassDeclaration [ {| methodBody := Some [] |};
                                       {| methodBody := Some [] |} ];
     getName := Some "UserService";
     getText :=
       "class UserService {" +:+ nl
       +:+ indent 4 +:+ "createUser(data: any) {" +:+ nl
       +:+ indent 5 +:+ "this.userRepo.save(data);" +:+ nl
       +:+ indent 4 +:+ "}" +:+ nl
       +:+ nl
       +:+ indent 4 +:+ "sendWelcomeEmail(email: string) {" +:+ nl
       +:+ indent 5 +:+ "this.emailService.sendWelcomeEmail(email);" +:+ nl
       +:+ indent 4 +:+ "}" +:+ nl
       +:+ indent 3 +:+ "}";
     getStart := 0;
     getEnd := 182 |}.

Definition textIncrement : string :=
  "function incrementAndPrint(value) {" +:+ nl
  +:+ "  globalCounter += value;" +:+ nl
  +:+ "  console.log(" +:+ dq +:+ "Incremented by" +:+ dq +:+ ", value);" +:+ nl
  +:+ "  return globalCounter;" +:+ nl
  +:+ "}".

Definition textAdd : string :=
  "function addAndLog(amount) {" +:+ nl
  +:+ "  globalCounter += amount;" +:+ nl
  +:+ "  console.log(" +:+ dq +:+ "Added" +:+ dq +:+ ", amount);" +:+ nl
  +:+ "  return globalCounter;" +:+ nl
  +:+ "}".

Definition unitIncrement : CodeUnit :=
  {| declaration := FunctionDeclaration (Some []);
     getName := Some "incrementAndPrint";
     getText := textIncrement;
     getStart := 24;
     getEnd := 151 |}.

Definition unitAdd : CodeUnit :=
  {| declaration := FunctionDeclaration (Some []);
     getName := Some "addAndLog";
     getText := textAdd;
     getStart := 153;
     getEnd := 266 |}.

(** * Further statements *)

(** The names a name of the graph depends on, and the edges. *)
Definition neighbors (graph : JsMap.t) (x : string) : list string :=
  default [] (JsMap.get graph x).

Definition edge (graph : JsMap.t) (x y : string) : Prop :=
  In y (neighbors graph x).

(** Each name of the list depends on the next one. *)
Definition chained (graph : JsMap.t) (l : list string) : Prop :=
  forall i x y, l !! i = Some x -> l !! S i = Some y -> edge graph x y.

(** A cycle of the graph: distinct names, each depending on the next
    and the last on the first. *)
Definition isCycle (graph : JsMap.t) (c : list string) : Prop :=
  NoDup c /\ chained graph c
  /\ exists x y, head c = Some y /\ last c = Some x /\ edge graph x y.

(** What [dfs] keeps true of its path: it is a chain of distinct names,
    the recursion stack holds exactly its names, and every reported
    cycle is a cycle of the graph. *)
Definition dfsPathInvariant (graph : JsMap.t) (st : Engine.DfsState) : Prop :=
  NoDup (Engine.path st)
  /\ chained graph (Engine.path st)
  /\ (forall x, x ∈ Engine.recStack st <-> In x (Engine.path st))
  /\ (forall c, In c (Engine.cycles st) -> isCycle graph c).

(** [dfs] is entered at a root, or along an edge from the last name of
    the path. *)
Definition dfsEntry (graph : JsMap.t) (st : Engine.DfsState) (node : string)
    : Prop :=
  Engine.path st = []
  \/ exists x, last (Engine.path st) = Some x /\ edge graph x node.

(** A loop of calls on a state, each of which may fail. *)
Definition loopOf {S A} (f : A -> S -> option S) (l : list A) (s : S)
    : option S :=
  foldl (fun acc x => acc ≫= f x) (Some s) l.

(** The body of the loop of [detectCycles] over the keys. *)
Definition rootStep (fuel : nat) (graph : JsMap.t) (node : string)
    (st : Engine.DfsState) : option Engine.DfsState :=
  if bool_decide (node ∈ Engine.visited st) then Some st
  else Engine.dfs fuel graph node
         {| Engine.cycles := Engine.cycles st;
            Engine.visited := Engine.visited st;
            Engine.recStack := Engine.recStack st;
            Engine.path := [] |}.

(** The names on the recursion stack have been visited. *)
Definition stackVisited (st : Engine.DfsState) : Prop :=
  forall x, x ∈ Engine.recStack st -> x ∈ Engine.visited st.

(** From [s] to [s']: no visited name and no cycle is lost, and the
    recursion stack is the same again. *)
Definition extends (s s' : Engine.DfsState) : Prop :=
  stackVisited s'
  /\ Engine.visited s ⊆ Engine.visited s'
  /\ length (Engine.cycles s) <= length (Engine.cycles s')
  /\ Engine.recStack s' = Engine.recStack s.

(** From [s] to [s'] a cycle was reported. *)
Definition grows (s s' : Engine.DfsState) : Prop :=
  length (Engine.cycles s) < length (Engine.cycles s').

(** [x] was visited between [s] and [s']. *)
Definition newlyVisited (s s' : Engine.DfsState) (x : string) : Prop :=
  x ∈ Engine.visited s' /\ x ∉ Engine.visited s.

(** An edge into a name of [c], and a name of [c] that comes back to
    itself along such edges. *)
Definition edgeInto (graph : JsMap.t) (c : list string) (x y : string) : Prop :=
  edge graph x y /\ In y c.

Definition onCycle (graph : JsMap.t) (c : list string) (x : string) : Prop :=
  exists p, rtc (edgeInto graph c) x p /\ edge graph p x.

(** The state with which [dfs] enters the loop over the neighbours of
    [node], and the state it returns after the loop. *)
Definition enter (node : string) (st : Engine.DfsState) : Engine.DfsState :=
  {| Engine.cycles := Engine.cycles st;
     Engine.visited := {[node]} ∪ Engine.visited st;
     Engine.recStack := {[node]} ∪ Engine.recStack st;
     Engine.path := push (Engine.path st) node |}.

Definition leave (node : string) (st : Engine.DfsState) : Engine.DfsState :=
  {| Engine.cycles := Engine.cycles st;
     Engine.visited := Engine.visited st;
     Engine.recStack := Engine.recStack st ∖ {[node]};
     Engine.path := removelast (Engine.path st) |}.

(** The state [dfs] returns when it meets a name of the recursion
    stack. *)
Definition report (node : string) (st : Engine.DfsState) : Engine.DfsState :=
  {| Engine.cycles :=
       push (Engine.cycles st)
            (slice (indexOf (Engine.path st) node) (Engine.path st));
     Engine.visited := Engine.visited st;
     Engine.recStack := Engine.recStack st;
     Engine.path := Engine.path st |}.


(** The number of line feeds of a text. *)
Fixpoint countLF (s : string) : nat :=
  match s with
  | EmptyString => 0
  | String c s' => (if isChar LF c then 1 else 0) + countLF s'
  end.

(** The descendant nodes of all the bodies of a unit. *)
Definition descendants (unit : CodeUnit) : list SyntaxKind :=
  match declaration unit with
  | ClassDeclaration methods =>
      flat_map (fun m => default [] (methodBody m)) methods
  | FunctionDeclaration body => default [] body
  end.

Definition isBranch (k : SyntaxKind) : bool :=
  match k with OtherKind => false | _ => true end.

(** A tag applies to a lower-cased text when one of its words occurs in
    it. *)
Definition tagApplies (text : string) (entry : string * list string) : bool :=
  existsb (fun word => includes text word) entry.2.


(** * The analysis of one unit ([analyzeUnit] and its fallback) *)

Module UnitAnalysis.

(** A [vscode.Position]: line and character; a [vscode.Range], whose
    constructor puts the earlier position first. *)
Definition Position : Type := nat * nat.

Definition isBefore (p q : Position) : bool :=
  (p.1 <? q.1)%nat || ((p.1 =? q.1)%nat && (p.2 <? q.2)%nat).

Definition Range : Type := Position * Position.

Definition mkRange (a b : Position) : Range :=
  if isBefore b a then (b, a) else (a, b).

(** The test of the loop that looks for the target unit: the unit
    starts and ends on the lines of [unitRange]. [positionAt] is
    [document.positionAt]. *)
Definition onLines (positionAt : nat -> Position) (unitRange : Range)
    (unit : CodeUnit) : bool :=
  let start := positionAt (getStart unit) in
  let end_ := positionAt (getEnd unit) in
  let currentRange := mkRange start end_ in
  (currentRange.1.1 =? unitRange.1.1)%nat
  && (currentRange.2.1 =? unitRange.2.1)%nat.

(** The loop itself: the first unit on those lines. *)
Definition findTargetUnit (positionAt : nat -> Position) (document : Document)
    (unitRange : Range) : option CodeUnit :=
  let classes := getClasses document in
  let functions := getFunctions document in
  let units := (classes ++ functions)%list in
  List.find (onLines positionAt unitRange) units.

(** The checks of [analyzeUnit] on the target unit. *)
Definition analyzeTargetInto (sev : DiagnosticSeverity)
    (diagnostics : list Diagnostic) (targetUnit : CodeUnit) : list Diagnostic :=
  let unitType := if isClass targetUnit then "class" else "function" in
  let plural := if String.eqb unitType "class" then "classes" else "functions" in
  let readabilityScore := Engine.evaluateReadability targetUnit in
  let diagnostics :=
    if (readabilityScore <? 90)%Z
    then push diagnostics
           (Engine.mkDiagnostic (Engine.unitRange targetUnit)
              ("Poor readability: Use meaningful names, consistent formatting. Score: "
               +:+ showZ readabilityScore +:+ "/100")
              sev "clean-code-assistant.readability")
    else diagnostics in
  let metrics := Engine.computeMetrics targetUnit in
  let diagnostics :=
    if (15 <? Engine.lineCount metrics)%nat
    then push diagnostics
           (Engine.mkDiagnostic (Engine.unitRange targetUnit)
              ("Large " +:+ unitType +:+ ": "
               +:+ showNat (Engine.lineCount metrics)
               +:+ " lines. Consider breaking into smaller " +:+ plural +:+ ".")
              sev "clean-code-assistant.size")
    else diagnostics in
  let diagnostics :=
    if (8 <? Engine.complexity metrics)%nat
    then push diagnostics
           (Engine.mkDiagnostic (Engine.unitRange targetUnit)
              ("High complexity: Cyclomatic "
               +:+ showNat (Engine.complexity metrics)
               +:+ ". Refactor into smaller " +:+ plural
               +:+ " or use a strategy pattern.")
              sev "clean-code-assistant.complexity")
    else diagnostics in
  let diagnostics :=
    if isClass targetUnit && (10 <? Engine.methodCount metrics)%nat
    then push diagnostics
           (Engine.mkDiagnostic (Engine.unitRange targetUnit)
              ("God class: " +:+ showNat (Engine.methodCount metrics)
               +:+ " methods. Possible SRP violation.")
              sev "clean-code-assistant.god-class")
    else diagnostics in
  let responsibilities := Engine.identifyResponsibilities targetUnit in
  let diagnostics :=
    if (1 <? length responsibilities)%nat
    then push diagnostics
           (Engine.mkDiagnostic (Engine.unitRange targetUnit)
              ("SRP Violation: " +:+ unitType
               +:+ " handles multiple concerns - "
               +:+ join ", " responsibilities
               +:+ ". Split into separate " +:+ plural +:+ ".")
              sev "clean-code-assistant.srp")
    else diagnostics in
  let diagnostics :=
    if Engine.hasDuplication targetUnit
    then push diagnostics
           (Engine.mkDiagnostic (Engine.unitRange targetUnit)
              "Code duplication detected. Extract to shared method."
              sev "clean-code-assistant.duplication")
    else diagnostics in
  let diagnostics :=
    if negb (Engine.isTestable targetUnit)
    then push diagnostics
           (Engine.mkDiagnostic (Engine.unitRange targetUnit)
              "Code not easily testable (tight coupling, globals)."
              sev "clean-code-assistant.testability")
    else diagnostics in
  let diagnostics :=
    if Engine.hasSideEffects targetUnit
    then push diagnostics
           (Engine.mkDiagnostic (Engine.unitRange targetUnit)
              "Unexpected side effects."
              sev "clean-code-assistant.side-effects")
    else diagnostics in
  diagnostics.

(** The [try] block of [analyzeUnit]: the diagnostics of the target
    unit, or nothing when no unit lies on the lines of the range, in
    which case [analyzeUnit] returns without touching the stored
    diagnostics. *)
Definition analyzeUnit (positionAt : nat -> Position) (sev : DiagnosticSeverity)
    (document : Document) (unitRange : Range) : option (list Diagnostic) :=
  match findTargetUnit positionAt document unitRange with
  | None => None
  | Some targetUnit => Some (analyzeTargetInto sev [] targetUnit)
  end.

(** [basicAnalyzeUnit], on the text of the range and the range the
    diagnostics are put on. *)
Definition basicAnalyzeUnit (text : string) (unitRange : nat * nat)
    (sev : DiagnosticSeverity) : list Diagnostic :=
  let diagnostics : list Diagnostic := [] in
  let diagnostics :=
    if (15 <? length (split text))%nat
    then push diagnostics
           (Engine.mkDiagnostic unitRange
              "Large code unit detected. Consider breaking into smaller units."
              sev "clean-code-assistant.size")
    else diagnostics in
  let diagnostics :=
    if includes text "console."
    then push diagnostics
           (Engine.mkDiagnostic unitRange
              "Console usage detected. Consider proper logging."
              sev "clean-code-assistant.side-effects")
    else diagnostics in
  diagnostics.

(** [range.contains(position)]: both ends belong to the range. *)
Definition contains (r : Range) (p : Position) : bool :=
  negb (isBefore p r.1) && negb (isBefore r.2 p).

(** The range of a unit in the document. *)
Definition rangeOf (positionAt : nat -> Position) (unit : CodeUnit) : Range :=
  mkRange (positionAt (getStart unit)) (positionAt (getEnd unit)).

(** [findUnitAtPosition]: the range of the first unit that contains
    the position. *)
Definition findUnitAtPosition (positionAt : nat -> Position)
    (document : Document) (position : Position) : option Range :=
  let classes := getClasses document in
  let functions := getFunctions document in
  let units := (classes ++ functions)%list in
  match List.find (fun unit => contains (rangeOf positionAt unit) position) units with
  | Some unit => Some (rangeOf positionAt unit)
  | None => None
  end.

(** A diagnostic as the collection of the document keeps it: with its
    range in the document. *)
Definition Stored : Type := Range * Diagnostic.

Definition store (positionAt : nat -> Position) (d : Diagnostic) : Stored :=
  (mkRange (positionAt (range d).1) (positionAt (range d).2), d).

(** The end of [analyzeUnit]: the diagnostics of the document that
    start inside [unitRange] give way to the new ones. *)
Definition updateDiagnostics (positionAt : nat -> Position) (unitRange : Range)
    (existingDiagnostics : list Stored) (diagnostics : list Diagnostic)
    : list Stored :=
  let filteredDiagnostics :=
    List.filter (fun diag => negb (contains unitRange diag.1.1))
                existingDiagnostics in
  (filteredDiagnostics ++ map (store positionAt) diagnostics)%list.

(** [analyzeUnit] as a transformer of the diagnostics of the document,
    for an enabled analysis of a supported language. *)
Definition analyzeUnitStored (positionAt : nat -> Position)
    (sev : DiagnosticSeverity) (document : Document) (unitRange : Range)
    (existingDiagnostics : list Stored) : list Stored :=
  match analyzeUnit positionAt sev document unitRange with
  | None => existingDiagnostics
  | Some diagnostics =>
      updateDiagnostics positionAt unitRange existingDiagnostics diagnostics
  end.

End UnitAnalysis.

(** What a finding says apart from its message. *)
Definition findingKey (d : Diagnostic)
    : string * (nat * nat) * DiagnosticSeverity * string :=
  (code d, range d, severity d, source d).

(** [document.positionAt] for a text whose lines end in a line feed. *)
Fixpoint positionFrom (line character : nat) (s : string) (offset : nat)
    : UnitAnalysis.Position :=
  match offset, s with
  | S n, String c s' =>
      if isChar LF c then positionFrom (S line) 0 s' n
      else positionFrom line (S character) s' n
  | _, _ => (line, character)
  end.

Definition positionsOf (text : string) (offset : nat) : UnitAnalysis.Position :=
  positionFrom 0 0 text offset.

(** Whether the range contains the start of the unit that
    [analyzeUnit] picks for it. *)
Definition targetStartsInside (positionAt : nat -> UnitAnalysis.Position)
    (document : Document) (unitRange : UnitAnalysis.Range) : bool :=
  match UnitAnalysis.findTargetUnit positionAt document unitRange with
  | Some target =>
      UnitAnalysis.contains unitRange (UnitAnalysis.rangeOf positionAt target).1
  | None => true
  end.

(** * Log scopes ([logger.scope], [system/counter]) *)

Module LoggerScope.

(** A [LogScope]. Of [prevScopeId] the model also keeps whether the
    object has the property at all, which [setLogScope] can tell; for
    the other optional properties absent and [undefined] behave alike. *)
Record LogScope : Type := {
  scopeId : option nat;
  prevScopeId : option (option nat);
  prefix : string;
  exitDetails : option string;
  exitFailed : option string
}.

(** The state of the module: the counter of [logScopeIdGenerator] and
    the map [scopes], whose key is [undefined] for a scope without id. *)
Record Registry : Type := {
  counter : nat;
  scopes : gmap (option nat) LogScope
}.

Definition initial : Registry := {| counter := 0; scopes := ∅ |}.

(** [logScopeIdGenerator.current] and [logScopeIdGenerator.next()] *)
Definition current (reg : Registry) : nat := counter reg.

Definition next (reg : Registry) : nat * Registry :=
  (S (counter reg), {| counter := S (counter reg); scopes := scopes reg |}).

Definition clearLogScope (id : nat) (reg : Registry) : Registry :=
  {| counter := counter reg; scopes := delete (Some id) (scopes reg) |}.

Definition getLogScope (reg : Registry) : option LogScope :=
  scopes reg !! Some (current reg).

(** The second argument of [getNewLogScope] and [startLogScope]. *)
Inductive ScopeArg : Type :=
| ArgFalse
| ArgTrue
| ArgScope (scope : LogScope)
| ArgUndefined.

Definition getNewLogScope (prefix_ : string) (scope : ScopeArg) (reg : Registry)
    : LogScope * Registry :=
  match scope with
  | ArgFalse =>
      ({| scopeId := None; prevScopeId := None; prefix := prefix_;
          exitDetails := None; exitFailed := None |}, reg)
  | ArgTrue =>
      let (id, reg') := next reg in
      ({| scopeId := Some id; prevScopeId := None; prefix := prefix_;
          exitDetails := None; exitFailed := None |}, reg')
  | ArgScope scope =>
      let (id, reg') := next reg in
      ({| scopeId := Some id; prevScopeId := prevScopeId scope;
          prefix := prefix scope; exitDetails := exitDetails scope;
          exitFailed := exitFailed scope |}, reg')
  | ArgUndefined =>
      let (id, reg') := next reg in
      ({| scopeId := Some id; prevScopeId := None; prefix := prefix_;
          exitDetails := None; exitFailed := None |}, reg')
  end.

(** [startLogScope]: the properties of the object returned, and the
    registry. *)
Definition startLogScope (prefix_ : string) (scope : ScopeArg) (reg : Registry)
    : LogScope * Registry :=
  let (logScope, reg') := getNewLogScope prefix_ scope reg in
  (logScope,
   {| counter := counter reg';
      scopes := <[scopeId logScope := logScope]> (scopes reg') |}).

(** The [Symbol.dispose] method of the object that [startLogScope]
    returned as [logScope]. *)
Definition dispose (logScope : LogScope) (reg : Registry) : Registry :=
  {| counter := counter reg;
     scopes := delete (scopeId logScope) (scopes reg) |}.

Definition setLogScope (id : nat) (scope : LogScope) (reg : Registry)
    : LogScope * Registry :=
  let scope :=
    match prevScopeId scope with
    | Some _ => scope
    | None =>
        {| scopeId := scopeId scope; prevScopeId := Some (Some (current reg));
           prefix := prefix scope; exitDetails := exitDetails scope;
           exitFailed := exitFailed scope |}
    end in
  (scope, {| counter := counter reg; scopes := <[Some id := scope]> (scopes reg) |}).

(** [setLogScopeExit]: the scope after the call. *)
Definition setLogScopeExit (scope : option LogScope) (details failed : option string)
    : option LogScope :=
  match scope with
  | None => None
  | Some scope =>
      let exitDetails' :=
        match exitDetails scope, details with
        | Some old, Some details => Some (old +:+ details)
        | _, _ => details
        end in
      let exitFailed' :=
        match failed with
        | Some failed =>
            match exitFailed scope with
            | Some old => Some (old +:+ failed)
            | None => Some failed
            end
        | None => exitFailed scope
        end in
      Some {| scopeId := scopeId scope; prevScopeId := prevScopeId scope;
              prefix := prefix scope; exitDetails := exitDetails';
              exitFailed := exitFailed' |}
  end.

End LoggerScope.

(** The calls a client makes on the log scopes. [Enter] is a call of
    [setLogScope] with a scope that carries the id it is stored under,
    as the [log] decorator makes it. *)
Inductive ScopeCall : Type :=
| Start (prefix_ : string) (scope : LoggerScope.ScopeArg)
| Dispose (logScope : LoggerScope.LogScope)
| Clear (id : nat)
| Next
| Enter (id : nat) (prev : option (option nat)) (prefix_ : string).

Definition scopeCall (reg : LoggerScope.Registry) (call : ScopeCall)
    : LoggerScope.Registry :=
  match call with
  | Start prefix_ scope => (LoggerScope.startLogScope prefix_ scope reg).2
  | Dispose logScope => LoggerScope.dispose logScope reg
  | Clear id => LoggerScope.clearLogScope id reg
  | Next => (LoggerScope.next reg).2
  | Enter id prev prefix_ =>
      (LoggerScope.setLogScope id
         {| LoggerScope.scopeId := Some id; LoggerScope.prevScopeId := prev;
            LoggerScope.prefix := prefix_; LoggerScope.exitDetails := None;
            LoggerScope.exitFailed := None |} reg).2
  end.

Definition scopeCalls (calls : list ScopeCall) : LoggerScope.Registry :=
  foldl scopeCall LoggerScope.initial calls.

(** The scope after a series of [setLogScopeExit] calls, each with its
    details and its failure. *)
Definition setExits (scope : LoggerScope.LogScope)
    (exits : list (option string * option string)) : option LoggerScope.LogScope :=
  foldl (fun scope e => LoggerScope.setLogScopeExit scope e.1 e.2) (Some scope) exits.

(** The texts of a list of optional texts, joined. *)
Definition joined (texts : list (option string)) : string :=
  foldr (fun t acc => match t with Some t => t +:+ acc | None => acc end)
        EmptyString texts.

(** * Padding ([system/string]) *)

Module Strings.

(** The filler of [padStart] and [padEnd]: [n] characters of the
    repeated [padWith]. *)
Fixpoint fillFrom (padWith rest : string) (n : nat) : string :=
  match n with
  | 0 => EmptyString
  | S n' =>
      match rest with
      | String c rest' => String c (fillFrom padWith rest' n')
      | EmptyString =>
          match padWith with
          | String c rest' => String c (fillFrom padWith rest' n')
          | EmptyString => EmptyString
          end
      end
  end.

Definition filler (padWith : string) (n : nat) : string := fillFrom padWith padWith n.

(** [s.padEnd(targetLength, padWith)] and [s.padStart(targetLength,
    padWith)] for an integer [targetLength]. *)
Definition padEnd (s : string) (targetLength : Z) (padWith : string) : string :=
  if (targetLength <=? Z.of_nat (String.length s))%Z then s
  else s +:+ filler padWith (Z.to_nat targetLength - String.length s).

Definition padStart (s : string) (targetLength : Z) (padWith : string) : string :=
  if (targetLength <=? Z.of_nat (String.length s))%Z then s
  else filler padWith (Z.to_nat targetLength - String.length s) +:+ s.

(** [s.substring(0, end)] for an integer [end]. *)
Fixpoint takeString (n : nat) (s : string) : string :=
  match n, s with
  | S n', String c s' => String c (takeString n' s')
  | _, _ => EmptyString
  end.

Definition substring0 (s : string) (end_ : Z) : string :=
  takeString (Z.to_nat end_) s.

Definition padOrTruncateEnd (s : string) (maxLength : Z) (padWith : string) : string :=
  if (maxLength <? Z.of_nat (String.length s))%Z then substring0 s maxLength
  else padEnd s maxLength padWith.

(** [getLoggableScopeBlockOverride] of [logger.scope]. *)
Definition getLoggableScopeBlockOverride (prefix_ : string) (suffix : option string)
    : string :=
  match suffix with
  | None => "[" +:+ padEnd prefix_ 13 " " +:+ "]"
  | Some suffix =>
      "[" +:+ prefix_
      +:+ padStart suffix (13 - Z.of_nat (String.length prefix_)) " " +:+ "]"
  end.

End Strings.

(** * Scanning a text with a global regular expression *)

Module Scan.

Fixpoint dropString (n : nat) (s : string) : string :=
  match n, s with
  | S n', String _ s' => dropString n' s'
  | _, _ => s
  end.

(** [s.substring(from, to)]: the two ends are swapped when they come
    in the wrong order. *)
Definition substring (s : string) (from to : nat) : string :=
  let lo := Nat.min from to in
  let hi := Nat.max from to in
  Strings.takeString (hi - lo) (dropString lo s).

(** [s.indexOf(c, from)] for a character [c], nothing for [-1]. *)
Fixpoint indexOfChar (c : ascii) (s : string) : option nat :=
  match s with
  | EmptyString => None
  | String d s' => if isChar c d then Some 0 else S <$> indexOfChar c s'
  end.

Definition indexOfFrom (s : string) (c : ascii) (from : nat) : option nat :=
  (fun k => from + k) <$> indexOfChar c (dropString from s).

(** The text between two positions of one input. *)
Definition between (from to : pos) : string :=
  Strings.takeString (String.length from.2 - String.length to.2) from.2.

(** The matches at [p] of an expression [pre(grp)post] with one group
    that matters, in the order in which the matcher finds them: the
    positions before the group, after the group and at the end. *)
Definition runGroup (multiline : bool) (pre grp post : regex) (p : pos)
    : list (pos * pos * pos) :=
  flat_map
    (fun m =>
       flat_map (fun g => map (fun q => (m, g, q)) (run multiline post g))
                (run multiline grp m))
    (run multiline pre p).

(** What the loops read of a match: [match.index], [match[0]] and the
    group. *)
Record Match : Type := {
  index : nat;
  whole : string;
  group : string
}.

(** The matches that [while ((match = re.exec(text)))] goes through.
    The scan is at [index], with [s] the text from there on; [skip]
    counts the characters up to [lastIndex], where the next search
    starts. *)
Fixpoint execAll (multiline : bool) (pre grp post : regex)
    (index skip : nat) (prev : option ascii) (s : string) : list Match :=
  let found :=
    match skip with
    | 0 => head (runGroup multiline pre grp post (prev, s))
    | S _ => None
    end in
  match found with
  | Some (m, g, q) =>
      let match_ := {| index := index; whole := between (prev, s) q;
                       group := between m g |} in
      match s with
      | EmptyString => [match_]
      | String c s' =>
          match_ :: execAll multiline pre grp post (S index)
                      (String.length (whole match_) - 1) (Some c) s'
      end
  | None =>
      match s with
      | EmptyString => []
      | String c s' =>
          execAll multiline pre grp post (S index) (skip - 1) (Some c) s'
      end
  end.

(** The brace counting loop of [findClasses] and [extractMethods]: the
    value of [i] when the loop ends, for a loop at [i] with the text [s]
    from there on. *)
Fixpoint matchBrace (depth : Z) (i : nat) (s : string) : nat :=
  match s with
  | EmptyString => i
  | String ch s' =>
      if isChar "{" ch then matchBrace (depth + 1) (S i) s'
      else if isChar "}" ch then
        if (depth - 1 =? 0)%Z then i else matchBrace (depth - 1) (S i) s'
      else matchBrace depth (S i) s'
  end.

End Scan.

(** * The classes of a text ([findClasses]) *)

Module Classes.

Record Class : Type := {
  name : string;
  start : nat;
  end_ : nat;
  bodyText : string
}.

(** [/class\s+([A-Za-z0-9_]+)/g], before the group and the group. *)
Definition re_classHead : regex := Seq (Lit "class") (Plus (Chr isSpace)).
Definition re_className : regex := Plus (Chr isWord).

(** The body of the loop for one match. *)
Definition classOf (text : string) (match_ : Scan.Match) : option Class :=
  let name := Scan.group match_ in
  let idx := Scan.index match_ + String.length (Scan.whole match_) in
  match Scan.indexOfFrom text "{" idx with
  | None => None
  | Some braceIdx =>
      let i := Scan.matchBrace 0 braceIdx (Scan.dropString braceIdx text) in
      let start := Scan.index match_ in
      let end_ := i + 1 in
      let bodyText := Scan.substring text (braceIdx + 1) i in
      Some {| name := name; start := start; end_ := end_; bodyText := bodyText |}
  end.

Definition findClasses (text : string) : list Class :=
  omap (classOf text)
       (Scan.execAll false re_classHead re_className Eps 0 0 None text).

End Classes.

(** * The extract-responsibility command *)

Module Extract.

(** A method as [extractMethods] returns it, with the fields the
    command adds to it. *)
Record Method : Type := {
  name : string;
  start : nat;
  end_ : nat;
  bodyStart : nat;
  bodyEnd : nat;
  text : string;
  bodyText : string;
  fields : gset string
}.

(** [/this\.([A-Za-z0-9_]+)/g], before the group and the group. *)
Definition re_this : regex := Lit "this.".
Definition re_field : regex := Plus (Chr isWord).

Definition extractThisFields (text : string) : gset string :=
  foldl (fun set m => {[Scan.group m]} ∪ set) ∅
        (Scan.execAll false re_this re_field Eps 0 0 None text).

(** [/(^\s*(?:public|private|protected|static|async|\s)*\s*([A-Za-z0-9_]+)\s*\([^)]*\)\s*\{)/gm],
    before the name, the name and behind the name. *)
Definition re_modifiers : regex :=
  Engine.seqs [Bol; Star (Chr isSpace);
        Star (Alt (Lit "public")
             (Alt (Lit "private")
             (Alt (Lit "protected")
             (Alt (Lit "static")
             (Alt (Lit "async") (Chr isSpace))))));
        Star (Chr isSpace)].

Definition re_methodName : regex := Plus (Chr isWord).

Definition re_parameters : regex :=
  Engine.seqs [Star (Chr isSpace); Chr (isChar "(");
        Star (Chr (fun c => negb (isChar ")" c))); Chr (isChar ")");
        Star (Chr isSpace); Chr (isChar "{")].

(** The body of the loop of [extractMethods] for one match; the fields
    are left empty, the command fills them in. *)
Definition methodOf (bodyText_ : string) (match_ : Scan.Match) : option Method :=
  let name := Scan.group match_ in
  let sigIndex := Scan.index match_ in
  match Scan.indexOfFrom bodyText_ "{"
          (sigIndex + String.length (Scan.whole match_) - 1) with
  | None => None
  | Some braceIndex =>
      let i := Scan.matchBrace 0 braceIndex (Scan.dropString braceIndex bodyText_) in
      let methodStart := sigIndex in
      let methodEnd := i + 1 in
      let bodyStart := braceIndex + 1 in
      let bodyEnd := i in
      let methodText := Scan.substring bodyText_ methodStart methodEnd in
      let methodBodyText := Scan.substring bodyText_ bodyStart bodyEnd in
      Some {| name := name; start := methodStart; end_ := methodEnd;
              bodyStart := bodyStart; bodyEnd := bodyEnd; text := methodText;
              bodyText := methodBodyText; fields := ∅ |}
  end.

Definition extractMethods (bodyText_ : string) : list Method :=
  omap (methodOf bodyText_)
       (Scan.execAll true re_modifiers re_methodName re_parameters
          0 0 None bodyText_).


(** [new Set([...a.fields].filter(x => b.fields.has(x)))] *)
Definition overlap (a b : Method) : gset string :=
  filter (fun x => x ∈ fields b) (fields a).

(** The test of the double loop on the methods [a] and [b]. *)
Definition splits (a b : Method) : bool :=
  if String.eqb (name a) "constructor" || String.eqb (name b) "constructor"
  then false
  else (size (overlap a b) =? 0)%nat
       && ((0 <? size (fields a))%nat || (0 <? size (fields b))%nat).

(** The inner loop: [a] is [methods[i]], [rest] holds the methods from
    index [j] on. *)
Fixpoint partnerOf (a : Method) (i j : nat) (rest : list Method)
    : option (nat * nat) :=
  match rest with
  | [] => None
  | b :: rest' => if splits a b then Some (i, j) else partnerOf a i (S j) rest'
  end.

(** The outer loop: [rest] holds the methods from index [i] on. *)
Fixpoint pairFrom (i : nat) (rest : list Method) : option (nat * nat) :=
  match rest with
  | [] => None
  | a :: rest' =>
      match partnerOf a i (S i) rest' with
      | Some pair_ => Some pair_
      | None => pairFrom (S i) rest'
      end
  end.

(** The pair the command looks for, as the indices of its methods. *)
Definition findPair (methods : list Method) : option (nat * nat) :=
  pairFrom 0 methods.

(** The methods to move, as indices: the filter compares objects, and
    an index stands for the object at that place of the array. *)
Definition toMove (methods : list Method) (pair_ : nat * nat) : list nat :=
  match methods !! pair_.2 with
  | None => []
  | Some b =>
      let toMove :=
        (List.filter
           (fun m : nat * Method =>
              negb (m.1 =? pair_.1)%nat && (0 <? size (fields m.2))%nat
              && bool_decide (fields m.2 ⊆ fields b))
           (imap pair methods)).*1 in
      if (length toMove =? 0)%nat then push toMove pair_.2 else toMove
  end.

End Extract.

(** Two methods the command may tell apart: neither is the
    constructor, they share no field, and one of them uses a field. *)
Definition separable (a b : Extract.Method) : Prop :=
  Extract.name a <> "constructor" /\ Extract.name b <> "constructor"
  /\ Extract.fields a ## Extract.fields b
  /\ (Extract.fields a <> ∅ \/ Extract.fields b <> ∅).

(** The order in which the double loop visits the pairs of indices. *)
Definition visitedBefore (p q i j : nat) : Prop :=
  p < i \/ (p = i /\ q < j).

Definition method (name_ : string) (fields_ : list string) : Extract.Method :=
  {| Extract.name := name_; Extract.start := 0; Extract.end_ := 0;
     Extract.bodyStart := 0; Extract.bodyEnd := 0;
     Extract.text := EmptyString; Extract.bodyText := EmptyString;
     Extract.fields := list_to_set fields_ |}.

(** A constructor, a method on a cache and two methods on a store. *)
Definition methodsStore : list Extract.Method :=
  [method "constructor" ["cache"; "store"]; method "load" ["cache"];
   method "save" ["store"]; method "flush" ["store"]].

(** Every character of a text passes a test. *)
Fixpoint allChars (f : ascii -> bool) (s : string) : bool :=
  match s with
  | EmptyString => true
  | String c s' => f c && allChars f s'
  end.

(** A text whose braces match, for a text that starts [depth] braces
    deep: no closing brace comes without its opening brace, and no
    brace is left open at the end. *)
Fixpoint balancedFrom (depth : nat) (s : string) : bool :=
  match s with
  | EmptyString => (depth =? 0)%nat
  | String c s' =>
      if isChar "{" c then balancedFrom (S depth) s'
      else if isChar "}" c then
        match depth with
        | 0 => false
        | S depth' => balancedFrom depth' s'
        end
      else balancedFrom depth s'
  end.

Definition balanced (s : string) : bool := balancedFrom 0 s.

(** A class with one method, and a class whose brace is never closed. *)
Definition textClasses : string :=
  "class A { m() { this.x = 1; } }" +:+ String LF "class Bee{".

(** What [findClasses] tells of a class of [text]: the text reads, from
    the start of the class, [class], blanks, the name, a stretch
    without brace, an opening brace and the rest; the body is the rest
    up to the brace that closes the opening one, or all of the rest
    when no brace does. *)
Definition classShape (text : string) (cls : Classes.Class) : Prop :=
  exists gap stretch rest,
    Scan.dropString (Classes.start cls) text
    = "class" +:+ gap +:+ Classes.name cls +:+ stretch +:+ String "{" rest
    /\ Classes.start cls <= String.length text
    /\ gap <> EmptyString /\ allChars isSpace gap = true
    /\ Classes.name cls <> EmptyString
    /\ allChars isWord (Classes.name cls) = true
    /\ allChars (fun c => negb (isChar "{" c)) stretch = true
    /\ let bodyStart :=
         Classes.start cls
         + String.length ("class" +:+ gap +:+ Classes.name cls +:+ stretch) + 1 in
       (exists rest',
          rest = Classes.bodyText cls +:+ String "}" rest'
          /\ balanced (Classes.bodyText cls) = true
          /\ Classes.end_ cls
             = bodyStart + String.length (Classes.bodyText cls) + 1)
       \/ (Classes.bodyText cls = rest
           /\ Classes.end_ cls = String.length text + 1
           /\ forall body rest',
                rest = body +:+ String "}" rest' -> balanced body = false).



(** The position behind the whitespace at the start of [s]. *)
Fixpoint skipSpace (prev : option ascii) (s : string) : pos :=
  match s with
  | String c s' => if isSpace c then skipSpace (Some c) s' else (prev, s)
  | EmptyString => (prev, s)
  end.

(** A text with every run of whitespace turned into one blank;
    [inSpace] tells that the text follows a whitespace character. *)
Fixpoint collapse (inSpace : bool) (s : string) : string :=
  match s with
  | EmptyString => EmptyString
  | String c s' =>
      if isSpace c
      then if inSpace then collapse true s' else String " " (collapse true s')
      else String c (collapse false s')
  end.

(** A text whose only whitespace is single blanks; [afterBlank] tells
    that the text follows a blank. *)
Fixpoint singleBlanks (afterBlank : bool) (s : string) : bool :=
  match s with
  | EmptyString => true
  | String c s' =>
      if isSpace c
      then isChar " " c && negb afterBlank && singleBlanks true s'
      else singleBlanks false s'
  end.

Definition firstChar (s : string) : option ascii :=
  match s with
  | EmptyString => None
  | String c _ => Some c
  end.

Fixpoint lastChar (s : string) : option ascii :=
  match s with
  | EmptyString => None
  | String c EmptyString => Some c
  | String _ s' => lastChar s'
  end.

(** The character before the place [k] of a text, if any. *)
Definition charBefore (s : string) (k : nat) : option ascii :=
  match k with
  | 0 => None
  | S k' => Engine.charAt s k'
  end.

(** An expression all of whose character classes lie within [f]. *)
Fixpoint within (f : ascii -> bool) (r : regex) : Prop :=
  match r with
  | Chr g => forall c, g c = true -> f c = true
  | Seq r1 r2 | Alt r1 r2 => within f r1 /\ within f r2
  | Star r1 => within f r1
  | Eps | Bol | Eol | WordB => True
  end.

(** What [extractMethods] tells of a method of the body [body] of a
    class: at the start of a line the body reads blanks and lower-case
    words, the name, a parameter list without closing parenthesis
    inside and an opening brace; the body of the method is what follows
    up to the brace that closes the opening one, or all that follows
    when no brace does. *)
Definition methodShape (body : string) (m : Extract.Method) : Prop :=
  exists lead gap1 params gap2 rest,
    let head_ :=
      lead +:+ Extract.name m +:+ gap1
      +:+ String "(" (params +:+ String ")" gap2) in
    Scan.dropString (Extract.start m) body = head_ +:+ String "{" rest
    /\ Extract.start m <= String.length body
    /\ match charBefore body (Extract.start m) with
       | None => True
       | Some c => isLineTerminator c = true
       end
    /\ allChars (fun c => isSpace c || isLower c) lead = true
    /\ Extract.name m <> EmptyString
    /\ allChars isWord (Extract.name m) = true
    /\ allChars isSpace gap1 = true
    /\ allChars (fun c => negb (isChar ")" c)) params = true
    /\ allChars isSpace gap2 = true
    /\ Extract.bodyStart m = Extract.start m + String.length head_ + 1
    /\ Extract.end_ m = Extract.bodyEnd m + 1
    /\ ((exists rest',
           rest = Extract.bodyText m +:+ String "}" rest'
           /\ balanced (Extract.bodyText m) = true
           /\ Extract.bodyEnd m
              = Extract.bodyStart m + String.length (Extract.bodyText m)
           /\ Extract.text m
              = head_ +:+ String "{" (Extract.bodyText m +:+ String "}" EmptyString))
        \/ (Extract.bodyText m = rest
            /\ Extract.bodyEnd m = String.length body
            /\ Extract.text m = head_ +:+ String "{" rest
            /\ forall inner rest',
                 rest = inner +:+ String "}" rest' -> balanced inner = false)).

(** The body of a class with a method [load] and a method [save] that
    holds an [if] at the start of a line. *)
Definition bodyStore : string :=
  String LF ("  load() { return this.cache; }"
  +:+ String LF ("  async save(x) {"
  +:+ String LF ("   if (x) { this.store = x; } }"
  +:+ String LF EmptyString))).

(** * Intra-unit duplication in the words of the specification

    The trimmed non-empty lines of a text, written out without the
    string operations of the engine: the lines are the stretches between
    line feeds, and trimming removes the whitespace at both ends. *)

(** The lines of [s] behind the characters [line] of the line that is
    being read. *)
Fixpoint cutLines (line s : string) : list string :=
  match s with
  | EmptyString => [line]
  | String c s' =>
      if Ascii.eqb c (ascii_of_nat 10) then line :: cutLines EmptyString s'
      else cutLines (line +:+ String c EmptyString) s'
  end.

(** Whitespace: tab, line feed, vertical tab, form feed, carriage
    return, space and no-break space. *)
Definition blank (c : ascii) : bool :=
  bool_decide (nat_of_ascii c ∈ [9; 10; 11; 12; 13; 32; 160]).

Fixpoint dropBlanks (s : string) : string :=
  match s with
  | EmptyString => EmptyString
  | String c s' => if blank c then dropBlanks s' else s
  end.

Fixpoint reverseOnto (acc s : string) : string :=
  match s with
  | EmptyString => acc
  | String c s' => reverseOnto (String c acc) s'
  end.

Definition reversed (s : string) : string := reverseOnto EmptyString s.

(** A line without the whitespace at its start and at its end. *)
Definition stripped (s : string) : string :=
  reversed (dropBlanks (reversed (dropBlanks s))).

Definition trimmedNonEmptyLines (text : string) : list string :=
  List.filter (fun l => negb (String.eqb l EmptyString))
              (map stripped (cutLines EmptyString text)).

(** A function of six lines, four of which are the same statement, and
    a function of four different lines. *)
Definition unitRepeat : CodeUnit :=
  {| declaration := FunctionDeclaration (Some []);
     getName := Some "repeat";
     getText :=
       "function repeat(){" +:+ nl
       +:+ "  step();" +:+ nl
       +:+ "  step();  " +:+ nl
       +:+ nl
       +:+ tab +:+ "step();" +:+ nl
       +:+ "  step();" +:+ nl
       +:+ "}";
     getStart := 0;
     getEnd := 62 |}.

Definition unitSteps : CodeUnit :=
  {| declaration := FunctionDeclaration (Some []);
     getName := Some "steps";
     getText :=
       "function steps(){" +:+ nl
       +:+ "  first();" +:+ nl
       +:+ nl
       +:+ "  second();" +:+ nl
       +:+ "}";
     getStart := 0;
     getEnd := 43 |}.

(** * The side-effect patterns in plain terms

    What a unit text must hold for each of the patterns of the two
    side-effect predicates, said of the text itself. *)

(** The characters of a word, [a] to [z], [A] to [Z], [0] to [9] and
    the underscore, and those a name can start with; whitespace is
    [blank]. *)
Definition wordCharacter (c : ascii) : bool :=
  existsb (Ascii.eqb c)
    (list_ascii_of_string
       "abcdefghijklmnopqrstuvwxyzABCDEFGHIJKLMNOPQRSTUVWXYZ0123456789_").

Definition nameStartCharacter (c : ascii) : bool :=
  existsb (Ascii.eqb c)
    (list_ascii_of_string
       "abcdefghijklmnopqrstuvwxyzABCDEFGHIJKLMNOPQRSTUVWXYZ_").

(** A word can start behind [pre]: [pre] is empty or its last
    character is no word character. *)
Definition wordStartsBehind (pre : string) : Prop :=
  match lastChar pre with
  | Some c => wordCharacter c = false
  | None => True
  end.

(** A word can end before [post]. *)
Definition wordEndsBefore (post : string) : Prop :=
  match firstChar post with
  | Some c => wordCharacter c = false
  | None => True
  end.

(** The text holds, at the start of a word, [this.], a word, whitespace if
    any, and [=]. *)
Definition assignsField (text : string) : Prop :=
  exists pre field gap post,
    text = pre +:+ "this." +:+ field +:+ gap +:+ "=" +:+ post
    /\ wordStartsBehind pre
    /\ field <> EmptyString /\ allChars wordCharacter field = true
    /\ allChars blank gap = true.

(** The text holds [console.log], [console.error] or [console.warn] as
    a word of its own. *)
Definition logsToConsole (text : string) : Prop :=
  exists pre method post,
    text = pre +:+ "console." +:+ method +:+ post
    /\ wordStartsBehind pre
    /\ In method ["log"; "error"; "warn"]
    /\ wordEndsBefore post.

(** The text holds a word that starts with a letter or an underscore
    and comes behind neither a word character nor a dot, then whitespace if
    any, one of [+], [-], [*] and [/] or none, and [=]. *)
Definition assignsName (text : string) : Prop :=
  exists pre c rest gap op post,
    text = pre +:+ String c rest +:+ gap +:+ op +:+ "=" +:+ post
    /\ match lastChar pre with
       | Some d => wordCharacter d = false /\ d <> "."%char
       | None => True
       end
    /\ nameStartCharacter c = true /\ allChars wordCharacter rest = true
    /\ allChars blank gap = true
    /\ In op [EmptyString; "+"; "-"; "*"; "/"].

(** The text holds, at the start of a word, [set] and at least one
    more word character. *)
Definition namesSetter (text : string) : Prop :=
  exists pre rest post,
    text = pre +:+ "set" +:+ rest +:+ post
    /\ wordStartsBehind pre
    /\ rest <> EmptyString /\ allChars wordCharacter rest = true.

(** The character before the place behind [pre], for a text that
    follows the character [prev]. *)
Definition lastOr (prev : option ascii) (pre : string) : option ascii :=
  match lastChar pre with
  | Some c => Some c
  | None => prev
  end.

(** Texts on which the plain reading of the field pattern and the code
    can be compared: a compound assignment and a comparison. *)
Definition unitCompound : CodeUnit :=
  {| declaration := FunctionDeclaration (Some []);
     getName := Some "bump";
     getText := "function bump(){ this.count += 1 }";
     getStart := 0;
     getEnd := 34 |}.

Definition unitCompare : CodeUnit :=
  {| declaration := FunctionDeclaration (Some []);
     getName := Some "same";
     getText := "function same(){ return this.x == 1 }";
     getStart := 0;
     getEnd := 37 |}.
(** * Properties *)

Ltac split_ifs :=
  repeat match goal with
         | |- context [if ?b then _ else _] => destruct b
         end.

(** ** Readability scorer *)

(** C7: for every unit the readability score is an integer between 0
    and 100: it starts at 100, only penalties are subtracted, and the
    result is floored at 0. *)
Theorem evaluateReadability_range (unit : CodeUnit) :
  (0 <= Engine.evaluateReadability unit <= 100)%Z.
Proof.
  unfold Engine.evaluateReadability; cbv zeta.
  split_ifs; lia.
Qed.

(** The only scores the scorer can return. *)
Lemma evaluateReadability_values (unit : CodeUnit) :
  In (Engine.evaluateReadability unit)
     [100; 85; 80; 65; 90; 75; 70; 55; 60; 45; 50; 35]%Z.
Proof.
  unfold Engine.evaluateReadability; cbv zeta.
  split_ifs; cbn; tauto.
Qed.

Lemma Qltb_lt (x y : Q) : Qltb x y = true <-> (x < y)%Q.
Proof.
  unfold Qltb. rewrite negb_true_iff, <- not_true_iff_false, Qle_bool_iff.
  split; [apply Qnot_le_lt | apply Qlt_not_le].
Qed.

Lemma indentOutsideBand_test (text : string) :
  indentOutsideBand text ->
  Qltb (Engine.avgIndent text) 2 || Qltb 4 (Engine.avgIndent text) = true.
Proof.
  intros [H | H]; apply Qltb_lt in H; rewrite H; [reflexivity | apply orb_true_r].
Qed.

(** C2, as stated, fails: the name [a] matches the identifier pattern,
    so the first penalty is not applied and the score is above 35. *)
Lemma readability_a_counterexample :
  getName unitA = Some "a"
  /\ indentOutsideBand (getText unitA)
  /\ ~ (Engine.evaluateReadability unitA <= 35)%Z.
Proof.
  split; [reflexivity |]. split.
  - left. vm_compute. reflexivity.
  - vm_compute. intros H. apply H. reflexivity.
Qed.

(** ** Finding aggregator *)

(** One conditional push, seen from the list it started from. *)
Lemma cond_push_app {A} (b : bool) (l x y : list A) (d : A) :
  x = (l ++ y)%list ->
  (if b then push x d else x) = (l ++ (if b then push y d else y))%list.
Proof. intros ->. destruct b; [unfold push; now rewrite app_assoc | reflexivity]. Qed.

Lemma analyzeUnitInto_app sev diagnostics unit :
  Engine.analyzeUnitInto sev diagnostics unit
  = (diagnostics ++ unitFindings sev unit)%list.
Proof.
  unfold unitFindings, Engine.analyzeUnitInto.
  repeat apply cond_push_app. now rewrite app_nil_r.
Qed.

Lemma foldl_analyzeUnitInto sev units : forall diagnostics,
  foldl (Engine.analyzeUnitInto sev) diagnostics units
  = (diagnostics ++ flat_map (unitFindings sev) units)%list.
Proof.
  induction units as [| unit units IH]; intros diagnostics; cbn.
  - now rewrite app_nil_r.
  - now rewrite IH, analyzeUnitInto_app, <- app_assoc.
Qed.

Lemma foldl_reportCycleInto sev document cycles : forall diagnostics,
  foldl (Engine.reportCycleInto sev document) diagnostics cycles
  = (diagnostics ++ map (cycleFinding sev document) cycles)%list.
Proof.
  induction cycles as [| cycle cycles IH]; intros diagnostics; cbn.
  - now rewrite app_nil_r.
  - rewrite IH. unfold Engine.reportCycleInto, push, cycleFinding.
    now rewrite <- app_assoc.
Qed.

Lemma comparePairInto_app sev diagnostics a b :
  Engine.comparePairInto sev diagnostics a b
  = (diagnostics ++ Engine.comparePairInto sev [] a b)%list.
Proof.
  unfold Engine.comparePairInto, push; cbv zeta.
  split_ifs; rewrite <- ?app_assoc; cbn [app]; rewrite ?app_nil_r; reflexivity.
Qed.

(** The inner loop over [j], for a fixed [a = l[i]]. *)
Lemma foldl_inner sev (l : list CodeUnit) a : forall m k diagnostics,
  m = length l - k ->
  foldl (fun diagnostics j =>
           match Some a, l !! j with
           | Some a, Some b => Engine.comparePairInto sev diagnostics a b
           | _, _ => diagnostics
           end) diagnostics (seq k m)
  = (diagnostics
     ++ flat_map (fun ab => Engine.comparePairInto sev [] ab.1 ab.2)
                 (map (pair a) (drop k l)))%list.
Proof.
  induction m as [| m IH]; intros k diagnostics Hm; cbn [seq foldl].
  - rewrite drop_ge by lia. cbn. now rewrite app_nil_r.
  - destruct (lookup_lt_is_Some_2 l k) as [b Hb]; [lia |].
    rewrite Hb, (drop_S _ _ _ Hb), IH by lia.
    rewrite comparePairInto_app. cbn. now rewrite <- app_assoc.
Qed.

(** The outer loop over [i]. *)
Lemma foldl_outer sev (l : list CodeUnit) : forall m k diagnostics,
  m = length l - k ->
  foldl (fun diagnostics i =>
           foldl (fun diagnostics j =>
                    match l !! i, l !! j with
                    | Some a, Some b => Engine.comparePairInto sev diagnostics a b
                    | _, _ => diagnostics
                    end)
                 diagnostics (seq (i + 1) (length l - (i + 1))))
        diagnostics (seq k m)
  = (diagnostics ++ crossFindings sev (drop k l))%list.
Proof.
  induction m as [| m IH]; intros k diagnostics Hm; cbn [seq foldl].
  - rewrite drop_ge by lia. cbn. now rewrite app_nil_r.
  - destruct (lookup_lt_is_Some_2 l k) as [a Ha]; [lia |].
    rewrite IH by lia. rewrite Ha, (drop_S _ _ _ Ha).
    rewrite (foldl_inner sev l a _ (k + 1) diagnostics eq_refl).
    unfold crossFindings. cbn [pairsOf]. rewrite flat_map_app.
    replace (k + 1) with (S k) by lia. now rewrite <- app_assoc.
Qed.

(** The list the analysis pass returns, part by part. *)
Lemma analyzeDocument_parts sev document :
  Engine.analyzeDocument sev document
  = (flat_map (unitFindings sev) (getClasses document ++ getFunctions document)
     ++ map (cycleFinding sev document)
            (Engine.detectCycles
               (Engine.buildDependencyGraph
                  (getClasses document ++ getFunctions document)))
     ++ crossFindings sev (getFunctions document))%list.
Proof.
  unfold Engine.analyzeDocument; cbv zeta.
  rewrite (foldl_outer sev (getFunctions document) _ 0 _)
    by (now rewrite Nat.sub_0_r).
  rewrite foldl_reportCycleInto, foldl_analyzeUnitInto.
  cbn [app drop]. now rewrite <- app_assoc.
Qed.

Lemma Forall_cond_push {A} (P : A -> Prop) (b : bool) (l : list A) (d : A) :
  Forall P l -> P d -> Forall P (if b then push l d else l).
Proof.
  intros Hl Hd. destruct b; [| exact Hl].
  unfold push. apply Forall_app. split; [exact Hl | now apply Forall_singleton].
Qed.

Lemma map_cond_push {A B} (g : A -> B) (b : bool) (l : list A) (d : A) :
  map g (if b then push l d else l)
  = (map g l ++ (if b then [g d] else []))%list.
Proof. destruct b; [apply map_app | now rewrite app_nil_r]. Qed.

Lemma In_cond_push {A} (b : bool) (l : list A) (d x : A) :
  In x l -> In x (if b then push l d else l).
Proof. intros H. destruct b; [apply in_or_app; now left | exact H]. Qed.

(** The rules that report on a unit do so in the order of [unitRules],
    each on the range of the unit. *)
Lemma unitFindings_rules sev unit :
  map code (unitFindings sev unit) = map fst (List.filter snd (unitRules unit))
  /\ Forall (fun d => range d = Engine.unitRange unit /\ severity d = sev)
            (unitFindings sev unit).
Proof.
  split.
  - unfold unitFindings, Engine.analyzeUnitInto, unitRules.
    rewrite !map_cond_push. cbn [List.filter snd map fst].
    repeat match goal with
           | |- context [if ?b then _ else _] => destruct b
           end; reflexivity.
  - unfold unitFindings, Engine.analyzeUnitInto.
    repeat (apply Forall_cond_push; [| split; reflexivity]).
    apply Forall_nil_2.
Qed.

(** A score below 90 is reported, whatever the other rules find. *)
Lemma unitFindings_readability sev unit (score : Z) :
  Engine.evaluateReadability unit = score ->
  (score <? 90)%Z = true ->
  In (Engine.mkDiagnostic (Engine.unitRange unit)
        ("Poor readability: Use meaningful names, consistent formatting. Score: "
         +:+ showZ score +:+ "/100")
        sev "clean-code-assistant.readability")
     (unitFindings sev unit).
Proof.
  intros Hscore Hlow.
  unfold unitFindings, Engine.analyzeUnitInto.
  do 7 apply In_cond_push. rewrite Hscore, Hlow. now left.
Qed.

(** C4, as stated, fails: the units are visited classes first and
    functions second, so the finding of a class can precede the finding
    of a function that stands before it in the document. *)
Lemma analyzeDocument_documentOrder_counterexample :
  documentOrder documentFC = [unitF; unitC]
  /\ ~ (exists rest,
          Engine.analyzeDocument Warning documentFC
          = (flat_map (unitFindings Warning) (documentOrder documentFC)
             ++ rest)%list).
Proof.
  split; [reflexivity |].
  intros [rest H]. vm_compute in H. discriminate H.
Qed.

(** C4, amended: the findings of one analysis pass are, for each unit
    of the unit list (all classes in source order, then all functions
    in source order), the findings of that unit in the fixed order
    readability, size, complexity, god-class, SRP, intra-unit
    duplication, testability, side-effects, each present exactly when
    its condition holds; then one finding per dependency cycle; then the
    cross-unit duplication findings, pair by pair. *)
Theorem analyzeDocument_order sev document :
  Engine.analyzeDocument sev document
  = (flat_map (unitFindings sev) (getClasses document ++ getFunctions document)
     ++ map (cycleFinding sev document)
            (Engine.detectCycles
               (Engine.buildDependencyGraph
                  (getClasses document ++ getFunctions document)))
     ++ crossFindings sev (getFunctions document))%list
  /\ (forall unit,
        map code (unitFindings sev unit)
        = map fst (List.filter snd (unitRules unit))
        /\ Forall (fun d => range d = Engine.unitRange unit)
                  (unitFindings sev unit))
  /\ (forall cycle,
        code (cycleFinding sev document cycle)
        = "clean-code-assistant.dependency-cycle")
  /\ Forall (fun d => code d = "clean-code-assistant.duplication")
            (crossFindings sev (getFunctions document)).
Proof.
  split; [apply analyzeDocument_parts |].
  split; [| split; [reflexivity |]].
  - intros unit. destruct (unitFindings_rules sev unit) as [Hc Hr].
    split; [exact Hc |].
    eapply Forall_impl; [exact Hr |]. now intros d [Hd _].
  - unfold crossFindings. apply Forall_flat_map, Forall_forall.
    intros [a b] _. unfold Engine.comparePairInto, push; cbv zeta.
    split_ifs; cbn; repeat constructor.
Qed.

(** C2, amended: for every unit named [a] whose average indentation is
    outside the band from 2 to 4, three penalties apply (10 for the
    short name, 20 for the lowercase start, 15 for the indentation) and
    the pattern penalty does not, so the score is 55; being below 90, it
    is reported by a readability finding of every document that holds
    the unit. *)
Theorem readability_a (unit : CodeUnit) :
  getName unit = Some "a" ->
  indentOutsideBand (getText unit) ->
  Engine.evaluateReadability unit = 55%Z
  /\ forall sev document,
       In unit (getClasses document ++ getFunctions document) ->
       In (Engine.mkDiagnostic (Engine.unitRange unit)
             "Poor readability: Use meaningful names, consistent formatting. Score: 55/100"
             sev "clean-code-assistant.readability")
          (Engine.analyzeDocument sev document).
Proof.
  intros Hname Hband.
  assert (Hscore : Engine.evaluateReadability unit = 55%Z).
  { unfold Engine.evaluateReadability; cbv zeta.
    rewrite Hname, (indentOutsideBand_test _ Hband). reflexivity. }
  split; [exact Hscore |].
  intros sev document Hin.
  rewrite analyzeDocument_parts. apply in_or_app. left.
  apply in_flat_map. exists unit. split; [exact Hin |].
  apply (unitFindings_readability sev unit 55 Hscore). reflexivity.
Qed.

Lemma readability_a_witness :
  Engine.evaluateReadability unitA = 55%Z
  /\ forall sev document,
       In unitA (getClasses document ++ getFunctions document) ->
       In (Engine.mkDiagnostic (Engine.unitRange unitA)
             "Poor readability: Use meaningful names, consistent formatting. Score: 55/100"
             sev "clean-code-assistant.readability")
          (Engine.analyzeDocument sev document).
Proof.
  apply (readability_a unitA); [reflexivity | left; vm_compute; reflexivity].
Defined.

(** ** Side-effect heuristics *)

(** C3, as stated, fails: the two variants of the predicate differ. The
    first reports console output, which the second ignores; the second
    reports a word that starts with [set], which the first ignores. *)
Lemma hasSideEffects_variants_counterexample :
  (Engine.hasSideEffects unitLog = true
   /\ Engine2.hasSideEffects unitLog = false)
  /\ (Engine.hasSideEffects unitSetter = false
      /\ Engine2.hasSideEffects unitSetter = true).
Proof. vm_compute. repeat split. Qed.

(** ** Intra-unit duplication *)

Lemma size_list_to_set_distinct (lines : list string) :
  size (list_to_set lines : gset string) = distinctCount lines.
Proof.
  unfold distinctCount.
  rewrite <- (size_list_to_set (C := gset string) (remove_dups lines))
    by apply NoDup_remove_dups.
  f_equal. apply set_eq. intros x.
  now rewrite !elem_of_list_to_set, elem_of_remove_dups.
Qed.

Lemma distinctCount_le (lines : list string) :
  distinctCount lines <= length lines.
Proof.
  unfold distinctCount.
  induction lines as [| l lines IH]; cbn; [lia |].
  destruct (decide_rel elem_of l lines); cbn; lia.
Qed.

Lemma natQ_lt (a b : nat) : (natQ a < natQ b)%Q <-> a < b.
Proof. unfold natQ. rewrite <- Zlt_Qlt. lia. Qed.

Lemma natQ_le (a b : nat) : (natQ a <= natQ b)%Q <-> a <= b.
Proof. unfold natQ. rewrite <- Zle_Qle. lia. Qed.

(** [d < n * 0.8] on counts, without the product. *)
Lemma lt_scaled (d n : nat) :
  (natQ d < natQ n * (8 # 10))%Q <-> 10 * d < 8 * n.
Proof.
  unfold natQ, Qlt, Qmult; cbn [Qnum Qden inject_Z]. lia.
Qed.

(** [d / n < 0.8] on counts, for a positive [n]. *)
Lemma ratio_lt (d n : nat) :
  0 < n -> (natQ d / natQ n < 8 # 10)%Q <-> 10 * d < 8 * n.
Proof.
  intros Hn. rewrite <- lt_scaled.
  assert (Hq : (0 < natQ n)%Q) by (now apply (natQ_lt 0 n)).
  split; intros H.
  - apply (Qmult_lt_r _ _ (natQ n)) in H; [| exact Hq].
    rewrite Qmult_comm, Qmult_div_r in H; [| now apply Qnot_eq_sym, Qlt_not_eq].
    now rewrite Qmult_comm.
  - apply Qlt_shift_div_r; [exact Hq |]. now rewrite Qmult_comm.
Qed.

Lemma distinctCount_NoDup (lines : list string) :
  NoDup lines -> distinctCount lines = length lines.
Proof.
  unfold distinctCount.
  induction 1 as [| l lines Hl _ IH]; cbn; [reflexivity |].
  destruct (decide_rel elem_of l lines); [contradiction | cbn; lia].
Qed.

(** ** Edit distance *)

Lemma editDistance_0_l a b j : editDistance a b 0 j = j.
Proof. reflexivity. Qed.

Lemma editDistance_0_r a b i : editDistance a b i 0 = i.
Proof. destruct i; reflexivity. Qed.

Lemma editDistance_S a b i j :
  editDistance a b (S i) (S j)
  = min3 (editDistance a b i (S j) + 1)
         (editDistance a b (S i) j + 1)
         (editDistance a b i j + substCost a b i j).
Proof. reflexivity. Qed.

Lemma substCost_sym a b i j : substCost a b i j = substCost b a j i.
Proof.
  unfold substCost.
  destruct (decide (Engine.charAt a i = Engine.charAt b j)) as [E | N].
  - now rewrite !bool_decide_eq_true_2.
  - rewrite !bool_decide_eq_false_2; [reflexivity | | exact N].
    intros E. apply N. now symmetry.
Qed.

Lemma substCost_refl a i : substCost a a i i = 0.
Proof. unfold substCost. now rewrite bool_decide_eq_true_2. Qed.

Lemma substCost_le a b i j : substCost a b i j <= 1.
Proof. unfold substCost. destruct (bool_decide _); lia. Qed.

Lemma min3_swap x y z : min3 x y z = min3 y x z.
Proof. unfold min3. lia. Qed.

(** The recurrence does not tell its two words apart. *)
Lemma editDistance_sym a b : forall i j,
  editDistance a b i j = editDistance b a j i.
Proof.
  induction i as [| i IHi]; intros j.
  - now rewrite editDistance_0_l, editDistance_0_r.
  - induction j as [| j IHj].
    + now rewrite editDistance_0_l, editDistance_0_r.
    + rewrite !editDistance_S, IHj, !IHi, substCost_sym. apply min3_swap.
Qed.

(** No distance exceeds the longer of the two prefixes. *)
Lemma editDistance_le_max a b : forall i j,
  editDistance a b i j <= Nat.max i j.
Proof.
  induction i as [| i IHi]; intros j.
  - rewrite editDistance_0_l. lia.
  - destruct j as [| j].
    + rewrite editDistance_0_r. lia.
    + rewrite editDistance_S.
      pose proof (IHi j). pose proof (substCost_le a b i j).
      unfold min3. lia.
Qed.

(** A word is at distance 0 from itself. *)
Lemma editDistance_refl a : forall i, editDistance a a i i = 0.
Proof.
  induction i as [| i IHi]; [reflexivity |].
  rewrite editDistance_S, IHi, substCost_refl. unfold min3. lia.
Qed.

(** *** The table of [levenshtein] *)

Section Table.
Context (rows cols : nat).

Lemma tableDims_setCell dp i j v :
  tableDims rows cols dp -> tableDims rows cols (Engine.setCell dp i j v).
Proof.
  intros [Hlen Hrows]. split.
  - unfold Engine.setCell. now rewrite length_alter.
  - apply Forall_alter; [exact Hrows |].
    intros row _ Hrow. now rewrite length_insert.
Qed.

Lemma cell_setCell_eq dp i j v :
  tableDims rows cols dp -> i < rows -> j < cols ->
  Engine.cell (Engine.setCell dp i j v) i j = v.
Proof.
  intros [Hlen Hrows] Hi Hj.
  destruct (lookup_lt_is_Some_2 dp i) as [row Hrow]; [lia |].
  assert (length row = cols) as Hcols
    by (eapply (proj1 (Forall_lookup _ _) Hrows); exact Hrow).
  unfold Engine.cell, Engine.setCell.
  rewrite list_lookup_alter_eq, Hrow. cbn.
  rewrite list_lookup_insert_eq by lia. reflexivity.
Qed.

Lemma cell_setCell_ne dp i j v i' j' :
  i' <> i \/ j' <> j ->
  Engine.cell (Engine.setCell dp i j v) i' j' = Engine.cell dp i' j'.
Proof.
  intros Hne. unfold Engine.cell, Engine.setCell.
  destruct (decide (i' = i)) as [-> | Hi].
  - rewrite list_lookup_alter_eq.
    destruct (dp !! i) as [row |]; cbn; [| reflexivity].
    rewrite list_lookup_insert_ne; [reflexivity | intros ->; tauto].
  - rewrite list_lookup_alter_ne by congruence. reflexivity.
Qed.

(** Writing the right distance into a cell enlarges the region that
    agrees with the recurrence by that cell. *)
Lemma tableAgrees_setCell a b (K K' : nat -> nat -> Prop) dp i j :
  tableDims rows cols dp -> i < rows -> j < cols ->
  tableAgrees a b K dp ->
  (forall i' j', K' i' j' -> K i' j' \/ (i' = i /\ j' = j)) ->
  tableAgrees a b K' (Engine.setCell dp i j (editDistance a b i j)).
Proof.
  intros Hdims Hi Hj Hagree Hsub i' j' HK'.
  destruct (decide (i' = i /\ j' = j)) as [[-> ->] | Hne].
  - now apply cell_setCell_eq.
  - rewrite cell_setCell_ne by (destruct (decide (i' = i)); tauto).
    apply Hagree. destruct (Hsub _ _ HK'); tauto.
Qed.
End Table.

(** A loop [for (k = start; k < start + len; k++)] keeps an invariant
    that each of its rounds keeps. *)
Lemma foldl_seq_invariant {A} (P : nat -> A -> Prop) (f : A -> nat -> A) :
  forall len start x,
    P start x ->
    (forall k y, start <= k < start + len -> P k y -> P (S k) (f y k)) ->
    P (start + len) (foldl f x (seq start len)).
Proof.
  induction len as [| len IH]; intros start x Hx Hstep; cbn [seq foldl].
  - now rewrite Nat.add_0_r.
  - replace (start + S len) with (S start + len) by lia.
    apply IH.
    + apply Hstep; [lia | exact Hx].
    + intros k y Hk. apply Hstep. lia.
Qed.

(** The table computes the recurrence. *)
Lemma levenshtein_editDistance (a b : string) :
  Engine.levenshtein a b
  = editDistance a b (String.length a) (String.length b).
Proof.
  unfold Engine.levenshtein; cbv zeta.
  set (m := String.length a). set (n := String.length b).
  set (Inv := fun (K : nat -> nat -> Prop) (dp : Engine.Table) =>
                tableDims (m + 1) (n + 1) dp /\ tableAgrees a b K dp).
  (* the table of zeros *)
  set (dp0 := replicate (m + 1) (replicate (n + 1) 0)).
  assert (H0 : Inv (fun i j => False) dp0).
  { split; [split |].
    - apply length_replicate.
    - apply Forall_replicate, length_replicate.
    - intros i j []. }
  (* the first column *)
  set (dp1 := foldl _ dp0 (seq 0 (m + 1))).
  assert (H1 : Inv (fun i j => j = 0 /\ i < m + 1) dp1).
  { refine (foldl_seq_invariant
              (fun k dp => Inv (fun i j => j = 0 /\ i < k) dp)
              _ (m + 1) 0 dp0 _ _).
    - destruct H0 as [Hd _]. split; [exact Hd |]. intros i j [_ Hi]. lia.
    - intros k dp Hk [Hd Ha]. split; [now apply tableDims_setCell |].
      replace (Engine.setCell dp k 0 k)
        with (Engine.setCell dp k 0 (editDistance a b k 0))
        by now rewrite editDistance_0_r.
      eapply tableAgrees_setCell; [exact Hd | lia | lia | exact Ha |].
      intros i' j' [-> Hi']. destruct (decide (i' = k)); [right | left]; lia. }
  (* the first row *)
  set (dp2 := foldl _ dp1 (seq 0 (n + 1))).
  assert (H2 : Inv (fun i j => (i <= m /\ j <= n) /\ (i = 0 \/ j = 0)) dp2).
  { assert (H : Inv (fun i j => (j = 0 /\ i < m + 1) \/ (i = 0 /\ j < 0 + (n + 1)))
                    dp2).
    { refine (foldl_seq_invariant
                (fun k dp => Inv (fun i j => (j = 0 /\ i < m + 1)
                                             \/ (i = 0 /\ j < k)) dp)
                _ (n + 1) 0 dp1 _ _).
      - destruct H1 as [Hd Ha]. split; [exact Hd |].
        intros i j [Hij | [_ Hj]]; [now apply Ha | lia].
      - intros k dp Hk [Hd Ha]. split; [now apply tableDims_setCell |].
        change (Engine.setCell dp 0 k k)
          with (Engine.setCell dp 0 k (editDistance a b 0 k)).
        eapply tableAgrees_setCell; [exact Hd | lia | lia | exact Ha |].
        intros i' j' [Hij | [-> Hj']]; [left; now left |].
        destruct (decide (j' = k)); [right | left; right]; lia. }
    destruct H as [Hd Ha]. split; [exact Hd |].
    intros i j [[Hi Hj] Hij]. apply Ha. lia. }
  (* the rows 1 to m *)
  set (dp3 := foldl _ dp2 (seq 1 m)).
  assert (H3 : Inv (fun i j => (i <= m /\ j <= n)
                               /\ (i < 1 + m \/ j = 0)) dp3).
  { refine (foldl_seq_invariant
              (fun k dp => Inv (fun i j => (i <= m /\ j <= n)
                                           /\ (i < k \/ j = 0)) dp)
              _ m 1 dp2 _ _).
    - destruct H2 as [Hd Ha]. split; [exact Hd |].
      intros i j [Hb Hij]. apply Ha. split; [exact Hb | lia].
    - intros i dp Hi HI.
      assert (H : Inv (fun i' j' => (i' <= m /\ j' <= n)
                                    /\ (i' < i \/ j' = 0
                                        \/ (i' = i /\ j' < 1 + n)))
                      (foldl (fun dp j =>
                                Engine.setCell dp i j
                                  (min3 (Engine.cell dp (i - 1) j + 1)
                                        (Engine.cell dp i (j - 1) + 1)
                                        (Engine.cell dp (i - 1) (j - 1)
                                         + (if bool_decide
                                                 (Engine.charAt a (i - 1)
                                                  = Engine.charAt b (j - 1))
                                            then 0 else 1))))
                             dp (seq 1 n))).
      { refine (foldl_seq_invariant
                  (fun k dp => Inv (fun i' j' => (i' <= m /\ j' <= n)
                                                 /\ (i' < i \/ j' = 0
                                                     \/ (i' = i /\ j' < k))) dp)
                  _ n 1 dp _ _).
        - destruct HI as [Hd Ha]. split; [exact Hd |].
          intros i' j' [Hb Hij]. apply Ha. split; [exact Hb | lia].
        - intros j dp' Hj [Hd Ha]. split; [now apply tableDims_setCell |].
          destruct i as [| i']; [lia |]. destruct j as [| j']; [lia |].
          replace (S i' - 1) with i' by lia. replace (S j' - 1) with j' by lia.
          rewrite (Ha i' (S j')), (Ha (S i') j'), (Ha i' j') by lia.
          fold (substCost a b i' j'). rewrite <- editDistance_S.
          eapply tableAgrees_setCell; [exact Hd | lia | lia | exact Ha |].
          intros i'' j'' [Hb Hij].
          destruct (decide (i'' = S i' /\ j'' = S j')); [right | left]; lia. }
      destruct H as [Hd Ha]. split; [exact Hd |].
      intros i' j' [Hb Hij]. apply Ha. split; [exact Hb | lia]. }
  destruct H3 as [_ Ha]. apply Ha. lia.
Qed.

Lemma levenshtein_sym (a b : string) :
  Engine.levenshtein a b = Engine.levenshtein b a.
Proof. rewrite !levenshtein_editDistance. apply editDistance_sym. Qed.

Lemma levenshtein_le_max (a b : string) :
  Engine.levenshtein a b <= Nat.max (String.length a) (String.length b).
Proof. rewrite levenshtein_editDistance. apply editDistance_le_max. Qed.

Lemma levenshtein_refl (a : string) : Engine.levenshtein a a = 0.
Proof. rewrite levenshtein_editDistance. apply editDistance_refl. Qed.

(** ** Cross-unit similarity *)

(** C6: the similarity of two texts does not depend on their order,
    under the length cap and for two empty normal forms as well. *)
Theorem textSimilarity_sym (a b : string) :
  Engine.textSimilarity a b = Engine.textSimilarity b a.
Proof.
  unfold Engine.textSimilarity; cbv zeta.
  rewrite (levenshtein_sym (Engine.normalizeForDuplication a)).
  rewrite (Nat.max_comm (String.length (Engine.normalizeForDuplication a))).
  rewrite (orb_comm (1000 <? String.length (Engine.normalizeForDuplication a))%nat).
  rewrite (andb_comm (String.length (Engine.normalizeForDuplication a) =? 0)%nat).
  reflexivity.
Qed.

Lemma ratio_bounds (d n : nat) :
  0 < n -> d <= n -> (0 <= natQ d / natQ n <= 1)%Q.
Proof.
  intros Hn Hd.
  assert (Hq : (0 < natQ n)%Q) by (now apply (natQ_lt 0 n)).
  split.
  - apply Qle_shift_div_l; [exact Hq |]. rewrite Qmult_0_l.
    apply (natQ_le 0 d). lia.
  - apply Qle_shift_div_r; [exact Hq |]. rewrite Qmult_1_l.
    now apply natQ_le.
Qed.

(** C9: the similarity of two texts lies between 0 and 1; outside the
    cap and the case of two empty normal forms, the distance of the
    normal forms is at most the longer length, which is positive. *)
Theorem textSimilarity_range (a b : string) :
  (0 <= Engine.textSimilarity a b <= 1)%Q
  /\ Engine.levenshtein (Engine.normalizeForDuplication a)
                        (Engine.normalizeForDuplication b)
     <= Nat.max (String.length (Engine.normalizeForDuplication a))
                (String.length (Engine.normalizeForDuplication b))
  /\ ((String.length (Engine.normalizeForDuplication a) =? 0)%nat
      && (String.length (Engine.normalizeForDuplication b) =? 0)%nat = true
      \/ 0 < Nat.max (String.length (Engine.normalizeForDuplication a))
                     (String.length (Engine.normalizeForDuplication b))).
Proof.
  set (na := Engine.normalizeForDuplication a).
  set (nb := Engine.normalizeForDuplication b).
  assert (Hpos : (String.length na =? 0)%nat && (String.length nb =? 0)%nat = true
                 \/ 0 < Nat.max (String.length na) (String.length nb)).
  { destruct (andb _ _) eqn:Hempty; [now left | right].
    apply andb_false_iff in Hempty as [H | H]; apply Nat.eqb_neq in H; lia. }
  split; [| split; [apply levenshtein_le_max | exact Hpos]].
  unfold Engine.textSimilarity; cbv zeta. fold na nb.
  destruct (_ || _); [lra |].
  destruct Hpos as [-> | Hpos]; [lra |].
  destruct (andb _ _); [lra |].
  pose proof (ratio_bounds _ _ Hpos (levenshtein_le_max na nb)) as [H0 H1].
  lra.
Qed.

(** *** The identifier pattern *)

Lemma isNameStart_isWord c : isNameStart c = true -> isWord c = true.
Proof.
  unfold isNameStart, isWord, isAlnum.
  destruct (isLetter c), (isDigit c), (isChar "_" c); cbn; congruence.
Qed.

Lemma skipWord_length prev s :
  String.length (skipWord prev s).2 <= String.length s.
Proof.
  revert prev. induction s as [| c s IH]; intros prev; cbn; [lia |].
  destruct (isWord c); cbn; [specialize (IH (Some c)) |]; lia.
Qed.

Lemma skipWord_wordAfter prev s : wordAfter (skipWord prev s) = false.
Proof.
  revert prev. induction s as [| c s IH]; intros prev; cbn; [reflexivity |].
  destruct (isWord c) eqn:E; [apply IH | unfold wordAfter; cbn; exact E].
Qed.

Lemma skipWord_wordBefore prev s :
  wordBefore (prev, s) = true -> wordBefore (skipWord prev s) = true.
Proof.
  revert prev. induction s as [| c s IH]; intros prev H; cbn; [exact H |].
  destruct (isWord c) eqn:E; [apply IH; unfold wordBefore; cbn; exact E | exact H].
Qed.

(** The equations of the matcher. *)
Lemma run_Seq ml r1 r2 p :
  run ml (Seq r1 r2) p = flat_map (run ml r2) (run ml r1 p).
Proof. reflexivity. Qed.

Lemma run_Chr ml f prev c s :
  run ml (Chr f) (prev, String c s) = if f c then [(Some c, s)] else [].
Proof. reflexivity. Qed.

Lemma run_Chr_end ml f prev : run ml (Chr f) (prev, EmptyString) = [].
Proof. reflexivity. Qed.

Lemma run_Star ml r p :
  run ml (Star r) p = star (run ml r) (String.length p.2) p.
Proof. reflexivity. Qed.

Lemma run_WordB ml p :
  run ml WordB p = if xorb (wordBefore p) (wordAfter p) then [p] else [].
Proof. reflexivity. Qed.

Lemma star_S step n p :
  star step (S n) p
  = (flat_map (star step n) (List.filter (advances p) (step p)) ++ [p])%list.
Proof. reflexivity. Qed.

(** A greedy [\w*] first tries the whole run of word characters. *)
Lemma star_word_head : forall n prev s,
  String.length s <= n ->
  exists rest,
    star (run false (Chr isWord)) n (prev, s) = skipWord prev s :: rest.
Proof.
  induction n as [| n IH]; intros prev s Hlen.
  - destruct s; [| cbn in Hlen; lia]. now exists [].
  - rewrite star_S. destruct s as [| c s]; cbn [skipWord].
    + rewrite run_Chr_end. now exists [].
    + rewrite run_Chr. destruct (isWord c) eqn:E; cbn [List.filter].
      * unfold advances at 1; cbn [snd String.length].
        rewrite (proj2 (Nat.ltb_lt _ _)) by lia. cbn [flat_map].
        destruct (IH (Some c) s) as [rest Hrest]; [cbn in Hlen; lia |].
        rewrite Hrest. cbn [app]. eauto.
      * now exists [].
Qed.

(** The pattern matches at a position exactly when a word that starts
    with a letter or an underscore begins there, and its first match
    is that whole word. *)
Lemma run_name prev c s :
  wordBefore (prev, String c s) = false -> isNameStart c = true ->
  exists rest,
    run false Engine.re_name (prev, String c s) = skipWord (Some c) s :: rest.
Proof.
  intros Hb Hc. pose proof (isNameStart_isWord c Hc) as Hw.
  unfold Engine.re_name; cbn [Engine.seqs].
  rewrite run_Seq, run_WordB, Hb.
  unfold wordAfter at 1; cbn [snd]; rewrite Hw; cbn [xorb flat_map].
  rewrite run_Seq, run_Chr, Hc; cbn [flat_map].
  rewrite run_Seq, run_Star; cbn [snd].
  destruct (star_word_head (String.length s) (Some c) s) as [rest Hrest]; [lia |].
  rewrite Hrest; cbn [flat_map].
  rewrite run_WordB, skipWord_wordAfter, skipWord_wordBefore
    by (unfold wordBefore; cbn; exact Hw).
  cbn [xorb app]. eauto.
Qed.

Lemma run_name_none prev s :
  (wordBefore (prev, s) = true
   \/ match s with String c _ => isNameStart c = false | EmptyString => True end) ->
  run false Engine.re_name (prev, s) = [].
Proof.
  intros H. unfold Engine.re_name; cbn [Engine.seqs].
  rewrite run_Seq, run_WordB.
  destruct (xorb (wordBefore (prev, s)) (wordAfter (prev, s))) eqn:Hx;
    [| reflexivity].
  cbn [flat_map]. rewrite run_Seq. destruct s as [| c s].
  - now rewrite run_Chr_end.
  - rewrite run_Chr. destruct (isNameStart c) eqn:Hc; [| reflexivity].
    destruct H as [H | H]; [| congruence].
    rewrite H in Hx. unfold wordAfter in Hx; cbn in Hx.
    rewrite (isNameStart_isWord c Hc) in Hx. discriminate.
Qed.

(** Past a word, the state of the skeleton no longer matters. *)
Lemma skeleton_after_word st st' p :
  wordAfter p = false -> skeleton st p.2 = skeleton st' p.2.
Proof.
  destruct p as [prev [| c s]]; unfold wordAfter; cbn; [reflexivity |].
  now intros ->.
Qed.

Lemma skeleton_skipWord prev s :
  skeleton InName s = skeleton InName (skipWord prev s).2.
Proof.
  revert prev. induction s as [| c s IH]; intros prev; cbn; [reflexivity |].
  destruct (isWord c) eqn:E; [apply IH | cbn; now rewrite E].
Qed.

Lemma replaceFrom_S fuel ml r rep prev s :
  replaceFrom (S fuel) ml r rep prev s
  = match run ml r (prev, s) with
    | q :: _ =>
        if advances (prev, s) q
        then rep +:+ replaceFrom fuel ml r rep q.1 q.2
        else match s with
             | EmptyString => rep
             | String c s' =>
                 rep +:+ String c (replaceFrom fuel ml r rep (Some c) s')
             end
    | [] =>
        match s with
        | EmptyString => EmptyString
        | String c s' => String c (replaceFrom fuel ml r rep (Some c) s')
        end
    end.
Proof. reflexivity. Qed.

Lemma stateAt_Some c :
  stateAt (Some c) = if isWord c then InNumber else Outside.
Proof. reflexivity. Qed.

(** Replacing every match of the identifier pattern by [id] writes out
    the skeleton of the text. *)
Lemma replaceFrom_name : forall fuel prev s,
  String.length s < fuel ->
  replaceFrom fuel false Engine.re_name "id" prev s
  = render (skeleton (stateAt prev) s).
Proof.
  induction fuel as [| fuel IH]; intros prev s Hlen; [lia |].
  rewrite replaceFrom_S. destruct s as [| c s].
  - rewrite run_name_none by (now right). reflexivity.
  - cbn [String.length] in Hlen.
    destruct (wordBefore (prev, String c s)) eqn:Hb.
    + rewrite run_name_none by (now left).
      rewrite IH by lia. rewrite stateAt_Some.
      unfold stateAt. change (wordBefore (prev, "")) with (wordBefore (prev, String c s)).
      rewrite Hb. cbn [skeleton]. now destruct (isWord c).
    + unfold stateAt. change (wordBefore (prev, "")) with (wordBefore (prev, String c s)).
      rewrite Hb. destruct (isNameStart c) eqn:Hc.
      * destruct (run_name prev c s Hb Hc) as [rest ->].
        pose proof (skipWord_length (Some c) s) as Hskip.
        unfold advances; cbn [snd String.length].
        rewrite (proj2 (Nat.ltb_lt _ _)) by lia.
        rewrite IH by lia.
        cbn [skeleton]. rewrite (isNameStart_isWord c Hc), Hc. cbn [render].
        rewrite (skeleton_skipWord (Some c) s).
        now rewrite (skeleton_after_word InName
                       (stateAt (skipWord (Some c) s).1) _
                       (skipWord_wordAfter (Some c) s)).
      * rewrite run_name_none by (now right).
        rewrite IH by lia. rewrite stateAt_Some.
        cbn [skeleton]. rewrite Hc. now destruct (isWord c).
Qed.

Lemma replaceAll_name (s : string) :
  replaceAll false Engine.re_name "id" s = render (skeleton Outside s).
Proof. unfold replaceAll. rewrite replaceFrom_name by lia. reflexivity. Qed.

(** Texts that differ in their ASCII names only have one normal form. *)
Lemma normalizeForDuplication_names (a b : string) :
  sameExceptAsciiNames a b ->
  Engine.normalizeForDuplication a = Engine.normalizeForDuplication b.
Proof.
  unfold sameExceptAsciiNames, Engine.normalizeForDuplication. intros H.
  now rewrite !replaceAll_name, H.
Qed.

(** C5, as stated, fails: a function named [$] and its copy named [f]
    are identical except for their identifier names, their normal
    forms [id $(){}] and [id id(){}] are far below the length cap, and
    their similarity is 7/9, not 1: the normal form keeps a [$]. *)
Lemma textSimilarity_names_counterexample :
  sameExceptIdentifiers textDollar textF
  /\ Engine.normalizeForDuplication textDollar = "id $(){}"
  /\ Engine.normalizeForDuplication textF = "id id(){}"
  /\ (Engine.textSimilarity textDollar textF == 7 # 9)%Q
  /\ ~ (Engine.textSimilarity textDollar textF == 1)%Q.
Proof.
  split; [reflexivity |]. split; [vm_compute; reflexivity |].
  split; [vm_compute; reflexivity |].
  assert (H : (Engine.textSimilarity textDollar textF == 7 # 9)%Q)
    by (vm_compute; reflexivity).
  split; [exact H |]. rewrite H. intros E. discriminate E.
Qed.

(** C5, amended: two texts that are identical except for their ASCII
    names (maximal runs of ASCII letters, digits and underscores that
    start with a letter or an underscore) have equal normal forms, at
    edit distance 0, and their similarity is exactly 1, unless the
    normal form is longer than 1000 characters, in which case the
    similarity is 0. *)
Theorem textSimilarity_names (a b : string) :
  sameExceptAsciiNames a b ->
  Engine.normalizeForDuplication a = Engine.normalizeForDuplication b
  /\ Engine.levenshtein (Engine.normalizeForDuplication a)
                        (Engine.normalizeForDuplication b) = 0
  /\ (Engine.textSimilarity a b
      == if (1000 <? String.length (Engine.normalizeForDuplication a))%nat
         then 0 else 1)%Q.
Proof.
  intros H. pose proof (normalizeForDuplication_names a b H) as Hn.
  split; [exact Hn |]. split; [rewrite Hn; apply levenshtein_refl |].
  unfold Engine.textSimilarity; cbv zeta. rewrite <- Hn, levenshtein_refl.
  rewrite orb_diag, andb_diag, Nat.max_id.
  destruct (1000 <? _)%nat; [reflexivity |].
  destruct (_ =? 0)%nat eqn:E; [reflexivity |].
  apply Nat.eqb_neq in E.
  assert (Hq : (0 < natQ (String.length (Engine.normalizeForDuplication a)))%Q)
    by (apply (natQ_lt 0); lia).
  change (natQ 0) with 0%Q. field. now apply Qnot_eq_sym, Qlt_not_eq.
Qed.

Lemma textSimilarity_names_witness :
  Engine.normalizeForDuplication textFoo = Engine.normalizeForDuplication textBar
  /\ Engine.levenshtein (Engine.normalizeForDuplication textFoo)
                        (Engine.normalizeForDuplication textBar) = 0
  /\ (Engine.textSimilarity textFoo textBar
      == if (1000 <? String.length (Engine.normalizeForDuplication textFoo))%nat
         then 0 else 1)%Q.
Proof. apply (textSimilarity_names textFoo textBar). vm_compute. reflexivity. Defined.

(** ** Dependency graph *)

Lemma JsMap_set_In (m : JsMap.t) k v entry :
  In entry (JsMap.set m k v) -> entry = (k, v) \/ In entry m.
Proof.
  induction m as [| [k' v'] m IH]; cbn.
  - intros [<- | []]. now left.
  - destruct (String.eqb k' k); cbn.
    + intros [<- | H]; [now left | right; now right].
    + intros [<- | H]; [right; now left |].
      destruct (IH H) as [-> | H']; [now left | right; now right].
Qed.

Lemma JsMap_get_In (m : JsMap.t) k v : JsMap.get m k = Some v -> In (k, v) m.
Proof.
  induction m as [| [k' v'] m IH]; cbn; [discriminate |].
  destruct (String.eqb k' k) eqn:E.
  - apply String.eqb_eq in E. subst k'. intros [= ->]. now left.
  - intros H. right. now apply IH.
Qed.

(** Each dependency is the name of a unit, differs from the name it is
    listed under, and occurs in the text. *)
Lemma referencedNames_In units name text : forall dep,
  In dep (Engine.referencedNames units name text) ->
  dep <> name
  /\ (exists unit, In unit units /\ hasName unit dep)
  /\ includes text dep = true.
Proof.
  unfold Engine.referencedNames.
  assert (H : forall (us : list CodeUnit) (deps : list string) (dep : string),
             In dep
                (foldl (fun deps otherUnit =>
                          match getName otherUnit with
                          | Some (String c s) =>
                              let otherName := String c s in
                              if negb (String.eqb otherName name)
                                 && includes text otherName
                              then push deps otherName else deps
                          | _ => deps
                          end) deps us) ->
             In dep deps
             \/ (dep <> name
                 /\ (exists unit, In unit us /\ hasName unit dep)
                 /\ includes text dep = true)).
  { induction us as [| u us IH]; intros deps dep Hin; cbn [foldl] in Hin;
      [now left |].
    destruct (IH _ _ Hin) as [Hd | (Hne & (w & Hw & Hn) & Hi)].
    - destruct (getName u) as [[| c s] |] eqn:Hu; try (now left).
      cbv zeta in Hd.
      destruct (negb (String c s =? name)%string && includes text (String c s))
        eqn:Hc; [| now left].
      unfold push in Hd. apply in_app_or in Hd as [Hd | [<- | []]]; [now left |].
      right. apply andb_true_iff in Hc as [Hne Hi].
      apply negb_true_iff, String.eqb_neq in Hne.
      split; [exact Hne |]. split; [| exact Hi].
      exists u. split; [now left |]. split; [exact Hu | discriminate].
    - right. split; [exact Hne |]. split; [| exact Hi].
      exists w. split; [now right | exact Hn]. }
  intros dep Hin. destruct (H _ _ _ Hin) as [[] | Hd]. exact Hd.
Qed.

(** Each entry of the graph is the key of a unit with the names that
    unit references. *)
Lemma buildDependencyGraph_In units : forall entry,
  In entry (Engine.buildDependencyGraph units) ->
  exists unit,
    In unit units
    /\ entry = (Engine.unitKey unit,
                Engine.referencedNames units (Engine.unitKey unit) (getText unit)).
Proof.
  unfold Engine.buildDependencyGraph.
  assert (H : forall (us : list CodeUnit) (graph : JsMap.t) entry,
             In entry
                (foldl (fun graph unit =>
                          let name := Engine.unitKey unit in
                          let text := getText unit in
                          JsMap.set graph name
                            (Engine.referencedNames units name text))
                       graph us) ->
             In entry graph
             \/ exists unit,
                  In unit us
                  /\ entry = (Engine.unitKey unit,
                              Engine.referencedNames units (Engine.unitKey unit)
                                (getText unit))).
  { induction us as [| u us IH]; intros graph entry Hin; cbn [foldl] in Hin;
      [now left |].
    destruct (IH _ _ Hin) as [Hg | (w & Hw & He)].
    - apply JsMap_set_In in Hg as [-> | Hg]; [| now left].
      right. exists u. split; [now left | reflexivity].
    - right. exists w. split; [now right | exact He]. }
  intros entry Hin. destruct (H _ _ _ Hin) as [[] | Hd]. exact Hd.
Qed.

Lemma edgeTargets_In graph x :
  In x (edgeTargets graph) <-> exists key deps, In (key, deps) graph /\ In x deps.
Proof.
  unfold edgeTargets. rewrite in_concat.
  split.
  - intros (deps & Hd & Hx). apply in_map_iff in Hd as ([key deps'] & <- & He).
    now exists key, deps'.
  - intros (key & deps & He & Hx). exists deps. split; [| exact Hx].
    apply in_map_iff. now exists (key, deps).
Qed.

(** Every edge of the graph leads to the name of a unit. *)
Lemma buildDependencyGraph_targets units x :
  In x (edgeTargets (Engine.buildDependencyGraph units)) ->
  exists unit, In unit units /\ hasName unit x.
Proof.
  intros H. apply edgeTargets_In in H as (key & deps & He & Hx).
  apply buildDependencyGraph_In in He as (u & _ & [= -> ->]).
  now apply referencedNames_In in Hx as (_ & Hu & _).
Qed.

(** ** Cycle detector *)

Lemma In_drop {A} (l : list A) : forall k y, In y (drop k l) -> In y l.
Proof.
  induction l as [| h t IH]; intros [| k] y H; cbn in *; try tauto.
  right. now apply (IH k).
Qed.

(** The slice of the path that is reported starts at the name that
    was met again and otherwise holds names behind the first. *)
Lemma slice_indexOf (l : list string) x :
  In x l ->
  forall y, In y (slice (indexOf l x) l) -> y = x \/ In y (tail l).
Proof.
  intros Hx.
  assert (H : exists k, indexOf l x = Z.of_nat k
                        /\ forall y, In y (drop k l) -> y = x \/ In y (tail l)).
  { induction l as [| h t IH]; [destruct Hx |]. cbn [indexOf].
    destruct (String.eqb h x) eqn:E.
    - apply String.eqb_eq in E. subst h. exists 0. split; [reflexivity |].
      cbn. intros y [<- | Hy]; tauto.
    - destruct Hx as [-> | Hx]; [now rewrite String.eqb_refl in E |].
      destruct (IH Hx) as (k & Hk & _). exists (S k). rewrite Hk.
      rewrite (proj2 (Z.ltb_ge _ _)) by lia. split; [lia |].
      cbn. intros y Hy. right. now apply In_drop in Hy. }
  destruct H as (k & Hk & Hdrop). intros y. unfold slice. rewrite Hk.
  rewrite (proj2 (Z.ltb_ge _ _)) by lia. rewrite Nat2Z.id. apply Hdrop.
Qed.

Lemma dfs_S fuel graph node st :
  Engine.dfs (S fuel) graph node st
  = if bool_decide (node ∈ Engine.recStack st) then
      Some {| Engine.cycles :=
                push (Engine.cycles st)
                     (slice (indexOf (Engine.path st) node) (Engine.path st));
              Engine.visited := Engine.visited st;
              Engine.recStack := Engine.recStack st;
              Engine.path := Engine.path st |}
    else if bool_decide (node ∈ Engine.visited st) then Some st
    else
      match foldl (fun acc neighbor => acc ≫= Engine.dfs fuel graph neighbor)
                  (Some {| Engine.cycles := Engine.cycles st;
                           Engine.visited := {[node]} ∪ Engine.visited st;
                           Engine.recStack := {[node]} ∪ Engine.recStack st;
                           Engine.path := push (Engine.path st) node |})
                  (default [] (JsMap.get graph node)) with
      | Some st2 =>
          Some {| Engine.cycles := Engine.cycles st2;
                  Engine.visited := Engine.visited st2;
                  Engine.recStack := Engine.recStack st2 ∖ {[node]};
                  Engine.path := removelast (Engine.path st2) |}
      | None => None
      end.
Proof. reflexivity. Qed.

Lemma foldl_bind_None {S A} (f : A -> S -> option S) (l : list A) :
  foldl (fun acc x => acc ≫= f x) None l = None.
Proof. induction l as [| x l IH]; [reflexivity | exact IH]. Qed.

(** A loop of calls that may fail keeps what each call keeps. *)
Lemma foldl_bind_invariant {S A} (f : A -> S -> option S) (P : S -> Prop)
    (l : list A) :
  (forall x s s', In x l -> f x s = Some s' -> P s -> P s') ->
  forall s s', foldl (fun acc x => acc ≫= f x) (Some s) l = Some s' ->
               P s -> P s'.
Proof.
  induction l as [| x l IH]; intros Hstep s s' Hfold Hs; cbn [foldl] in Hfold.
  - now injection Hfold as <-.
  - cbn [mbind option_bind] in Hfold. destruct (f x s) as [s1 |] eqn:E.
    + apply (IH (fun y t t' Hy => Hstep y t t' (or_intror Hy)) s1 s' Hfold).
      apply (Hstep x s s1); [now left | exact E | exact Hs].
    + now rewrite foldl_bind_None in Hfold.
Qed.

Lemma neighbors_targets graph node x :
  In x (default [] (JsMap.get graph node)) -> In x (edgeTargets graph).
Proof.
  destruct (JsMap.get graph node) as [deps |] eqn:E; cbn; [| tauto].
  intros Hx. apply edgeTargets_In. exists node, deps.
  split; [now apply JsMap_get_In | exact Hx].
Qed.

(** A call of [dfs] keeps the invariant and hands the path and the
    recursion stack back as it found them. *)
Lemma dfs_invariant graph : forall fuel node st st',
  Engine.dfs fuel graph node st = Some st' ->
  dfsInvariant graph st ->
  In node (edgeTargets graph) \/ Engine.path st = [] ->
  dfsInvariant graph st'
  /\ Engine.path st' = Engine.path st
  /\ Engine.recStack st' = Engine.recStack st.
Proof.
  induction fuel as [| fuel IH]; intros node st st' Hdfs Hinv Hnode;
    [discriminate |].
  rewrite dfs_S in Hdfs. destruct Hinv as (Hstack & Htail & Hcycles).
  destruct (bool_decide (node ∈ Engine.recStack st)) eqn:Hrec.
  - (* a name on the recursion stack: one more cycle *)
    injection Hdfs as <-. cbn. split; [| split; reflexivity].
    apply bool_decide_eq_true_1, Hstack in Hrec.
    assert (Hn : In node (edgeTargets graph)).
    { destruct Hnode as [H | H]; [exact H | rewrite H in Hrec; destruct Hrec]. }
    split; [exact Hstack |]. split; [exact Htail |]. cbn.
    intros cycle x Hc Hx. unfold push in Hc.
    apply in_app_or in Hc as [Hc | [<- | []]]; [now apply (Hcycles cycle) |].
    destruct (slice_indexOf _ _ Hrec _ Hx) as [-> | Hy]; [exact Hn | now apply Htail].
  - destruct (bool_decide (node ∈ Engine.visited st)); [now injection Hdfs as <- |].
    apply bool_decide_eq_false_1 in Hrec.
    match type of Hdfs with
    | match foldl _ (Some ?s) _ with _ => _ end = _ => set (st1 := s) in *
    end.
    destruct (foldl _ (Some st1) _) as [st2 |] eqn:Hfold; [| discriminate].
    injection Hdfs as <-.
    assert (H1 : dfsInvariant graph st1).
    { split; [| split]; cbn.
      - intros x. unfold push. rewrite in_app_iff, elem_of_union,
          elem_of_singleton, Hstack. cbn. intuition congruence.
      - intros x Hx. destruct (Engine.path st) as [| h t] eqn:Hp; [destruct Hx |].
        cbn in Hx. apply in_app_or in Hx as [Hx | [<- | []]].
        + apply Htail. exact Hx.
        + destruct Hnode as [H | H]; [exact H | discriminate H].
      - exact Hcycles. }
    assert (H2 : dfsInvariant graph st2
                 /\ Engine.path st2 = Engine.path st1
                 /\ Engine.recStack st2 = Engine.recStack st1).
    { apply (foldl_bind_invariant (Engine.dfs fuel graph)
               (fun s => dfsInvariant graph s
                         /\ Engine.path s = Engine.path st1
                         /\ Engine.recStack s = Engine.recStack st1)
               _ (fun x s s' Hx Hs Ps =>
                    let 'conj Pi (conj Pp Pr) := Ps in
                    let 'conj Qi (conj Qp Qr) :=
                      IH x s s' Hs Pi (or_introl (neighbors_targets _ _ _ Hx)) in
                    conj Qi (conj (eq_trans Qp Pp) (eq_trans Qr Pr)))
               st1 st2 Hfold).
      now split. }
    destruct H2 as ((Hstack2 & Htail2 & Hcycles2) & Hp2 & Hr2).
    assert (Hp : removelast (Engine.path st2) = Engine.path st)
      by (rewrite Hp2; cbn; unfold push; apply removelast_last).
    assert (Hr : Engine.recStack st2 ∖ {[node]} = Engine.recStack st).
    { rewrite Hr2; cbn. apply set_eq. intros x.
      rewrite elem_of_difference, elem_of_union, elem_of_singleton. split.
      - intros [[Hx | Hx] Hn]; [contradiction | exact Hx].
      - intros Hx. split; [now right | intros ->; contradiction]. }
    cbn. split; [| split; [exact Hp | exact Hr]].
    split; [| split]; cbn; rewrite ?Hp, ?Hr; assumption.
Qed.

(** Every name of every reported cycle is an edge target. *)
Lemma detectCycles_targets graph cycle x :
  In cycle (Engine.detectCycles graph) -> In x cycle ->
  In x (edgeTargets graph).
Proof.
  unfold Engine.detectCycles, Engine.dfsRoots.
  destruct (foldl _ _ _) as [st |] eqn:Hfold; [| intros []].
  pose (P := fun s : Engine.DfsState =>
               Engine.recStack s = ∅
               /\ forall c y, In c (Engine.cycles s) -> In y c ->
                              In y (edgeTargets graph)).
  assert (HP : P st).
  { refine (foldl_bind_invariant
              (fun node s =>
                 if bool_decide (node ∈ Engine.visited s) then Some s
                 else Engine.dfs (S (length (Engine.nodes graph))) graph node
                        {| Engine.cycles := Engine.cycles s;
                           Engine.visited := Engine.visited s;
                           Engine.recStack := Engine.recStack s;
                           Engine.path := [] |})
              P (JsMap.keys graph) _ _ st Hfold _).
    - intros node s s' _ Hstep [Hempty Hcycles].
      destruct (bool_decide (node ∈ Engine.visited s));
        [injection Hstep as <-; now split |].
      apply dfs_invariant in Hstep as ((_ & _ & Hc) & _ & Hr).
      + split; [now rewrite Hr | exact Hc].
      + split; [| split]; cbn; [| intros y [] | exact Hcycles].
        intros y. rewrite Hempty. split; [| intros []].
        intros Hy. now apply not_elem_of_empty in Hy.
      + now right.
    - split; [reflexivity | intros c y []]. }
  destruct HP as [_ Hcycles]. apply Hcycles.
Qed.

(** *** The traversal ends within its fuel *)

Lemma nodeSet_target graph x : In x (edgeTargets graph) -> x ∈ nodeSet graph.
Proof.
  intros H. unfold nodeSet, Engine.nodes.
  apply elem_of_list_to_set, list_elem_of_In, in_or_app. now right.
Qed.

Lemma nodeSet_key graph x : In x (JsMap.keys graph) -> x ∈ nodeSet graph.
Proof.
  intros H. unfold nodeSet, Engine.nodes.
  apply elem_of_list_to_set, list_elem_of_In, in_or_app. now left.
Qed.

Lemma nodeSet_size graph (V : gset string) :
  size (nodeSet graph ∖ V) <= length (Engine.nodes graph).
Proof.
  transitivity (size (nodeSet graph)).
  - apply subseteq_size. intros x. rewrite elem_of_difference. tauto.
  - unfold nodeSet. rewrite size_list_to_set_distinct. apply distinctCount_le.
Qed.

(** With more fuel than names left to visit, [dfs] returns, and it
    only adds to the visited names. *)
Lemma dfs_total graph : forall fuel node st,
  node ∈ nodeSet graph ->
  size (nodeSet graph ∖ Engine.visited st) < fuel ->
  exists st', Engine.dfs fuel graph node st = Some st'
              /\ Engine.visited st ⊆ Engine.visited st'.
Proof.
  induction fuel as [| fuel IH]; intros node st Hnode Hsize; [lia |].
  rewrite dfs_S.
  destruct (bool_decide (node ∈ Engine.recStack st)); [now eexists |].
  destruct (bool_decide (node ∈ Engine.visited st)) eqn:Hvis; [now eexists |].
  apply bool_decide_eq_false_1 in Hvis.
  match goal with
  | |- context [foldl _ (Some ?s) _] => set (st1 := s)
  end.
  assert (Hsub1 : Engine.visited st ⊆ Engine.visited st1)
    by (intros x Hx; cbn; apply elem_of_union; now right).
  assert (Hsize1 : size (nodeSet graph ∖ Engine.visited st1) < fuel).
  { assert (nodeSet graph ∖ Engine.visited st1
            ⊂ nodeSet graph ∖ Engine.visited st) as Hlt.
    { split.
      - intros x. rewrite !elem_of_difference. intros [Hx Hn].
        split; [exact Hx | intros Hv; apply Hn, Hsub1, Hv].
      - intros Hsub. specialize (Hsub node).
        rewrite !elem_of_difference in Hsub. cbn in Hsub.
        destruct Hsub as [_ Hn]; [now split |].
        apply Hn, elem_of_union. left. now apply elem_of_singleton. }
    apply subset_size in Hlt. lia. }
  assert (Hloop : forall l s,
             (forall x, In x l -> x ∈ nodeSet graph) ->
             size (nodeSet graph ∖ Engine.visited s) < fuel ->
             exists s', foldl (fun acc neighbor =>
                                 acc ≫= Engine.dfs fuel graph neighbor)
                              (Some s) l = Some s'
                        /\ Engine.visited s ⊆ Engine.visited s').
  { induction l as [| x l IHl]; intros s Hl Hs; cbn [foldl]; [now eexists |].
    destruct (IH x s (Hl x (or_introl eq_refl)) Hs) as (s1 & Hx & Hsub).
    cbn [mbind option_bind]. rewrite Hx.
    destruct (IHl s1 (fun y Hy => Hl y (or_intror Hy))) as (s' & Hs' & Hsub').
    - eapply Nat.le_lt_trans; [| exact Hs]. apply subseteq_size.
      intros y. rewrite !elem_of_difference. intros [Hy Hn].
      split; [exact Hy | intros Hv; apply Hn, Hsub, Hv].
    - exists s'. split; [exact Hs' | now transitivity (Engine.visited s1)]. }
  destruct (Hloop (default [] (JsMap.get graph node)) st1) as (st2 & -> & Hsub2).
  - intros x Hx. now apply nodeSet_target, (neighbors_targets graph node).
  - exact Hsize1.
  - eexists. split; [reflexivity |]. cbn. now transitivity (Engine.visited st1).
Qed.

(** The fuel [detectCycles] hands to the traversal is never used up. *)
Lemma dfsRoots_total graph :
  is_Some (Engine.dfsRoots (S (length (Engine.nodes graph))) graph).
Proof.
  unfold Engine.dfsRoots.
  assert (H : forall l s,
             (forall x, In x l -> x ∈ nodeSet graph) ->
             is_Some
               (foldl (fun acc node =>
                         acc ≫= fun st =>
                           if bool_decide (node ∈ Engine.visited st) then Some st
                           else Engine.dfs (S (length (Engine.nodes graph)))
                                  graph node
                                  {| Engine.cycles := Engine.cycles st;
                                     Engine.visited := Engine.visited st;
                                     Engine.recStack := Engine.recStack st;
                                     Engine.path := [] |})
                      (Some s) l)).
  { induction l as [| x l IHl]; intros s Hl; cbn [foldl]; [now eexists |].
    cbn [mbind option_bind].
    destruct (bool_decide (x ∈ Engine.visited s));
      [apply IHl; intros y Hy; apply Hl; now right |].
    edestruct (dfs_total graph (S (length (Engine.nodes graph))) x) as (s' & -> & _);
      [apply Hl; now left | | apply IHl; intros y Hy; apply Hl; now right].
    cbn. pose proof (nodeSet_size graph (Engine.visited s)). lia. }
  apply H. intros x. apply nodeSet_key.
Qed.

(** C10, as stated, fails in its second half: a unit named [anonymous]
    shares its key with the unit that has no name, so that key is an
    edge target, the graph keeps the dependencies of the nameless unit
    under it, and the reported cycle runs through them. *)
Lemma nameless_cycle_counterexample :
  In unitDefault unitsAnonymous
  /\ nameless unitDefault
  /\ JsMap.get (Engine.buildDependencyGraph unitsAnonymous)
               (Engine.unitKey unitDefault)
     = Some (Engine.referencedNames unitsAnonymous
               (Engine.unitKey unitDefault) (getText unitDefault))
  /\ In (Engine.unitKey unitDefault)
        (edgeTargets (Engine.buildDependencyGraph unitsAnonymous))
  /\ Engine.detectCycles (Engine.buildDependencyGraph unitsAnonymous)
     = [[Engine.unitKey unitDefault; "foo"]].
Proof.
  split; [right; left; reflexivity |]. split; [reflexivity |].
  split; [vm_compute; reflexivity |].
  split; [vm_compute; tauto | vm_compute; reflexivity].
Qed.

(** C10, amended: every name in a dependency list of the graph is the
    extractable name of some unit of the list and differs from the key
    it is listed under, and every name on a reported cycle is the
    extractable name of some unit; when no unit is itself named
    [anonymous], the key of the nameless units is the target of no edge
    and lies on no reported cycle. *)
Theorem buildDependencyGraph_invariant (units : list CodeUnit) :
  (forall key deps dep,
      In (key, deps) (Engine.buildDependencyGraph units) -> In dep deps ->
      dep <> key /\ exists unit, In unit units /\ hasName unit dep)
  /\ (forall cycle node,
        In cycle (Engine.detectCycles (Engine.buildDependencyGraph units)) ->
        In node cycle ->
        exists unit, In unit units /\ hasName unit node)
  /\ ((forall unit, In unit units -> getName unit <> Some "anonymous") ->
      ~ In "anonymous" (edgeTargets (Engine.buildDependencyGraph units))
      /\ forall cycle,
           In cycle (Engine.detectCycles (Engine.buildDependencyGraph units)) ->
           ~ In "anonymous" cycle).
Proof.
  assert (Hcycle : forall cycle node,
             In cycle (Engine.detectCycles (Engine.buildDependencyGraph units)) ->
             In node cycle ->
             exists unit, In unit units /\ hasName unit node).
  { intros cycle node Hc Hn.
    eapply buildDependencyGraph_targets, detectCycles_targets; eassumption. }
  split; [| split; [exact Hcycle |]].
  - intros key deps dep He Hd.
    apply buildDependencyGraph_In in He as (u & _ & [= -> ->]).
    apply referencedNames_In in Hd as (Hne & Hu & _). now split.
  - intros Hnone. split.
    + intros H. apply buildDependencyGraph_targets in H as (u & Hu & Hn & _).
      exact (Hnone u Hu Hn).
    + intros cycle Hc H. destruct (Hcycle _ _ Hc H) as (u & Hu & Hn & _).
      exact (Hnone u Hu Hn).
Qed.

Lemma buildDependencyGraph_invariant_witness :
  ~ In "anonymous" (edgeTargets (Engine.buildDependencyGraph [unitFoo; unitBar]))
  /\ forall cycle,
       In cycle (Engine.detectCycles
                   (Engine.buildDependencyGraph [unitFoo; unitBar])) ->
       ~ In "anonymous" cycle.
Proof.
  apply (buildDependencyGraph_invariant [unitFoo; unitBar]).
  intros unit [<- | [<- | []]]; discriminate.
Defined.

(** ** The cycle of two functions that reference each other *)

(** C1, as stated, fails: the finding lists the path up to the name
    that was met again, without repeating that name; no message holds
    [foo -> bar -> foo] or [bar -> foo -> bar]. *)
Lemma foo_bar_cycle_counterexample :
  (getClasses documentFooBar = []
   /\ getFunctions documentFooBar = [unitFoo; unitBar]
   /\ getName unitFoo = Some "foo" /\ getName unitBar = Some "bar"
   /\ includes (getText unitFoo) "bar" = true
   /\ includes (getText unitBar) "foo" = true)
  /\ ~ exists d,
         In d (Engine.analyzeDocument Warning documentFooBar)
         /\ (includes (message d) "foo -> bar -> foo" = true
             \/ includes (message d) "bar -> foo -> bar" = true).
Proof.
  split; [repeat split |].
  intros (d & Hd & Hm). vm_compute in Hd.
  repeat (destruct Hd as [<- | Hd];
          [vm_compute in Hm; destruct Hm; discriminate |]).
  destruct Hd.
Qed.

(** C1, amended: for a document whose only units are two named
    top-level functions [foo] and [bar] (no class and no other
    function, named or not), each holding the name of the other in its
    text, the cycle detector reports one cycle, the path from the first
    function to the second, and the analysis emits a dependency-cycle
    finding whose message gives it as [foo -> bar] (as [bar -> foo]
    when [bar] is the first function). *)
Theorem foo_bar_cycle sev document f g x y :
  (x = "foo" /\ y = "bar") \/ (x = "bar" /\ y = "foo") ->
  getClasses document = [] ->
  getFunctions document = [f; g] ->
  getName f = Some x ->
  getName g = Some y ->
  includes (getText f) y = true ->
  includes (getText g) x = true ->
  Engine.detectCycles (Engine.buildDependencyGraph [f; g]) = [[x; y]]
  /\ In (Engine.mkDiagnostic (0, String.length (documentText document))
           ("Dependency cycle detected: " +:+ x +:+ " -> " +:+ y
            +:+ ". Refactor to break loops.")
           sev "clean-code-assistant.dependency-cycle")
        (Engine.analyzeDocument sev document).
Proof.
  intros Hxy Hclasses Hfunctions Hf Hg Hfy Hgx.
  assert (Hgraph : Engine.buildDependencyGraph [f; g] = [(x, [y]); (y, [x])]).
  { unfold Engine.buildDependencyGraph, Engine.referencedNames, Engine.unitKey.
    cbn [foldl]. rewrite Hf, Hg.
    destruct Hxy as [[-> ->] | [-> ->]]; cbn [orElse];
      cbn [String.eqb Ascii.eqb Bool.eqb negb andb]; rewrite Hfy, Hgx;
      reflexivity. }
  assert (Hcycles : Engine.detectCycles (Engine.buildDependencyGraph [f; g])
                    = [[x; y]]).
  { rewrite Hgraph. destruct Hxy as [[-> ->] | [-> ->]]; vm_compute; reflexivity. }
  split; [exact Hcycles |].
  rewrite analyzeDocument_parts, Hclasses, Hfunctions. cbn [app].
  rewrite Hcycles. apply in_or_app. right. apply in_or_app. left.
  left. unfold cycleFinding. cbn [join].
  destruct Hxy as [[-> ->] | [-> ->]]; reflexivity.
Qed.

Lemma foo_bar_cycle_witness :
  Engine.detectCycles (Engine.buildDependencyGraph [unitFoo; unitBar])
  = [["foo"; "bar"]]
  /\ In (Engine.mkDiagnostic (0, String.length (documentText documentFooBar))
           ("Dependency cycle detected: " +:+ "foo" +:+ " -> " +:+ "bar"
            +:+ ". Refactor to break loops.")
           Warning "clean-code-assistant.dependency-cycle")
        (Engine.analyzeDocument Warning documentFooBar).
Proof.
  apply (foo_bar_cycle Warning documentFooBar unitFoo unitBar "foo" "bar");
    first [reflexivity | left; split; reflexivity].
Defined.

(** The document must hold no other unit: with a class ahead that
    names [bar], the document still has [foo] and [bar] as its two
    functions, [foo] first, and the one cycle is reported from [bar]. *)
Example foo_bar_cycle_class_ahead :
  map getName (getFunctions documentKFooBar) = [Some "foo"; Some "bar"]
  /\ Engine.detectCycles
       (Engine.buildDependencyGraph
          (getClasses documentKFooBar ++ getFunctions documentKFooBar))
     = [["bar"; "foo"]]
  /\ map message
         (List.filter
            (fun d => String.eqb (code d) "clean-code-assistant.dependency-cycle")
            (Engine.analyzeDocument Warning documentKFooBar))
     = ["Dependency cycle detected: bar -> foo. Refactor to break loops."].
Proof. vm_compute. repeat split. Qed.

(** ** The engine on the inputs of the test suite *)

(** The service that saves and sends mail handles two concerns. *)
Example identifyResponsibilities_UserService :
  Engine.identifyResponsibilities unitUserService = ["data"; "communication"].
Proof. vm_compute. reflexivity. Qed.

(** The two counter functions are similar beyond 0.6, have side effects
    and are not testable. *)
Example counter_functions :
  Engine.textSimilarity textIncrement textAdd = (47 # 50)%Q
  /\ Qltb (6 # 10) (Engine.textSimilarity textIncrement textAdd) = true
  /\ Engine.hasSideEffects unitIncrement = true
  /\ Engine.hasSideEffects unitAdd = true
  /\ Engine.isTestable unitIncrement = false
  /\ Engine.isTestable unitAdd = false.
Proof. vm_compute. repeat split. Qed.

(** Three units that reference each other in a ring give one cycle, in
    traversal order. *)
Example detectCycles_ring :
  Engine.detectCycles [("A", ["B"]); ("B", ["C"]); ("C", ["A"])]
  = [["A"; "B"; "C"]].
Proof. vm_compute. reflexivity. Qed.

(** * Further properties of the engine *)

(** ** The edit distance is a metric *)

Lemma min3_cases x y z : min3 x y z = x \/ min3 x y z = y \/ min3 x y z = z.
Proof. unfold min3. lia. Qed.

Lemma min3_le x y z : min3 x y z <= x /\ min3 x y z <= y /\ min3 x y z <= z.
Proof. unfold min3. lia. Qed.

(** No distance is below the difference of the two lengths. *)
Lemma editDistance_ge_diff a b : forall i j,
  i <= j + editDistance a b i j /\ j <= i + editDistance a b i j.
Proof.
  induction i as [| i IHi]; intros j.
  - rewrite editDistance_0_l. lia.
  - induction j as [| j IHj].
    + rewrite editDistance_0_r. lia.
    + rewrite editDistance_S.
      pose proof (IHi (S j)). pose proof (IHi j).
      destruct (min3_cases (editDistance a b i (S j) + 1)
                           (editDistance a b (S i) j + 1)
                           (editDistance a b i j + substCost a b i j))
        as [-> | [-> | ->]]; lia.
Qed.

Lemma charAt_beyond s : forall n, String.length s <= n -> Engine.charAt s n = None.
Proof.
  unfold Engine.charAt.
  induction s as [| c s IH]; intros n Hn; [reflexivity |].
  destruct n as [| n]; cbn in *; [lia | apply IH; lia].
Qed.

(** A distance of 0 leaves no room for a difference. *)
Lemma editDistance_zero a b : forall i,
  editDistance a b i i = 0 ->
  forall k, k < i -> Engine.charAt a k = Engine.charAt b k.
Proof.
  induction i as [| i IHi]; intros H0 k Hk; [lia |].
  rewrite editDistance_S in H0.
  destruct (min3_cases (editDistance a b i (S i) + 1)
                       (editDistance a b (S i) i + 1)
                       (editDistance a b i i + substCost a b i i))
    as [E | [E | E]]; rewrite E in H0; try lia.
  destruct (decide (k = i)) as [-> | Hne].
  - unfold substCost in H0.
    destruct (bool_decide (Engine.charAt a i = Engine.charAt b i)) eqn:Hc;
      [now apply bool_decide_eq_true_1 in Hc | lia].
  - apply IHi; lia.
Qed.

Lemma levenshtein_zero (a b : string) :
  Engine.levenshtein a b = 0 -> a = b.
Proof.
  rewrite levenshtein_editDistance. intros H0.
  pose proof (editDistance_ge_diff a b (String.length a) (String.length b)) as Hd.
  assert (Hlen : String.length a = String.length b) by lia.
  rewrite <- Hlen in H0.
  apply String.get_correct. intros n.
  destruct (Nat.lt_ge_cases n (String.length a)) as [Hn | Hn].
  - exact (editDistance_zero a b _ H0 n Hn).
  - pose proof (charAt_beyond a n Hn) as Ha.
    pose proof (charAt_beyond b n ltac:(lia)) as Hb.
    unfold Engine.charAt in Ha, Hb. now rewrite Ha, Hb.
Qed.

(** X1: the edit distance of two strings is 0 exactly when they are the
    same string. *)
Theorem levenshtein_zero_iff (a b : string) :
  Engine.levenshtein a b = 0 <-> a = b.
Proof.
  split; [apply levenshtein_zero | intros ->; apply levenshtein_refl].
Qed.

(** X2: the edit distance lies between the difference and the maximum
    of the two lengths; against the empty string it is the length. *)
Theorem levenshtein_bounds (a b : string) :
  String.length a - String.length b <= Engine.levenshtein a b
  /\ String.length b - String.length a <= Engine.levenshtein a b
  /\ Engine.levenshtein a b <= Nat.max (String.length a) (String.length b)
  /\ Engine.levenshtein a EmptyString = String.length a
  /\ Engine.levenshtein EmptyString b = String.length b.
Proof.
  pose proof (editDistance_ge_diff a b (String.length a) (String.length b)) as Hd.
  pose proof (levenshtein_le_max a b) as Hmax.
  rewrite !levenshtein_editDistance in *. cbn [String.length].
  rewrite editDistance_0_l, editDistance_0_r. lia.
Qed.

Lemma substCost_triangle a b c i j k :
  substCost a c i k <= substCost a b i j + substCost b c j k.
Proof.
  unfold substCost. repeat case_bool_decide; try lia. exfalso. congruence.
Qed.

Lemma editDistance_step a b i j :
  editDistance a b (S i) (S j) <= editDistance a b i (S j) + 1
  /\ editDistance a b (S i) (S j) <= editDistance a b (S i) j + 1
  /\ editDistance a b (S i) (S j) <= editDistance a b i j + substCost a b i j.
Proof. rewrite editDistance_S. apply min3_le. Qed.

(** Going from [a] to [c] by way of [b] is no shortcut. *)
Lemma editDistance_triangle a b c : forall n i j k,
  i + j + k <= n ->
  editDistance a c i k <= editDistance a b i j + editDistance b c j k.
Proof.
  induction n as [| n IH]; intros i j k Hn.
  - assert (i = 0 /\ j = 0 /\ k = 0) as (-> & -> & ->) by lia. cbn. lia.
  - destruct i as [| i].
    { rewrite !editDistance_0_l. pose proof (editDistance_ge_diff b c j k). lia. }
    destruct k as [| k].
    { rewrite !editDistance_0_r. pose proof (editDistance_ge_diff a b (S i) j). lia. }
    destruct j as [| j].
    { rewrite editDistance_0_l, editDistance_0_r.
      pose proof (editDistance_le_max a c (S i) (S k)). lia. }
    pose proof (editDistance_step a c i k) as (Hac1 & Hac2 & Hac3).
    pose proof (IH i (S j) (S k) ltac:(lia)) as T1.
    pose proof (IH (S i) (S j) k ltac:(lia)) as T2.
    pose proof (IH (S i) j (S k) ltac:(lia)) as T3.
    pose proof (IH i j (S k) ltac:(lia)) as T4.
    pose proof (IH (S i) j k ltac:(lia)) as T5.
    pose proof (IH i j k ltac:(lia)) as T6.
    pose proof (substCost_triangle a b c i j k) as Hc.
    pose proof (substCost_le a b i j). pose proof (substCost_le b c j k).
    rewrite (editDistance_S a b i j), (editDistance_S b c j k).
    destruct (min3_cases (editDistance a b i (S j) + 1)
                         (editDistance a b (S i) j + 1)
                         (editDistance a b i j + substCost a b i j))
      as [-> | [-> | ->]];
      destruct (min3_cases (editDistance b c j (S k) + 1)
                           (editDistance b c (S j) k + 1)
                           (editDistance b c j k + substCost b c j k))
        as [E | [E | E]]; rewrite E; clear E;
      pose proof (editDistance_step b c j k) as (Hbc1 & Hbc2 & Hbc3);
      pose proof (editDistance_step a b i j) as (Hab1 & Hab2 & Hab3);
      lia.
Qed.

(** X3: the edit distance obeys the triangle inequality. *)
Theorem levenshtein_triangle (a b c : string) :
  Engine.levenshtein a c <= Engine.levenshtein a b + Engine.levenshtein b c.
Proof.
  rewrite !levenshtein_editDistance.
  eapply editDistance_triangle. reflexivity.
Qed.

(** ** Similarity 1 *)

(** X4: below the length cap, two texts have similarity 1 exactly when
    their normal forms are the same string. *)
Theorem textSimilarity_one_iff (a b : string) :
  String.length (Engine.normalizeForDuplication a) <= 1000 ->
  String.length (Engine.normalizeForDuplication b) <= 1000 ->
  (Engine.textSimilarity a b == 1)%Q
  <-> Engine.normalizeForDuplication a = Engine.normalizeForDuplication b.
Proof.
  intros Ha Hb. unfold Engine.textSimilarity; cbv zeta.
  set (na := Engine.normalizeForDuplication a) in *.
  set (nb := Engine.normalizeForDuplication b) in *.
  rewrite (proj2 (Nat.ltb_ge _ _) Ha), (proj2 (Nat.ltb_ge _ _) Hb). cbn [orb].
  destruct (andb _ _) eqn:Hempty.
  - apply andb_true_iff in Hempty as [Ea Eb].
    apply Nat.eqb_eq in Ea, Eb.
    destruct na, nb; try discriminate. split; reflexivity.
  - assert (Hpos : 0 < Nat.max (String.length na) (String.length nb)).
    { apply andb_false_iff in Hempty as [H | H]; apply Nat.eqb_neq in H; lia. }
    assert (Hq : (0 < natQ (Nat.max (String.length na) (String.length nb)))%Q)
      by (now apply (natQ_lt 0)).
    assert (Hzero : Engine.levenshtein na nb = 0 <-> na = nb)
      by (split; [apply levenshtein_zero | intros ->; apply levenshtein_refl]).
    rewrite <- Hzero. split.
    + intros H1. destruct (Engine.levenshtein na nb) as [| d] eqn:Hd; [reflexivity |].
      assert (Hr : (0 < natQ (S d)
                        / natQ (Nat.max (String.length na) (String.length nb)))%Q).
      { apply Qlt_shift_div_l; [exact Hq |]. rewrite Qmult_0_l.
        apply (natQ_lt 0). lia. }
      lra.
    + intros ->. change (natQ 0) with 0%Q. field.
      now apply Qnot_eq_sym, Qlt_not_eq.
Qed.

Lemma textSimilarity_one_iff_witness :
  (Engine.textSimilarity textFoo textBar == 1)%Q
  <-> Engine.normalizeForDuplication textFoo
      = Engine.normalizeForDuplication textBar.
Proof.
  apply (textSimilarity_one_iff textFoo textBar); vm_compute; lia.
Defined.

(** ** Reported cycles are cycles *)

Lemma indexOf_lookup (l : list string) x :
  In x l -> exists k, indexOf l x = Z.of_nat k /\ l !! k = Some x.
Proof.
  induction l as [| h t IH]; intros Hx; [destruct Hx |]. cbn [indexOf].
  destruct (String.eqb h x) eqn:E.
  - apply String.eqb_eq in E. subst h. now exists 0.
  - destruct Hx as [-> | Hx]; [now rewrite String.eqb_refl in E |].
    destruct (IH Hx) as (k & Hk & Hl). exists (S k). rewrite Hk.
    rewrite (proj2 (Z.ltb_ge _ _)) by lia. split; [lia | exact Hl].
Qed.

Lemma slice_indexOf_drop (l : list string) x :
  In x l ->
  exists k, slice (indexOf l x) l = drop k l /\ l !! k = Some x.
Proof.
  intros Hx. destruct (indexOf_lookup l x Hx) as (k & Hk & Hl).
  exists k. split; [| exact Hl]. unfold slice. rewrite Hk.
  rewrite (proj2 (Z.ltb_ge _ _)) by lia. now rewrite Nat2Z.id.
Qed.

Lemma last_drop_lookup {A} (l : list A) k x :
  l !! k = Some x -> last (drop k l) = last l.
Proof.
  intros Hk. apply lookup_lt_Some in Hk.
  rewrite !last_lookup, lookup_drop, length_drop. f_equal. lia.
Qed.

Lemma chained_drop graph l k : chained graph l -> chained graph (drop k l).
Proof.
  intros H i x y Hx Hy. rewrite lookup_drop in Hx, Hy.
  apply (H (k + i)); [exact Hx |]. now replace (S (k + i)) with (k + S i) by lia.
Qed.

Lemma chained_snoc graph l node :
  chained graph l ->
  (l = [] \/ exists x, last l = Some x /\ edge graph x node) ->
  chained graph (l ++ [node]).
Proof.
  intros Hl Hlast i x y Hx Hy.
  destruct (Nat.lt_ge_cases (S i) (length l)) as [Hi | Hi].
  - rewrite lookup_app_l in Hx, Hy by lia. exact (Hl i x y Hx Hy).
  - assert (Hlen : length (l ++ [node]) = S (length l))
      by (rewrite length_app; cbn; lia).
    pose proof (lookup_lt_Some _ _ _ Hy) as Hb. rewrite Hlen in Hb.
    assert (S i = length l) as Hi' by lia.
    rewrite lookup_app_l in Hx by lia.
    rewrite lookup_app_r, Hi', Nat.sub_diag in Hy by lia.
    injection Hy as <-.
    destruct Hlast as [-> | (z & Hz & He)]; [cbn in Hi'; lia |].
    rewrite last_lookup, <- Hi' in Hz. cbn in Hz. congruence.
Qed.

(** A call of [dfs] keeps the path invariant and hands the path and the
    recursion stack back as it found them. *)
Lemma dfs_pathInvariant graph : forall fuel node st st',
  Engine.dfs fuel graph node st = Some st' ->
  dfsPathInvariant graph st ->
  dfsEntry graph st node ->
  dfsPathInvariant graph st'
  /\ Engine.path st' = Engine.path st
  /\ Engine.recStack st' = Engine.recStack st.
Proof.
  induction fuel as [| fuel IH]; intros node st st' Hdfs Hinv Hentry;
    [discriminate |].
  rewrite dfs_S in Hdfs. destruct Hinv as (Hnodup & Hchain & Hstack & Hcycles).
  destruct (bool_decide (node ∈ Engine.recStack st)) eqn:Hrec.
  - injection Hdfs as <-. cbn. split; [| split; reflexivity].
    apply bool_decide_eq_true_1, Hstack in Hrec.
    split; [exact Hnodup |]. split; [exact Hchain |]. split; [exact Hstack |].
    cbn. intros c Hc. unfold push in Hc.
    apply in_app_or in Hc as [Hc | [<- | []]]; [now apply Hcycles |].
    destruct (slice_indexOf_drop _ _ Hrec) as (k & -> & Hk).
    split; [eapply sublist_NoDup; [exact Hnodup | apply sublist_drop] |].
    split; [now apply chained_drop |].
    destruct Hentry as [Hnil | (x & Hx & He)];
      [rewrite Hnil in Hrec; destruct Hrec |].
    exists x, node. split; [| split; [| exact He]].
    + rewrite head_lookup, lookup_drop, Nat.add_0_r. exact Hk.
    + now rewrite (last_drop_lookup _ _ _ Hk).
  - destruct (bool_decide (node ∈ Engine.visited st)); [now injection Hdfs as <- |].
    apply bool_decide_eq_false_1 in Hrec.
    match type of Hdfs with
    | match foldl _ (Some ?s) _ with _ => _ end = _ => set (st1 := s) in *
    end.
    destruct (foldl _ (Some st1) _) as [st2 |] eqn:Hfold; [| discriminate].
    injection Hdfs as <-.
    assert (Hfresh : ~ In node (Engine.path st)) by (now rewrite <- Hstack).
    assert (H1 : dfsPathInvariant graph st1).
    { split; [| split; [| split]]; cbn; unfold push.
      - apply NoDup_app. split; [exact Hnodup |].
        split; [| apply NoDup_singleton].
        intros x Hx Hn. apply list_elem_of_singleton in Hn. subst x.
        now apply list_elem_of_In in Hx.
      - apply chained_snoc; [exact Hchain | exact Hentry].
      - intros x. rewrite in_app_iff, elem_of_union, elem_of_singleton, Hstack.
        cbn. intuition congruence.
      - exact Hcycles. }
    assert (H2 : dfsPathInvariant graph st2
                 /\ Engine.path st2 = Engine.path st1
                 /\ Engine.recStack st2 = Engine.recStack st1).
    { refine (foldl_bind_invariant (Engine.dfs fuel graph)
                (fun s => dfsPathInvariant graph s
                          /\ Engine.path s = Engine.path st1
                          /\ Engine.recStack s = Engine.recStack st1)
                (default [] (JsMap.get graph node)) _ st1 st2 Hfold _);
        [| now split].
      intros x s s' Hx Hs (Pi & Pp & Pr).
      destruct (IH x s s' Hs Pi) as (Qi & Qp & Qr).
      - right. exists node. split; [| exact Hx].
        rewrite Pp. cbn. unfold push. apply last_snoc.
      - split; [exact Qi |]. split; congruence. }
    destruct H2 as ((Hnodup2 & Hchain2 & Hstack2 & Hcycles2) & Hp2 & Hr2).
    assert (Hp : removelast (Engine.path st2) = Engine.path st)
      by (rewrite Hp2; cbn; unfold push; apply removelast_last).
    assert (Hr : Engine.recStack st2 ∖ {[node]} = Engine.recStack st).
    { rewrite Hr2; cbn. apply set_eq. intros x.
      rewrite elem_of_difference, elem_of_union, elem_of_singleton. split.
      - intros [[Hx | Hx] Hn]; [contradiction | exact Hx].
      - intros Hx. split; [now right | intros ->; contradiction]. }
    cbn. split; [| split; [exact Hp | exact Hr]].
    split; [| split; [| split]]; cbn; rewrite ?Hp, ?Hr; assumption.
Qed.

Lemma detectCycles_isCycle graph c :
  In c (Engine.detectCycles graph) -> isCycle graph c.
Proof.
  unfold Engine.detectCycles, Engine.dfsRoots.
  destruct (foldl _ _ _) as [st |] eqn:Hfold; [| intros []].
  pose (P := fun s : Engine.DfsState =>
               Engine.recStack s = ∅
               /\ forall c, In c (Engine.cycles s) -> isCycle graph c).
  assert (HP : P st).
  { refine (foldl_bind_invariant
              (fun node s =>
                 if bool_decide (node ∈ Engine.visited s) then Some s
                 else Engine.dfs (S (length (Engine.nodes graph))) graph node
                        {| Engine.cycles := Engine.cycles s;
                           Engine.visited := Engine.visited s;
                           Engine.recStack := Engine.recStack s;
                           Engine.path := [] |})
              P (JsMap.keys graph) _ _ st Hfold _).
    - intros node s s' _ Hstep [Hempty Hcycles].
      destruct (bool_decide (node ∈ Engine.visited s));
        [injection Hstep as <-; now split |].
      apply dfs_pathInvariant in Hstep as ((_ & _ & _ & Hc) & _ & Hr).
      + split; [now rewrite Hr | exact Hc].
      + split; [apply NoDup_nil_2 |]. split; [intros i x y Hx; discriminate Hx |].
        split; [| exact Hcycles]. cbn.
        intros y. rewrite Hempty. split; [| intros []].
        intros Hy. now apply not_elem_of_empty in Hy.
      + now left.
    - split; [reflexivity | intros c' []]. }
  destruct HP as [_ Hcycles]. apply Hcycles.
Qed.

(** X5: every cycle the detector reports is a cycle of the graph: its
    names are distinct, each depends on the next, and the last depends
    on the first. *)
Theorem detectCycles_sound (graph : JsMap.t) :
  Forall (isCycle graph) (Engine.detectCycles graph).
Proof.
  apply Forall_forall. intros c Hc.
  now apply detectCycles_isCycle, list_elem_of_In.
Qed.

(** ** A graph with a cycle gets a report *)

Lemma loopOf_nil {S A} (f : A -> S -> option S) s : loopOf f [] s = Some s.
Proof. reflexivity. Qed.

Lemma loopOf_cons {S A} (f : A -> S -> option S) x l s :
  loopOf f (x :: l) s = f x s ≫= loopOf f l.
Proof.
  unfold loopOf. cbn [foldl mbind option_bind].
  destruct (f x s); [reflexivity | apply foldl_bind_None].
Qed.

Lemma loopOf_cons_Some {S A} (f : A -> S -> option S) x l s s' :
  loopOf f (x :: l) s = Some s' ->
  exists s1, f x s = Some s1 /\ loopOf f l s1 = Some s'.
Proof.
  rewrite loopOf_cons. destruct (f x s) as [s1 |]; [| discriminate].
  intros H. now exists s1.
Qed.

Lemma extends_refl s : stackVisited s -> extends s s.
Proof. intros H. split; [exact H |]. split; [reflexivity |]. split; [lia | reflexivity]. Qed.

Lemma extends_trans s1 s2 s3 : extends s1 s2 -> extends s2 s3 -> extends s1 s3.
Proof.
  intros (_ & Hv1 & Hc1 & Hr1) (Hs & Hv2 & Hc2 & Hr2).
  split; [exact Hs |]. split; [now transitivity (Engine.visited s2) |].
  split; [lia | congruence].
Qed.

Section Loops.
Context (f : string -> Engine.DfsState -> option Engine.DfsState).
Context (graph : JsMap.t).
Context (Hextends : forall x s s', f x s = Some s' -> stackVisited s -> extends s s').

Lemma loop_extends l : forall s s',
  loopOf f l s = Some s' -> stackVisited s -> extends s s'.
Proof.
  induction l as [| x l IH]; intros s s' Hloop Hs.
  - injection Hloop as <-. now apply extends_refl.
  - apply loopOf_cons_Some in Hloop as (s1 & Hx & Hl).
    pose proof (Hextends _ _ _ Hx Hs) as H1.
    eapply extends_trans; [exact H1 |]. apply (IH s1); [exact Hl | apply H1].
Qed.

(** Every name the loop calls on is visited afterwards. *)
Lemma loop_visits l :
  (forall x s s', f x s = Some s' -> stackVisited s -> x ∈ Engine.visited s') ->
  forall s s', loopOf f l s = Some s' -> stackVisited s ->
               forall y, In y l -> y ∈ Engine.visited s'.
Proof.
  intros Hvisits. induction l as [| x l IH]; intros s s' Hloop Hs y Hy;
    [destruct Hy |].
  apply loopOf_cons_Some in Hloop as (s1 & Hx & Hl).
  pose proof (Hextends _ _ _ Hx Hs) as H1.
  destruct Hy as [<- | Hy].
  - apply (loop_extends l s1 s' Hl); [apply H1 |]. now apply (Hvisits x s).
  - apply (IH s1 s' Hl); [apply H1 | exact Hy].
Qed.

(** What a visited name depends on is visited too. *)
Lemma loop_closure l :
  (forall x s s', f x s = Some s' -> stackVisited s ->
                  forall w y, newlyVisited s s' w -> edge graph w y ->
                              y ∈ Engine.visited s') ->
  forall s s', loopOf f l s = Some s' -> stackVisited s ->
               forall w y, newlyVisited s s' w -> edge graph w y ->
                           y ∈ Engine.visited s'.
Proof.
  intros Hclosure. induction l as [| x l IH]; intros s s' Hloop Hs w y [Hw Hn] He.
  - injection Hloop as <-. contradiction.
  - apply loopOf_cons_Some in Hloop as (s1 & Hx & Hl).
    pose proof (Hextends _ _ _ Hx Hs) as H1.
    destruct (decide (w ∈ Engine.visited s1)) as [Hw1 | Hw1].
    + apply (loop_extends l s1 s' Hl); [apply H1 |].
      apply (Hclosure x s s1 Hx Hs w y); [now split | exact He].
    + apply (IH s1 s' Hl (proj1 H1) w y); [now split | exact He].
Qed.

(** An edge from a name visited in the loop back to the recursion stack
    is reported. *)
Lemma loop_backedge l r :
  (forall x s s', f x s = Some s' -> stackVisited s -> r ∈ Engine.recStack s ->
                  (exists w, newlyVisited s s' w /\ edge graph w r) ->
                  grows s s') ->
  forall s s', loopOf f l s = Some s' -> stackVisited s ->
               r ∈ Engine.recStack s ->
               (exists w, newlyVisited s s' w /\ edge graph w r) ->
               grows s s'.
Proof.
  intros Hback. induction l as [| x l IH]; intros s s' Hloop Hs Hr (w & [Hw Hn] & He).
  - injection Hloop as <-. contradiction.
  - apply loopOf_cons_Some in Hloop as (s1 & Hx & Hl).
    pose proof (Hextends _ _ _ Hx Hs) as (Hs1 & Hv1 & Hc1 & Hr1).
    pose proof (loop_extends l s1 s' Hl Hs1) as (_ & _ & Hc2 & _).
    unfold grows in *.
    destruct (decide (w ∈ Engine.visited s1)) as [Hw1 | Hw1].
    + assert (grows s s1).
      { apply (Hback x s s1 Hx Hs Hr). exists w. split; [now split | exact He]. }
      unfold grows in *. lia.
    + assert (grows s1 s').
      { apply (IH s1 s' Hl Hs1); [now rewrite Hr1 |]. exists w.
        split; [now split | exact He]. }
      unfold grows in *. lia.
Qed.

(** A call on a name of the recursion stack is reported. *)
Lemma loop_hit l r :
  (forall s s', f r s = Some s' -> r ∈ Engine.recStack s -> grows s s') ->
  forall s s', loopOf f l s = Some s' -> stackVisited s ->
               r ∈ Engine.recStack s -> In r l -> grows s s'.
Proof.
  intros Hhit. induction l as [| x l IH]; intros s s' Hloop Hs Hr Hin;
    [destruct Hin |].
  apply loopOf_cons_Some in Hloop as (s1 & Hx & Hl).
  pose proof (Hextends _ _ _ Hx Hs) as (Hs1 & Hv1 & Hc1 & Hr1).
  pose proof (loop_extends l s1 s' Hl Hs1) as (_ & _ & Hc2 & _).
  unfold grows in *.
  destruct (decide (x = r)) as [-> | Hne].
  - pose proof (Hhit s s1 Hx Hr). unfold grows in *. lia.
  - destruct Hin as [-> | Hin]; [contradiction |].
    assert (grows s1 s') by (apply (IH s1 s' Hl Hs1); [now rewrite Hr1 | exact Hin]).
    unfold grows in *. lia.
Qed.

(** The first call that visits a name of [c] reports a cycle. *)
Lemma loop_cycle l (c : list string) :
  (forall x s s', f x s = Some s' -> stackVisited s ->
                  (forall w, In w c -> w ∉ Engine.visited s) ->
                  (exists w, In w c /\ w ∈ Engine.visited s') ->
                  grows s s') ->
  forall s s', loopOf f l s = Some s' -> stackVisited s ->
               (forall w, In w c -> w ∉ Engine.visited s) ->
               (exists w, In w c /\ w ∈ Engine.visited s') ->
               grows s s'.
Proof.
  intros Hcycle. induction l as [| x l IH]; intros s s' Hloop Hs Hnone (w & Hw & Hv).
  - injection Hloop as <-. now destruct (Hnone w Hw).
  - apply loopOf_cons_Some in Hloop as (s1 & Hx & Hl).
    pose proof (Hextends _ _ _ Hx Hs) as (Hs1 & Hv1 & Hc1 & Hr1).
    pose proof (loop_extends l s1 s' Hl Hs1) as (_ & _ & Hc2 & _).
    unfold grows in *.
    destruct (decide (Exists (fun w => w ∈ Engine.visited s1) c)) as [He | He].
    + apply Exists_exists in He as (u & Hu & Hu1).
      assert (grows s s1).
      { apply (Hcycle x s s1 Hx Hs Hnone). exists u.
        split; [now apply list_elem_of_In | exact Hu1]. }
      unfold grows in *. lia.
    + assert (grows s1 s').
      { apply (IH s1 s' Hl Hs1).
        - intros u Hu Hu1. apply He, Exists_exists. exists u.
          split; [now apply list_elem_of_In | exact Hu1].
        - now exists w. }
      unfold grows in *. lia.
Qed.
End Loops.

(** The three ways a call of [dfs] returns. *)
Lemma dfs_cases fuel graph node s s' :
  Engine.dfs fuel graph node s = Some s' ->
  ((node ∈ Engine.recStack s) /\ s' = report node s)
  \/ ((node ∉ Engine.recStack s) /\ (node ∈ Engine.visited s) /\ s' = s)
  \/ ((node ∉ Engine.recStack s) /\ (node ∉ Engine.visited s)
      /\ exists fuel' s2,
           fuel = S fuel'
           /\ loopOf (Engine.dfs fuel' graph) (neighbors graph node) (enter node s)
              = Some s2
           /\ s' = leave node s2).
Proof.
  destruct fuel as [| fuel]; [discriminate |]. rewrite dfs_S.
  destruct (bool_decide (node ∈ Engine.recStack s)) eqn:Hrec.
  { apply bool_decide_eq_true_1 in Hrec. intros [= <-]. now left. }
  apply bool_decide_eq_false_1 in Hrec.
  destruct (bool_decide (node ∈ Engine.visited s)) eqn:Hvis.
  { apply bool_decide_eq_true_1 in Hvis. intros [= <-]. right. now left. }
  apply bool_decide_eq_false_1 in Hvis.
  change (foldl _ (Some _) _)
    with (loopOf (Engine.dfs fuel graph) (neighbors graph node) (enter node s)).
  destruct (loopOf _ _ _) as [s2 |] eqn:Hloop; [| discriminate].
  intros [= <-]. right. right. split; [exact Hrec |]. split; [exact Hvis |].
  now exists fuel, s2.
Qed.

Lemma stackVisited_enter node s : stackVisited s -> stackVisited (enter node s).
Proof.
  intros Hs x. cbn. rewrite !elem_of_union. intros [Hx | Hx]; [now left |].
  right. now apply Hs.
Qed.

Lemma extends_leave node s s2 :
  node ∉ Engine.recStack s -> extends (enter node s) s2 -> extends s (leave node s2).
Proof.
  intros Hrec (Hs2 & Hv & Hc & Hr). split; [| split; [| split]]; cbn.
  - intros x. cbn. rewrite elem_of_difference. intros [Hx _]. now apply Hs2.
  - intros x Hx. apply Hv. cbn. apply elem_of_union. now right.
  - exact Hc.
  - rewrite Hr. cbn. apply set_eq. intros x.
    rewrite elem_of_difference, elem_of_union, elem_of_singleton. split.
    + intros [[Hx | Hx] Hn]; [contradiction | exact Hx].
    + intros Hx. split; [now right | intros ->; contradiction].
Qed.

Lemma dfs_extends graph : forall fuel node s s',
  Engine.dfs fuel graph node s = Some s' -> stackVisited s -> extends s s'.
Proof.
  induction fuel as [| fuel IH]; intros node s s' Hdfs Hs; [discriminate |].
  apply dfs_cases in Hdfs
    as [(_ & ->) | [(_ & _ & ->) | (Hrec & _ & fuel' & s2 & [= <-] & Hloop & ->)]].
  - split; [exact Hs |]. split; [reflexivity |]. split; [| reflexivity].
    cbn. unfold push. rewrite length_app. lia.
  - now apply extends_refl.
  - apply extends_leave; [exact Hrec |].
    apply (loop_extends _ (IH) _ _ _ Hloop). now apply stackVisited_enter.
Qed.

Lemma dfs_visits graph fuel node s s' :
  Engine.dfs fuel graph node s = Some s' -> stackVisited s ->
  node ∈ Engine.visited s'.
Proof.
  intros Hdfs Hs. pose proof (dfs_extends _ _ _ _ _ Hdfs Hs) as (_ & Hv & _).
  apply dfs_cases in Hdfs
    as [(Hrec & _) | [(_ & Hvis & _) | (_ & _ & fuel' & s2 & _ & Hloop & ->)]].
  - apply Hv. now apply Hs.
  - now apply Hv.
  - cbn. apply (loop_extends _ (dfs_extends graph fuel') _ _ _ Hloop);
      [now apply stackVisited_enter |].
    cbn. apply elem_of_union. left. now apply elem_of_singleton.
Qed.

Lemma newlyVisited_enter node s s2 w :
  newlyVisited s (leave node s2) w ->
  w = node \/ newlyVisited (enter node s) s2 w.
Proof.
  intros [Hw Hn]. destruct (decide (w = node)) as [-> | Hne]; [now left | right].
  split; [exact Hw |]. cbn. rewrite elem_of_union, elem_of_singleton. tauto.
Qed.

Lemma dfs_closure graph : forall fuel node s s',
  Engine.dfs fuel graph node s = Some s' -> stackVisited s ->
  forall w y, newlyVisited s s' w -> edge graph w y -> y ∈ Engine.visited s'.
Proof.
  induction fuel as [| fuel IH]; intros node s s' Hdfs Hs w y Hw He;
    [discriminate |].
  apply dfs_cases in Hdfs
    as [(_ & ->) | [(_ & _ & ->) | (Hrec & _ & fuel' & s2 & [= <-] & Hloop & ->)]].
  - destruct Hw as [Hw Hn]. contradiction.
  - destruct Hw as [Hw Hn]. contradiction.
  - pose proof (stackVisited_enter node s Hs) as Hs1.
    apply newlyVisited_enter in Hw as [-> | Hw]; cbn.
    + exact (loop_visits _ (dfs_extends graph fuel) _
               (dfs_visits graph fuel) _ _ Hloop Hs1 y He).
    + exact (loop_closure _ graph (dfs_extends graph fuel) _ IH _ _ Hloop Hs1
               w y Hw He).
Qed.

Lemma dfs_hit graph fuel r s s' :
  Engine.dfs fuel graph r s = Some s' -> r ∈ Engine.recStack s -> grows s s'.
Proof.
  intros Hdfs Hr.
  apply dfs_cases in Hdfs as [(_ & ->) | [(Hn & _) | (Hn & _)]];
    [| contradiction | contradiction].
  unfold grows. cbn. unfold push. rewrite length_app. cbn. lia.
Qed.

Lemma dfs_backedge graph r : forall fuel node s s',
  Engine.dfs fuel graph node s = Some s' -> stackVisited s ->
  r ∈ Engine.recStack s ->
  (exists w, newlyVisited s s' w /\ edge graph w r) ->
  grows s s'.
Proof.
  induction fuel as [| fuel IH]; intros node s s' Hdfs Hs Hr (w & Hw & He);
    [discriminate |].
  apply dfs_cases in Hdfs
    as [(_ & ->) | [(_ & _ & ->) | (Hrec & _ & fuel' & s2 & [= <-] & Hloop & ->)]].
  - destruct Hw as [Hw Hn]. contradiction.
  - destruct Hw as [Hw Hn]. contradiction.
  - pose proof (stackVisited_enter node s Hs) as Hs1.
    assert (Hr1 : r ∈ Engine.recStack (enter node s))
      by (cbn; apply elem_of_union; now right).
    change (grows (enter node s) s2).
    apply newlyVisited_enter in Hw as [-> | Hw].
    + exact (loop_hit _ (dfs_extends graph fuel) _ r
               (dfs_hit graph fuel r) _ _ Hloop Hs1 Hr1 He).
    + apply (loop_backedge _ graph (dfs_extends graph fuel) _ r IH _ _ Hloop Hs1 Hr1).
      now exists w.
Qed.

(** The first call of [dfs] that visits a name of a cycle reports a
    cycle before it returns. *)
Lemma dfs_cycle graph (c : list string) :
  (forall x, In x c -> onCycle graph c x) ->
  forall fuel node s s',
    Engine.dfs fuel graph node s = Some s' -> stackVisited s ->
    (forall w, In w c -> w ∉ Engine.visited s) ->
    (exists w, In w c /\ w ∈ Engine.visited s') ->
    grows s s'.
Proof.
  intros Hc. induction fuel as [| fuel IH];
    intros node s s' Hdfs Hs Hnone (w & Hw & Hv); [discriminate |].
  apply dfs_cases in Hdfs
    as [(_ & ->) | [(_ & _ & ->) | (Hrec & Hvis & fuel' & s2 & [= <-] & Hloop & ->)]].
  - now destruct (Hnone w Hw).
  - now destruct (Hnone w Hw).
  - pose proof (stackVisited_enter node s Hs) as Hs1.
    assert (Hr1 : node ∈ Engine.recStack (enter node s))
      by (cbn; apply elem_of_union; left; now apply elem_of_singleton).
    change (grows (enter node s) s2).
    destruct (in_dec String.string_dec node c) as [Hin | Hout].
    + destruct (Hc node Hin) as (p & Hwalk & Hback).
      assert (Hreach : p = node \/ newlyVisited (enter node s) s2 p).
      { clear Hback.
        apply (rtc_ind_r (R := edgeInto graph c)
                 (fun q => q = node \/ newlyVisited (enter node s) s2 q)
                 node); [now left | | exact Hwalk].
        intros u v Huv [He Hvc] IHw.
        assert (Hv2 : v ∈ Engine.visited s2).
        { destruct IHw as [-> | Hu].
          - exact (loop_visits _ (dfs_extends graph fuel) _
                     (dfs_visits graph fuel) _ _ Hloop Hs1 v He).
          - exact (loop_closure _ graph (dfs_extends graph fuel) _
                     (dfs_closure graph fuel) _ _ Hloop Hs1 u v Hu He). }
        destruct (decide (v = node)) as [-> | Hne]; [now left | right].
        split; [exact Hv2 |]. cbn. rewrite elem_of_union, elem_of_singleton.
        intros [E | E]; [contradiction | exact (Hnone v Hvc E)]. }
      destruct Hreach as [-> | Hp].
      * exact (loop_hit _ (dfs_extends graph fuel) _ node
                 (dfs_hit graph fuel node) _ _ Hloop Hs1 Hr1 Hback).
      * apply (loop_backedge _ graph (dfs_extends graph fuel) _ node
                 (dfs_backedge graph node fuel) _ _ Hloop Hs1 Hr1).
        now exists p.
    + apply (loop_cycle _ (dfs_extends graph fuel) _ c IH _ _ Hloop Hs1).
      * intros u Hu. cbn. rewrite elem_of_union, elem_of_singleton.
        intros [-> | E]; [contradiction | exact (Hnone u Hu E)].
      * now exists w.
Qed.

Lemma rootStep_extends fuel graph node s s' :
  rootStep fuel graph node s = Some s' -> stackVisited s -> extends s s'.
Proof.
  unfold rootStep. destruct (bool_decide _).
  - intros [= <-]. apply extends_refl.
  - intros Hdfs Hs. exact (dfs_extends _ _ _ _ _ Hdfs Hs).
Qed.

Lemma rootStep_visits fuel graph node s s' :
  rootStep fuel graph node s = Some s' -> stackVisited s ->
  node ∈ Engine.visited s'.
Proof.
  unfold rootStep. destruct (bool_decide _) eqn:Hvis.
  - intros [= <-] _. now apply bool_decide_eq_true_1 in Hvis.
  - intros Hdfs Hs. exact (dfs_visits _ _ _ _ _ Hdfs Hs).
Qed.

Lemma rootStep_cycle fuel graph c node s s' :
  (forall x, In x c -> onCycle graph c x) ->
  rootStep fuel graph node s = Some s' -> stackVisited s ->
  (forall w, In w c -> w ∉ Engine.visited s) ->
  (exists w, In w c /\ w ∈ Engine.visited s') ->
  grows s s'.
Proof.
  intros Hc. unfold rootStep. destruct (bool_decide _).
  - intros [= <-] _ Hnone (w & Hw & Hv). now destruct (Hnone w Hw).
  - intros Hdfs Hs Hnone Hsome.
    exact (dfs_cycle graph c Hc _ _ _ _ Hdfs Hs Hnone Hsome).
Qed.

Lemma chained_rtc graph c :
  chained graph c ->
  forall j i x y, i <= j -> c !! i = Some x -> c !! j = Some y ->
                  rtc (edgeInto graph c) x y.
Proof.
  intros Hchain. induction j as [| j IH]; intros i x y Hij Hx Hy.
  - assert (i = 0) as -> by lia. rewrite Hx in Hy. injection Hy as <-. reflexivity.
  - destruct (decide (i = S j)) as [-> | Hne].
    + rewrite Hx in Hy. injection Hy as <-. reflexivity.
    + destruct (lookup_lt_is_Some_2 c j) as [z Hz];
        [apply lookup_lt_Some in Hy; lia |].
      eapply rtc_r; [apply (IH i x z); [lia | exact Hx | exact Hz] |].
      split; [exact (Hchain j z y Hz Hy) |].
      apply list_elem_of_In, list_elem_of_lookup. now exists (S j).
Qed.

(** Every name of a cycle comes back to itself within the cycle. *)
Lemma isCycle_onCycle graph c :
  isCycle graph c -> forall x, In x c -> onCycle graph c x.
Proof.
  intros (_ & Hchain & l & h & Hh & Hl & Hlh) x Hx.
  apply list_elem_of_In, list_elem_of_lookup in Hx as [i Hi].
  rewrite head_lookup in Hh. rewrite last_lookup in Hl.
  assert (Hlast : i <= Init.Nat.pred (length c))
    by (apply lookup_lt_Some in Hi; lia).
  pose proof (chained_rtc graph c Hchain _ _ _ _ Hlast Hi Hl) as Hxl.
  destruct i as [| i].
  - rewrite Hh in Hi. injection Hi as ->. now exists l.
  - destruct (lookup_lt_is_Some_2 c i) as [z Hz];
      [apply lookup_lt_Some in Hi; lia |].
    exists z. split; [| exact (Hchain i z x Hz Hi)].
    etransitivity; [exact Hxl |].
    eapply rtc_l.
    + split; [exact Hlh |]. apply list_elem_of_In, list_elem_of_lookup. now exists 0.
    + apply (chained_rtc graph c Hchain i 0 h z); [lia | exact Hh | exact Hz].
Qed.

Lemma edge_key graph x y : edge graph x y -> In x (JsMap.keys graph).
Proof.
  unfold edge, neighbors.
  destruct (JsMap.get graph x) as [deps |] eqn:E; [| intros []].
  intros _. apply JsMap_get_In in E. unfold JsMap.keys.
  apply in_map_iff. now exists (x, deps).
Qed.

Lemma onCycle_key graph c x : onCycle graph c x -> In x (JsMap.keys graph).
Proof.
  intros (p & Hwalk & Hback).
  destruct (rtc_inv _ _ Hwalk) as [-> | (z & [He _] & _)].
  - exact (edge_key _ _ _ Hback).
  - exact (edge_key _ _ _ He).
Qed.

Lemma detectCycles_complete graph c :
  isCycle graph c -> Engine.detectCycles graph <> [].
Proof.
  intros Hcycle. pose proof (isCycle_onCycle graph c Hcycle) as Hc.
  destruct Hcycle as (_ & _ & l & h & Hh & _ & _).
  assert (Hhc : In h c) by (destruct c; [discriminate | injection Hh as ->; now left]).
  unfold Engine.detectCycles.
  destruct (dfsRoots_total graph) as [st Hst]. rewrite Hst.
  change (Engine.dfsRoots (S (length (Engine.nodes graph))) graph)
    with (loopOf (rootStep (S (length (Engine.nodes graph))) graph)
            (JsMap.keys graph)
            {| Engine.cycles := []; Engine.visited := ∅;
               Engine.recStack := ∅; Engine.path := [] |}) in Hst.
  assert (Hinit : stackVisited {| Engine.cycles := []; Engine.visited := ∅;
                                  Engine.recStack := ∅; Engine.path := [] |})
    by (intros x Hx; exact Hx).
  assert (Hgrows : grows {| Engine.cycles := []; Engine.visited := ∅;
                            Engine.recStack := ∅; Engine.path := [] |} st).
  { apply (loop_cycle _ (rootStep_extends _ graph) (JsMap.keys graph) c
             (fun x s s' => rootStep_cycle _ graph c x s s' Hc) _ _ Hst Hinit).
    - intros w _. cbn. apply not_elem_of_empty.
    - exists h. split; [exact Hhc |].
      apply (loop_visits _ (rootStep_extends _ graph) (JsMap.keys graph)
               (rootStep_visits _ graph) _ _ Hst Hinit).
      exact (onCycle_key graph c h (Hc h Hhc)). }
  unfold grows in Hgrows. cbn in Hgrows.
  intros E. rewrite E in Hgrows. cbn in Hgrows. lia.
Qed.

(** X6: the detector reports a cycle exactly when the graph has one. *)
Theorem detectCycles_nonempty_iff (graph : JsMap.t) :
  Engine.detectCycles graph <> [] <-> exists c, isCycle graph c.
Proof.
  split.
  - destruct (Engine.detectCycles graph) as [| c cs] eqn:E; [congruence |].
    intros _. exists c. apply detectCycles_isCycle. rewrite E. now left.
  - intros [c Hc]. exact (detectCycles_complete graph c Hc).
Qed.

(** X7: a cycle reported on the graph of a unit list has at least two
    names: no unit is reported as depending on itself. *)
Theorem detectCycles_units_length (units : list CodeUnit) (c : list string) :
  In c (Engine.detectCycles (Engine.buildDependencyGraph units)) ->
  2 <= length c.
Proof.
  intros Hc. apply detectCycles_isCycle in Hc as (_ & _ & x & y & Hh & Hl & He).
  destruct c as [| a [| b c]]; [discriminate | | cbn; lia].
  cbn in Hh, Hl. injection Hh as <-. injection Hl as <-.
  unfold edge, neighbors in He.
  destruct (JsMap.get _ a) as [deps |] eqn:E; [| destruct He].
  apply JsMap_get_In, buildDependencyGraph_In in E as (u & _ & [= -> ->]).
  now apply referencedNames_In in He as (Hne & _).
Qed.

Lemma detectCycles_units_length_witness :
  2 <= length ["foo"; "bar"].
Proof.
  apply (detectCycles_units_length [unitFoo; unitBar]).
  vm_compute. left. reflexivity.
Defined.

(** ** The entries of the dependency graph *)

Lemma JsMap_get_set_eq (m : JsMap.t) k v : JsMap.get (JsMap.set m k v) k = Some v.
Proof.
  induction m as [| [k' v'] m IH]; cbn.
  - now rewrite String.eqb_refl.
  - destruct (String.eqb k' k) eqn:E; cbn.
    + now rewrite String.eqb_refl.
    + now rewrite E.
Qed.

Lemma JsMap_get_set_ne (m : JsMap.t) k v k' :
  k' <> k -> JsMap.get (JsMap.set m k v) k' = JsMap.get m k'.
Proof.
  intros Hne. induction m as [| [k0 v0] m IH]; cbn.
  - destruct (String.eqb k k') eqn:E; [| reflexivity].
    apply String.eqb_eq in E. congruence.
  - destruct (String.eqb k0 k) eqn:E; cbn.
    + apply String.eqb_eq in E. subst k0.
      destruct (String.eqb k k') eqn:E'; [| reflexivity].
      apply String.eqb_eq in E'. congruence.
    + now rewrite IH.
Qed.

Lemma JsMap_keys_set (m : JsMap.t) k v :
  forall x, In x (JsMap.keys (JsMap.set m k v)) <-> x = k \/ In x (JsMap.keys m).
Proof.
  intros x. unfold JsMap.keys. induction m as [| [k' v'] m IH]; cbn.
  - intuition.
  - destruct (String.eqb k' k) eqn:E; cbn.
    + apply String.eqb_eq in E. subst k'. intuition.
    + rewrite IH. intuition.
Qed.

Lemma JsMap_keys_set_NoDup (m : JsMap.t) k v :
  NoDup (JsMap.keys m) -> NoDup (JsMap.keys (JsMap.set m k v)).
Proof.
  unfold JsMap.keys. induction m as [| [k' v'] m IH]; cbn; intros Hnd.
  - apply NoDup_singleton.
  - apply NoDup_cons in Hnd as [Hk Hnd].
    destruct (String.eqb k' k) eqn:E; cbn.
    + apply String.eqb_eq in E. subst k'. now apply NoDup_cons.
    + apply NoDup_cons. split; [| now apply IH].
      rewrite list_elem_of_In. intros Hx.
      apply (JsMap_keys_set m k v k') in Hx as [-> | Hx].
      * now rewrite String.eqb_refl in E.
      * apply Hk. now apply list_elem_of_In.
Qed.

(** The graph while [buildDependencyGraph] runs over [us], a part of
    the unit list [units]. *)
Lemma buildDependencyGraph_fold units : forall us graph,
  let graph' :=
    foldl (fun graph unit =>
             let name := Engine.unitKey unit in
             let text := getText unit in
             JsMap.set graph name (Engine.referencedNames units name text))
          graph us in
  (NoDup (JsMap.keys graph) -> NoDup (JsMap.keys graph'))
  /\ (forall k, In k (JsMap.keys graph')
                <-> In k (JsMap.keys graph)
                    \/ exists u, In u us /\ Engine.unitKey u = k)
  /\ (forall k, (forall u, In u us -> Engine.unitKey u <> k) ->
                JsMap.get graph' k = JsMap.get graph k).
Proof.
  induction us as [| u us IH]; intros graph; cbn [foldl].
  - split; [tauto |]. split; [| reflexivity].
    intros k. split; [tauto | intros [H | (u & [] & _)]; exact H].
  - cbv zeta in *.
    destruct (IH (JsMap.set graph (Engine.unitKey u)
                    (Engine.referencedNames units (Engine.unitKey u) (getText u))))
      as (Hnd & Hkeys & Hget).
    split; [| split].
    + intros H. now apply Hnd, JsMap_keys_set_NoDup.
    + intros k. rewrite Hkeys, JsMap_keys_set. split.
      * intros [[-> | H] | (w & Hw & Hk)];
          [right; exists u; split; [now left | reflexivity] | now left |
           right; exists w; split; [now right | exact Hk]].
      * intros [H | (w & [<- | Hw] & Hk)];
          [left; now right | left; left; now symmetry |
           right; exists w; split; [exact Hw | exact Hk]].
    + intros k Hk. rewrite Hget by (intros w Hw; apply Hk; now right).
      apply JsMap_get_set_ne. intros ->. exact (Hk u (or_introl eq_refl) eq_refl).
Qed.

(** X8: the dependency graph has exactly one entry for every key of a
    unit: its keys are distinct, and they are the keys of the units. *)
Theorem buildDependencyGraph_keys (units : list CodeUnit) :
  NoDup (JsMap.keys (Engine.buildDependencyGraph units))
  /\ forall k, In k (JsMap.keys (Engine.buildDependencyGraph units))
               <-> exists u, In u units /\ Engine.unitKey u = k.
Proof.
  destruct (buildDependencyGraph_fold units units []) as (Hnd & Hkeys & _).
  split; [apply Hnd, NoDup_nil_2 |].
  intros k. unfold Engine.buildDependencyGraph. rewrite Hkeys. cbn. tauto.
Qed.

(** X9: of the units that share a key, the last one decides the entry:
    the graph holds the names that unit references. *)
Theorem buildDependencyGraph_last (before after : list CodeUnit) (u : CodeUnit) :
  (forall w, In w after -> Engine.unitKey w <> Engine.unitKey u) ->
  JsMap.get (Engine.buildDependencyGraph (before ++ u :: after))
            (Engine.unitKey u)
  = Some (Engine.referencedNames (before ++ u :: after)
            (Engine.unitKey u) (getText u)).
Proof.
  intros Hafter. unfold Engine.buildDependencyGraph.
  rewrite foldl_app. cbn [foldl].
  destruct (buildDependencyGraph_fold (before ++ u :: after) after
              (JsMap.set
                 (foldl (fun graph unit =>
                           JsMap.set graph (Engine.unitKey unit)
                             (Engine.referencedNames (before ++ u :: after)
                                (Engine.unitKey unit) (getText unit)))
                        [] before)
                 (Engine.unitKey u)
                 (Engine.referencedNames (before ++ u :: after)
                    (Engine.unitKey u) (getText u))))
    as (_ & _ & Hget).
  cbv zeta in Hget. rewrite (Hget _ Hafter). apply JsMap_get_set_eq.
Qed.

Lemma buildDependencyGraph_last_witness :
  JsMap.get (Engine.buildDependencyGraph ([unitAnonymous] ++ unitDefault :: [unitCaller]))
            (Engine.unitKey unitDefault)
  = Some (Engine.referencedNames ([unitAnonymous] ++ unitDefault :: [unitCaller])
            (Engine.unitKey unitDefault) (getText unitDefault)).
Proof.
  apply (buildDependencyGraph_last [unitAnonymous] [unitCaller] unitDefault).
  intros w [<- | []]. vm_compute. discriminate.
Defined.

(** ** Metric engine *)

Lemma split_length (s : string) : length (split s) = S (countLF s).
Proof.
  induction s as [| c s IH]; [reflexivity |]. cbn [split countLF].
  destruct (isChar LF c); cbn; [now rewrite IH |].
  destruct (split s) as [| l ls]; cbn in *; lia.
Qed.

Lemma filter_kind_length (body : list SyntaxKind) :
  Engine.branches body = length (List.filter isBranch body).
Proof.
  unfold Engine.branches, getDescendantsOfKind.
  induction body as [| k body IH]; [reflexivity |].
  destruct k; cbn in *; lia.
Qed.

(** X10: the line count of a unit is one more than the number of line
    feeds of its text, and its complexity is one more than the number
    of [if], [for] and [while] nodes in its bodies; so both are at
    least 1. A function counts as one method. *)
Theorem computeMetrics_counts (unit : CodeUnit) :
  Engine.lineCount (Engine.computeMetrics unit) = S (countLF (getText unit))
  /\ Engine.complexity (Engine.computeMetrics unit)
     = S (length (List.filter isBranch (descendants unit)))
  /\ (isClass unit = false -> Engine.methodCount (Engine.computeMetrics unit) = 1).
Proof.
  unfold Engine.computeMetrics, descendants, isClass; cbv zeta.
  destruct (declaration unit) as [methods | body]; cbn.
  - split; [apply split_length |]. split; [| discriminate].
    assert (H : forall n,
               foldl (fun complexity method =>
                        match methodBody method with
                        | Some body => complexity + Engine.branches body
                        | None => complexity
                        end) n methods
               = n + length (List.filter isBranch
                               (flat_map (fun m => default [] (methodBody m)) methods))).
    { induction methods as [| m methods IH]; intros n; cbn; [lia |].
      rewrite IH, List.filter_app, length_app.
      destruct (methodBody m); cbn; [rewrite filter_kind_length |]; lia. }
    rewrite H. lia.
  - split; [apply split_length |]. split; [| reflexivity].
    destruct body; cbn; [now rewrite filter_kind_length | reflexivity].
Qed.

Lemma computeMetrics_counts_witness :
  Engine.methodCount (Engine.computeMetrics unitA) = 1.
Proof. apply (computeMetrics_counts unitA). reflexivity. Defined.

(** ** Responsibility classifier *)

Lemma foldl_tags text (table : list (string * list string)) : forall acc,
  foldl (fun responsibilities entry =>
           if existsb (fun word => includes text word) entry.2
           then push responsibilities entry.1 else responsibilities)
        acc table
  = (acc ++ map fst (List.filter (tagApplies text) table))%list.
Proof.
  induction table as [| e table IH]; intros acc; cbn [foldl List.filter map].
  - now rewrite app_nil_r.
  - rewrite IH. unfold tagApplies at 2.
    destruct (existsb _ e.2); [unfold push; now rewrite <- app_assoc | reflexivity].
Qed.

Lemma NoDup_map_filter {A B} (g : A -> B) (p : A -> bool) (l : list A) :
  NoDup (map g l) -> NoDup (map g (List.filter p l)).
Proof.
  induction l as [| a l IH]; cbn; intros Hnd; [exact Hnd |].
  apply NoDup_cons in Hnd as [Ha Hnd].
  destruct (p a); cbn; [| now apply IH].
  apply NoDup_cons. split; [| now apply IH].
  rewrite list_elem_of_In, in_map_iff. intros (x & Hx & Hin).
  apply filter_In in Hin as [Hin _]. apply Ha.
  rewrite list_elem_of_In, in_map_iff. now exists x.
Qed.

(** X11: the responsibilities of a unit are the tags of the table, in
    the order of the table and each at most once, of which some word
    occurs in the lower-cased text. *)
Theorem identifyResponsibilities_tags (unit : CodeUnit) :
  Engine.identifyResponsibilities unit
  = map fst (List.filter (tagApplies (toLowerCase (getText unit))) Engine.keywords)
  /\ NoDup (Engine.identifyResponsibilities unit)
  /\ forall tag,
       In tag (Engine.identifyResponsibilities unit)
       <-> exists words word,
             In (tag, words) Engine.keywords /\ In word words
             /\ includes (toLowerCase (getText unit)) word = true.
Proof.
  assert (E : Engine.identifyResponsibilities unit
              = map fst (List.filter (tagApplies (toLowerCase (getText unit)))
                           Engine.keywords)).
  { unfold Engine.identifyResponsibilities; cbv zeta. now rewrite foldl_tags. }
  split; [exact E |]. split.
  - rewrite E. apply NoDup_map_filter.
    apply (bool_decide_unpack _). vm_compute. reflexivity.
  - intros tag. rewrite E, in_map_iff. split.
    + intros ([t words] & <- & Hin). apply filter_In in Hin as [Hin Happ].
      unfold tagApplies in Happ. apply existsb_exists in Happ as (word & Hw & Hi).
      now exists words, word.
    + intros (words & word & Hin & Hw & Hi). exists (tag, words).
      split; [reflexivity |]. apply filter_In. split; [exact Hin |].
      unfold tagApplies. apply existsb_exists. now exists word.
Qed.

(** ** The findings of a pass *)






(** ** The analysis of one unit *)

(** X13: on every unit the unit analysis reports the same rules as the
    document analysis, in the same order, on the same range and with
    the same severity; on a function with at most one responsibility
    the findings are the same, messages included. *)
Theorem analyzeTarget_unitFindings sev (unit : CodeUnit) :
  map findingKey (UnitAnalysis.analyzeTargetInto sev [] unit)
  = map findingKey (unitFindings sev unit)
  /\ (isClass unit = false ->
      length (Engine.identifyResponsibilities unit) <= 1 ->
      UnitAnalysis.analyzeTargetInto sev [] unit = unitFindings sev unit).
Proof.
  split.
  - unfold UnitAnalysis.analyzeTargetInto, unitFindings, Engine.analyzeUnitInto.
    rewrite !map_cond_push. reflexivity.
  - intros Hfun Hresp.
    unfold UnitAnalysis.analyzeTargetInto, unitFindings, Engine.analyzeUnitInto.
    rewrite Hfun. rewrite (proj2 (Nat.ltb_ge _ _) Hresp). reflexivity.
Qed.

Lemma analyzeTarget_unitFindings_witness :
  UnitAnalysis.analyzeTargetInto Warning [] unitA = unitFindings Warning unitA.
Proof.
  apply (analyzeTarget_unitFindings Warning unitA);
    [reflexivity | vm_compute; lia].
Defined.

(** X14: the unit analysis finds a target exactly when some unit of the
    document starts and ends on the lines of the range; the target is
    then the first such unit, classes before functions. *)
Theorem analyzeUnit_target positionAt sev document unitRange :
  (UnitAnalysis.analyzeUnit positionAt sev document unitRange = None
   <-> forall unit, In unit (getClasses document ++ getFunctions document) ->
                    UnitAnalysis.onLines positionAt unitRange unit = false)
  /\ forall findings,
       UnitAnalysis.analyzeUnit positionAt sev document unitRange = Some findings ->
       exists before target after,
         (getClasses document ++ getFunctions document)%list
         = (before ++ target :: after)%list
         /\ UnitAnalysis.onLines positionAt unitRange target = true
         /\ Forall (fun unit => UnitAnalysis.onLines positionAt unitRange unit = false)
                   before
         /\ findings = UnitAnalysis.analyzeTargetInto sev [] target.
Proof.
  unfold UnitAnalysis.analyzeUnit, UnitAnalysis.findTargetUnit; cbv zeta.
  set (units := (getClasses document ++ getFunctions document)%list).
  set (p := UnitAnalysis.onLines positionAt unitRange).
  assert (Hfind : forall l,
             match List.find p l with
             | None => forall unit, In unit l -> p unit = false
             | Some t => exists before after,
                           l = (before ++ t :: after)%list /\ p t = true
                           /\ Forall (fun unit => p unit = false) before
             end).
  { induction l as [| u l IH]; cbn; [tauto |].
    destruct (p u) eqn:Hu.
    - exists [], l. now repeat split.
    - destruct (List.find p l) as [t |].
      + destruct IH as (before & after & -> & Ht & Hb).
        exists (u :: before), after. repeat split; [exact Ht |].
        now apply Forall_cons_2.
      + intros unit [<- | Hin]; [exact Hu | now apply IH]. }
  specialize (Hfind units). destruct (List.find p units) as [t |]; split.
  - split; [discriminate |]. intros Hnone.
    destruct Hfind as (before & after & E & Ht & _).
    rewrite (Hnone t) in Ht; [discriminate |]. rewrite E.
    apply in_or_app. right. now left.
  - intros findings [= <-]. destruct Hfind as (before & after & E & Ht & Hb).
    now exists before, t, after.
  - split; [intros _; exact Hfind | reflexivity].
  - discriminate.
Qed.

(** ** The fallback analysis of one unit *)

Lemma prefix_app (w t : string) : String.prefix w (w +:+ t) = true.
Proof.
  induction w as [| c w IH]; [now destruct t |].
  change (String c w +:+ t) with (String c (w +:+ t)). cbn [String.prefix].
  destruct (Ascii.ascii_dec c c); [exact IH | contradiction].
Qed.

Lemma run_Lit ml (w : string) : forall prev s q,
  In q (run ml (Lit w) (prev, s)) -> s = w +:+ q.2.
Proof.
  induction w as [| c w IH]; intros prev s q Hin.
  - cbn in Hin. destruct Hin as [<- | []]. reflexivity.
  - cbn [Lit] in Hin. rewrite run_Seq in Hin.
    destruct s as [| d s]; [now rewrite run_Chr_end in Hin |].
    rewrite run_Chr in Hin. unfold isChar in Hin.
    destruct (Ascii.eqb c d) eqn:Hcd; [| destruct Hin].
    apply Ascii.eqb_eq in Hcd. subst d.
    cbn [flat_map] in Hin. rewrite app_nil_r in Hin.
    apply IH in Hin.
    change (String c w +:+ q.2) with (String c (w +:+ q.2)). now rewrite <- Hin.
Qed.

Lemma run_console ml prev s q :
  In q (run ml Engine.re_console (prev, s)) -> String.prefix "console." s = true.
Proof.
  unfold Engine.re_console. cbn [Engine.seqs]. rewrite run_Seq, run_WordB.
  destruct (xorb _ _); [| intros []].
  cbn [flat_map]. rewrite app_nil_r, run_Seq.
  intros Hin. apply in_flat_map in Hin. destruct Hin as ([prev' s'] & Hlit & Hin).
  apply run_Lit in Hlit. cbn [snd] in Hlit.
  rewrite run_Seq in Hin.
  destruct s' as [| d s']; [now rewrite run_Chr_end in Hin |].
  rewrite run_Chr in Hin. unfold isChar in Hin.
  destruct (Ascii.eqb "." d) eqn:Hd; [| destruct Hin].
  apply Ascii.eqb_eq in Hd. subst d s.
  exact (prefix_app "console." s').
Qed.

Lemma search_includes ml r (w : string) :
  (forall prev s q, In q (run ml r (prev, s)) -> String.prefix w s = true) ->
  forall s prev q, search ml r prev s = Some q -> includes s w = true.
Proof.
  intros Hrun. induction s as [| c s IH]; intros prev q Hs; cbn [search] in Hs.
  - destruct (run ml r (prev, EmptyString)) as [| q' l] eqn:Hr; [discriminate |].
    cbn [includes]. rewrite (Hrun prev EmptyString q'); [reflexivity |].
    rewrite Hr. now left.
  - cbn [includes].
    destruct (run ml r (prev, String c s)) as [| q' l] eqn:Hr.
    + rewrite (IH _ _ Hs). apply orb_true_r.
    + rewrite (Hrun prev (String c s) q'); [reflexivity |].
      rewrite Hr. now left.
Qed.

Lemma In_rules (c : string) (l : list (string * bool)) :
  In c (map fst (List.filter snd l)) <-> In (c, true) l.
Proof.
  rewrite in_map_iff. split.
  - intros ([c' b] & <- & Hin). apply filter_In in Hin.
    destruct Hin as [Hin Hb]. cbn in Hb. now subst b.
  - intros Hin. exists (c, true). split; [reflexivity |].
    apply filter_In. now split.
Qed.

Lemma lineCount_split (unit : CodeUnit) :
  Engine.lineCount (Engine.computeMetrics unit) = length (split (getText unit)).
Proof.
  unfold Engine.computeMetrics. now destruct (declaration unit).
Qed.

(** X15: on the text of a unit the fallback analysis raises the size
    finding exactly when the engine does; whenever the engine's console
    test holds, the fallback raises its side-effect finding, as the
    engine does; the fallback raises nothing else, at most once each,
    on the range it was given. *)
Theorem basicAnalyzeUnit_engine sev (unit : CodeUnit) (rng : nat * nat) :
  let basic := UnitAnalysis.basicAnalyzeUnit (getText unit) rng sev in
  let engine := unitFindings sev unit in
  (In "clean-code-assistant.size" (map code basic)
   <-> In "clean-code-assistant.size" (map code engine))
  /\ (consoleIo (getText unit) = true ->
      In "clean-code-assistant.side-effects" (map code basic)
      /\ In "clean-code-assistant.side-effects" (map code engine))
  /\ (exists size effects : bool,
        map code basic
        = ((if size then ["clean-code-assistant.size"] else [])
           ++ (if effects then ["clean-code-assistant.side-effects"] else []))%list)
  /\ Forall (fun d => range d = rng /\ severity d = sev) basic.
Proof.
  intros basic engine. subst basic engine.
  destruct (unitFindings_rules sev unit) as [-> _].
  unfold UnitAnalysis.basicAnalyzeUnit. cbv zeta.
  repeat split.
  - rewrite In_rules, !map_cond_push. cbn [map app].
    intros Hin. unfold unitRules. rewrite lineCount_split.
    destruct (15 <? length (split (getText unit)))%nat.
    + right. now left.
    + exfalso. destruct (includes _ _); cbn in Hin;
        intuition discriminate.
  - rewrite In_rules, !map_cond_push. cbn [map app].
    unfold unitRules. rewrite lineCount_split.
    intros Hin. cbn [In] in Hin.
    destruct (15 <? length (split (getText unit)))%nat; [now left |].
    exfalso. repeat (destruct Hin as [Hin | Hin]; [discriminate Hin |]).
    exact Hin.
  - rewrite !map_cond_push. unfold consoleIo, test in H.
    destruct (search false Engine.re_console None (getText unit)) as [q |] eqn:Hs;
      [| discriminate].
    rewrite (search_includes false Engine.re_console "console."
               (run_console false) _ _ _ Hs).
    apply in_or_app. right. now left.
  - rewrite In_rules. unfold unitRules, Engine.hasSideEffects. cbv zeta.
    unfold consoleIo in H. rewrite H, orb_true_r. cbn [orb].
    do 7 right. now left.
  - rewrite !map_cond_push. cbn [map app]. now eexists _, _.
  - repeat (apply Forall_cond_push; [| split; reflexivity]). constructor.
Qed.

Lemma basicAnalyzeUnit_engine_witness :
  In "clean-code-assistant.side-effects"
     (map code (UnitAnalysis.basicAnalyzeUnit (getText unitLog) (0, 0) Warning))
  /\ In "clean-code-assistant.side-effects" (map code (unitFindings Warning unitLog)).
Proof.
  apply (basicAnalyzeUnit_engine Warning unitLog (0, 0)). vm_compute. reflexivity.
Defined.

(** ** From an edit to the analysis of the unit under it *)

(** X16: the range that [findUnitAtPosition] returns for a position
    contains the position, is the range of a unit of the document, and
    is always accepted by the unit analysis, which picks a unit on the
    lines of that range. *)
Theorem findUnitAtPosition_analyzeUnit positionAt sev document position unitRange :
  UnitAnalysis.findUnitAtPosition positionAt document position = Some unitRange ->
  UnitAnalysis.contains unitRange position = true
  /\ (exists unit,
        In unit (getClasses document ++ getFunctions document)
        /\ unitRange = UnitAnalysis.rangeOf positionAt unit)
  /\ exists target,
       UnitAnalysis.findTargetUnit positionAt document unitRange = Some target
       /\ UnitAnalysis.onLines positionAt unitRange target = true
       /\ UnitAnalysis.analyzeUnit positionAt sev document unitRange
          = Some (UnitAnalysis.analyzeTargetInto sev [] target).
Proof.
  unfold UnitAnalysis.findUnitAtPosition, UnitAnalysis.analyzeUnit,
    UnitAnalysis.findTargetUnit. cbv zeta.
  set (units := (getClasses document ++ getFunctions document)%list).
  destruct (List.find _ units) as [unit |] eqn:Hfind; [| discriminate].
  intros [= <-]. apply find_some in Hfind. destruct Hfind as [Hin Hcontains].
  split; [exact Hcontains |]. split; [now exists unit |].
  assert (Hlines : UnitAnalysis.onLines positionAt
                     (UnitAnalysis.rangeOf positionAt unit) unit = true).
  { unfold UnitAnalysis.onLines, UnitAnalysis.rangeOf. cbv zeta.
    now rewrite !Nat.eqb_refl. }
  destruct (List.find (UnitAnalysis.onLines positionAt
                         (UnitAnalysis.rangeOf positionAt unit)) units)
    as [target |] eqn:Htarget.
  - exists target. apply find_some in Htarget. now repeat split.
  - rewrite (find_none _ _ Htarget unit Hin) in Hlines. discriminate.
Qed.

Lemma findUnitAtPosition_analyzeUnit_witness :
  UnitAnalysis.contains ((1, 0), (1, 24)) (1, 3) = true
  /\ (exists unit,
        In unit (getClasses documentFooBar ++ getFunctions documentFooBar)
        /\ ((1, 0), (1, 24))
           = UnitAnalysis.rangeOf (positionsOf (documentText documentFooBar)) unit)
  /\ exists target,
       UnitAnalysis.findTargetUnit (positionsOf (documentText documentFooBar))
         documentFooBar ((1, 0), (1, 24)) = Some target
       /\ UnitAnalysis.onLines (positionsOf (documentText documentFooBar))
            ((1, 0), (1, 24)) target = true
       /\ UnitAnalysis.analyzeUnit (positionsOf (documentText documentFooBar))
            Warning documentFooBar ((1, 0), (1, 24))
          = Some (UnitAnalysis.analyzeTargetInto Warning [] target).
Proof.
  apply (findUnitAtPosition_analyzeUnit
           (positionsOf (documentText documentFooBar)) Warning documentFooBar (1, 3)).
  vm_compute. reflexivity.
Defined.

Lemma analyzeTarget_ranges sev (unit : CodeUnit) :
  Forall (fun d => range d = Engine.unitRange unit)
         (UnitAnalysis.analyzeTargetInto sev [] unit).
Proof.
  unfold UnitAnalysis.analyzeTargetInto. cbv zeta.
  repeat (apply Forall_cond_push; [| reflexivity]). constructor.
Qed.

Lemma filter_filter_same {A} (p : A -> bool) (l : list A) :
  List.filter p (List.filter p l) = List.filter p l.
Proof.
  induction l as [| x l IH]; [reflexivity |]. cbn.
  destruct (p x) eqn:Hx; cbn; [rewrite Hx; now f_equal | exact IH].
Qed.

Lemma filter_none {A} (p : A -> bool) (l : list A) :
  Forall (fun x => p x = false) l -> List.filter p l = [].
Proof.
  induction 1 as [| x l Hx _ IH]; [reflexivity |]. cbn. now rewrite Hx.
Qed.

(** X17: when the range contains the start of the unit picked for it,
    analysing the unit a second time leaves the diagnostics of the
    document as the first analysis left them; and the diagnostics that
    start outside the range are those that were there before. *)
Theorem analyzeUnitStored_idempotent positionAt sev document unitRange existing :
  targetStartsInside positionAt document unitRange = true ->
  let once :=
    UnitAnalysis.analyzeUnitStored positionAt sev document unitRange existing in
  UnitAnalysis.analyzeUnitStored positionAt sev document unitRange once = once
  /\ List.filter (fun diag => negb (UnitAnalysis.contains unitRange diag.1.1)) once
     = List.filter (fun diag => negb (UnitAnalysis.contains unitRange diag.1.1))
                   existing.
Proof.
  unfold targetStartsInside, UnitAnalysis.analyzeUnitStored, UnitAnalysis.analyzeUnit.
  destruct (UnitAnalysis.findTargetUnit positionAt document unitRange)
    as [target |]; [| now split].
  intros Hinside. cbv beta iota zeta.
  unfold UnitAnalysis.updateDiagnostics. cbv beta iota zeta.
  set (outside := fun diag : UnitAnalysis.Stored =>
                    negb (UnitAnalysis.contains unitRange diag.1.1)).
  assert (Hnew : List.filter outside
                   (map (UnitAnalysis.store positionAt)
                        (UnitAnalysis.analyzeTargetInto sev [] target)) = []).
  { apply filter_none. apply Forall_map.
    eapply Forall_impl; [apply (analyzeTarget_ranges sev target) |].
    intros d Hd. unfold outside, UnitAnalysis.store. cbn [fst].
    rewrite Hd. unfold Engine.unitRange. cbn [fst snd].
    unfold UnitAnalysis.rangeOf in Hinside. now rewrite Hinside. }
  assert (Hkeep : List.filter outside
                    (List.filter outside existing
                     ++ map (UnitAnalysis.store positionAt)
                          (UnitAnalysis.analyzeTargetInto sev [] target))
                  = List.filter outside existing).
  { rewrite List.filter_app, filter_filter_same, Hnew. apply app_nil_r. }
  split; [f_equal |]; exact Hkeep.
Qed.

Lemma analyzeUnitStored_idempotent_witness :
  let positionAt := positionsOf (documentText documentFooBar) in
  let once :=
    UnitAnalysis.analyzeUnitStored positionAt Warning documentFooBar
      ((1, 0), (1, 24)) [] in
  UnitAnalysis.analyzeUnitStored positionAt Warning documentFooBar
    ((1, 0), (1, 24)) once = once.
Proof.
  apply (analyzeUnitStored_idempotent (positionsOf (documentText documentFooBar))
           Warning documentFooBar ((1, 0), (1, 24)) []).
  vm_compute. reflexivity.
Defined.

(** ** Log scopes *)

Lemma string_app_cons (c : ascii) (a b : string) :
  String c a +:+ b = String c (a +:+ b).
Proof. reflexivity. Qed.

Lemma string_app_nil_r (s : string) : s +:+ EmptyString = s.
Proof.
  induction s as [| c s IH]; [reflexivity |]. now rewrite string_app_cons, IH.
Qed.

Lemma string_app_assoc (a b c : string) : (a +:+ b) +:+ c = a +:+ (b +:+ c).
Proof.
  induction a as [| x a IH]; [reflexivity |]. now rewrite !string_app_cons, IH.
Qed.

Lemma string_app_length (a b : string) :
  String.length (a +:+ b) = String.length a + String.length b.
Proof.
  induction a as [| x a IH]; [reflexivity |].
  rewrite string_app_cons. cbn [String.length]. now rewrite IH.
Qed.

(** The entries of the registry sit under their own id. *)
Definition ownKeys (reg : LoggerScope.Registry) : Prop :=
  forall key s, LoggerScope.scopes reg !! key = Some s -> LoggerScope.scopeId s = key.

Lemma getNewLogScope_id prefix_ scope reg :
  let new := LoggerScope.getNewLogScope prefix_ scope reg in
  LoggerScope.scopes new.2 = LoggerScope.scopes reg
  /\ (scope = LoggerScope.ArgFalse ->
      LoggerScope.scopeId new.1 = None
      /\ LoggerScope.counter new.2 = LoggerScope.counter reg)
  /\ (scope <> LoggerScope.ArgFalse ->
      LoggerScope.scopeId new.1 = Some (S (LoggerScope.counter reg))
      /\ LoggerScope.counter new.2 = S (LoggerScope.counter reg)).
Proof.
  destruct scope; cbn; repeat split; try reflexivity; try discriminate;
    intros; congruence.
Qed.

Lemma scopeCall_ownKeys reg call : ownKeys reg -> ownKeys (scopeCall reg call).
Proof.
  intros Hreg key s. destruct call as [p scope | logScope | id | | id prev p]; cbn.
  - unfold LoggerScope.startLogScope.
    destruct (getNewLogScope_id p scope reg) as (Hscopes & _).
    destruct (LoggerScope.getNewLogScope p scope reg) as [logScope reg']. cbn in *.
    rewrite Hscopes. intros Hlook. apply lookup_insert_Some in Hlook.
    destruct Hlook as [[<- <-] | [_ Hlook]]; [reflexivity | now apply Hreg].
  - intros Hlook. apply lookup_delete_Some in Hlook. now apply Hreg.
  - intros Hlook. apply lookup_delete_Some in Hlook. now apply Hreg.
  - apply Hreg.
  - intros Hlook. apply lookup_insert_Some in Hlook.
    destruct Hlook as [[<- <-] | [_ Hlook]]; [now destruct prev | now apply Hreg].
Qed.

Lemma foldl_scopeCall_ownKeys calls : forall reg,
  ownKeys reg -> ownKeys (foldl scopeCall reg calls).
Proof.
  induction calls as [| call calls IH]; intros reg Hreg; [exact Hreg |].
  cbn. apply IH. now apply scopeCall_ownKeys.
Qed.

(** X18: whatever series of calls the clients make (scopes started,
    disposed and cleared, ids drawn, scopes entered under their own
    id), every entry of the registry is stored under its own id, and
    the current scope, when there is one, carries the id drawn last:
    an older scope never becomes the current one again. *)
Theorem scopeCalls_current (calls : list ScopeCall) :
  let reg := scopeCalls calls in
  (forall key s, LoggerScope.scopes reg !! key = Some s -> LoggerScope.scopeId s = key)
  /\ (forall s, LoggerScope.getLogScope reg = Some s ->
                LoggerScope.scopeId s = Some (LoggerScope.counter reg))
  /\ length (List.filter (fun call => match call with
                                      | Start _ LoggerScope.ArgFalse => false
                                      | Start _ _ | Next => true
                                      | _ => false
                                      end) calls)
     = LoggerScope.counter reg.
Proof.
  assert (Hown : ownKeys (scopeCalls calls)).
  { apply foldl_scopeCall_ownKeys. intros key s Hlook.
    cbn in Hlook. now rewrite lookup_empty in Hlook. }
  cbv zeta. split; [exact Hown |]. split.
  - intros s Hs. now apply Hown.
  - unfold scopeCalls. clear Hown.
    enough (Hgen : forall reg,
               length (List.filter (fun call => match call with
                                      | Start _ LoggerScope.ArgFalse => false
                                      | Start _ _ | Next => true
                                      | _ => false
                                      end) calls) + LoggerScope.counter reg
               = LoggerScope.counter (foldl scopeCall reg calls)).
    { rewrite <- (Hgen LoggerScope.initial). cbn. lia. }
    induction calls as [| call calls IH]; intros reg; [reflexivity |].
    cbn [foldl List.filter]. rewrite <- IH.
    destruct call as [p [| | g |] | logScope | id | | id prev p]; cbn; lia.
Qed.



(** X20: scopes started with [false] get no id, do not advance the
    counter and do not change the current scope; they all share one
    registration, so that disposing the first of two also removes the
    registration of the second. *)
Theorem startLogScope_false reg prefixA prefixB :
  let a := LoggerScope.startLogScope prefixA LoggerScope.ArgFalse reg in
  let b := LoggerScope.startLogScope prefixB LoggerScope.ArgFalse a.2 in
  LoggerScope.scopeId a.1 = None /\ LoggerScope.scopeId b.1 = None
  /\ LoggerScope.counter b.2 = LoggerScope.counter reg
  /\ LoggerScope.getLogScope b.2 = LoggerScope.getLogScope reg
  /\ LoggerScope.scopes b.2 !! None = Some b.1
  /\ LoggerScope.scopes (LoggerScope.dispose a.1 b.2) !! None = None.
Proof.
  cbn. unfold LoggerScope.getLogScope, LoggerScope.current. cbn.
  repeat split.
  - now rewrite !lookup_insert_ne by discriminate.
  - apply lookup_insert_eq.
  - apply lookup_delete_eq.
Qed.

Lemma setExits_cons scope e exits :
  setExits scope (e :: exits)
  = match LoggerScope.setLogScopeExit (Some scope) e.1 e.2 with
    | Some scope' => setExits scope' exits
    | None => None
    end.
Proof. reflexivity. Qed.

Lemma setExits_failed exits : forall scope,
  exists scope',
    setExits scope exits = Some scope'
    /\ LoggerScope.scopeId scope' = LoggerScope.scopeId scope
    /\ LoggerScope.prevScopeId scope' = LoggerScope.prevScopeId scope
    /\ LoggerScope.prefix scope' = LoggerScope.prefix scope
    /\ LoggerScope.exitFailed scope'
       = match LoggerScope.exitFailed scope with
         | Some old => Some (old +:+ joined (map snd exits))
         | None =>
             if existsb (fun e => bool_decide (is_Some e.2)) exits
             then Some (joined (map snd exits)) else None
         end.
Proof.
  induction exits as [| [details failed] exits IH]; intros scope.
  - exists scope. cbn. repeat split.
    destruct (LoggerScope.exitFailed scope); [now rewrite string_app_nil_r | reflexivity].
  - rewrite setExits_cons. cbn [LoggerScope.setLogScopeExit fst snd].
    match goal with |- context [setExits ?s exits] => destruct (IH s) as (s' & -> & Hid & Hprev & Hprefix & Hfailed) end.
    exists s'. cbn in Hid, Hprev, Hprefix, Hfailed.
    repeat split; try assumption.
    rewrite Hfailed. cbn [map snd joined foldr existsb].
    destruct failed as [f |], (LoggerScope.exitFailed scope) as [old |];
      cbn; try reflexivity.
    + now rewrite string_app_assoc.
Qed.

Lemma setExits_details exits : forall scope,
  Forall (fun e : option string * option string => is_Some e.1) exits ->
  exists scope',
    setExits scope exits = Some scope'
    /\ LoggerScope.exitDetails scope'
       = match LoggerScope.exitDetails scope, exits with
         | Some old, _ => Some (old +:+ joined (map fst exits))
         | None, [] => None
         | None, _ => Some (joined (map fst exits))
         end.
Proof.
  induction exits as [| [details failed] exits IH]; intros scope Hall.
  - exists scope. cbn. split; [reflexivity |].
    destruct (LoggerScope.exitDetails scope); [now rewrite string_app_nil_r | reflexivity].
  - rewrite setExits_cons. cbn [LoggerScope.setLogScopeExit fst snd].
    apply Forall_cons in Hall. destruct Hall as [[d Hd] Hall]. cbn in Hd. subst details.
    match goal with |- context [setExits ?s exits] => destruct (IH s Hall) as (s' & -> & Hdetails) end.
    exists s'. split; [reflexivity |]. rewrite Hdetails.
    cbn [LoggerScope.exitDetails map fst joined foldr].
    destruct (LoggerScope.exitDetails scope) as [old |]; [now rewrite string_app_assoc |].
    reflexivity.
Qed.

Lemma setExits_app before after : forall scope,
  setExits scope (before ++ after)
  = match setExits scope before with
    | Some scope' => setExits scope' after
    | None => None
    end.
Proof.
  induction before as [| e before IH]; intros scope; [reflexivity |].
  rewrite <- app_comm_cons, !setExits_cons.
  destruct (LoggerScope.setLogScopeExit (Some scope) e.1 e.2); [apply IH | reflexivity].
Qed.

(** X21: a series of [setLogScopeExit] calls on a scope leaves its id
    and prefix alone; the failures accumulate, in the order of the
    calls, behind the failure the scope had; the details accumulate
    the same way as long as every call gives some, but a call without
    details erases what was gathered, so that the scope ends with the
    details of the calls after the last such call. *)
Theorem setLogScopeExit_accumulates scope exits :
  exists scope',
    setExits scope exits = Some scope'
    /\ LoggerScope.scopeId scope' = LoggerScope.scopeId scope
    /\ LoggerScope.prefix scope' = LoggerScope.prefix scope
    /\ LoggerScope.exitFailed scope'
       = match LoggerScope.exitFailed scope with
         | Some old => Some (old +:+ joined (map snd exits))
         | None =>
             if existsb (fun e => bool_decide (is_Some e.2)) exits
             then Some (joined (map snd exits)) else None
         end
    /\ (Forall (fun e : option string * option string => is_Some e.1) exits ->
        LoggerScope.exitDetails scope'
        = match LoggerScope.exitDetails scope, exits with
          | Some old, _ => Some (old +:+ joined (map fst exits))
          | None, [] => None
          | None, _ => Some (joined (map fst exits))
          end)
    /\ (forall before failed after,
          exits = (before ++ (None, failed) :: after)%list ->
          Forall (fun e : option string * option string => is_Some e.1) after ->
          LoggerScope.exitDetails scope'
          = match after with
            | [] => None
            | _ => Some (joined (map fst after))
            end).
Proof.
  destruct (setExits_failed exits scope) as (s' & Hs' & Hid & _ & Hprefix & Hfailed).
  exists s'. repeat split; try assumption.
  - intros Hall. destruct (setExits_details exits scope Hall) as (s'' & Hs'' & Hd).
    rewrite Hs' in Hs''. injection Hs'' as <-. exact Hd.
  - intros before failed after -> Hall.
    rewrite setExits_app in Hs'.
    destruct (setExits_failed before scope) as (s1 & Hs1 & _).
    rewrite Hs1, setExits_cons in Hs'.
    cbn [LoggerScope.setLogScopeExit fst snd] in Hs'.
    match type of Hs' with
    | setExits ?s after = _ =>
        destruct (setExits_details after s Hall) as (s'' & Hs'' & Hd);
        assert (Hnone : LoggerScope.exitDetails s = None)
          by (cbn; now destruct (LoggerScope.exitDetails s1))
    end.
    rewrite Hs' in Hs''. injection Hs'' as <-. rewrite Hd, Hnone. reflexivity.
Qed.

Lemma setLogScopeExit_accumulates_witness :
  exists scope',
    setExits
      {| LoggerScope.scopeId := Some 1; LoggerScope.prevScopeId := None;
         LoggerScope.prefix := "p"; LoggerScope.exitDetails := Some " old";
         LoggerScope.exitFailed := None |}
      [(Some " a", None); (None, Some "failed"); (Some " b", None); (Some " c", None)]
    = Some scope'
    /\ LoggerScope.exitFailed scope' = Some "failed"
    /\ LoggerScope.exitDetails scope' = Some " b c".
Proof.
  destruct (setLogScopeExit_accumulates
              {| LoggerScope.scopeId := Some 1; LoggerScope.prevScopeId := None;
                 LoggerScope.prefix := "p"; LoggerScope.exitDetails := Some " old";
                 LoggerScope.exitFailed := None |}
              [(Some " a", None); (None, Some "failed"); (Some " b", None);
               (Some " c", None)])
    as (scope' & Hrun & _ & _ & Hfailed & _ & Hreset).
  exists scope'. split; [exact Hrun |]. split; [exact Hfailed |].
  apply (Hreset [(Some " a", None)] (Some "failed")
           [(Some " b", None); (Some " c", None)]); [reflexivity |].
  repeat constructor; eexists; reflexivity.
Defined.

(** ** Padding *)

Lemma fillFrom_length (padWith : string) :
  padWith <> EmptyString ->
  forall n rest, String.length (Strings.fillFrom padWith rest n) = n.
Proof.
  intros Hpad. induction n as [| n IH]; intros rest; [reflexivity |].
  cbn [Strings.fillFrom]. destruct rest as [| c rest].
  - destruct padWith as [| c rest]; [contradiction |].
    cbn [String.length]. now rewrite IH.
  - cbn [String.length]. now rewrite IH.
Qed.

Lemma takeString_length (s : string) : forall n,
  String.length (Strings.takeString n s) = Nat.min n (String.length s).
Proof.
  induction s as [| c s IH]; intros [| n]; cbn; try reflexivity. now rewrite IH.
Qed.

Lemma takeString_prefix (s : string) : forall n,
  String.prefix (Strings.takeString n s) s = true.
Proof.
  induction s as [| c s IH]; intros [| n]; cbn; try reflexivity.
  destruct (Ascii.ascii_dec c c); [apply IH | contradiction].
Qed.

(** X22: [padOrTruncateEnd] returns a text of exactly [maxLength]
    characters whenever the filler is not empty (none for a negative
    [maxLength]); a text that fits is kept as the beginning of the
    result, a longer one is cut to its beginning; with an empty filler
    a text that fits is returned as it is. *)
Theorem padOrTruncateEnd_length (s : string) (maxLength : Z) (padWith : string) :
  let result := Strings.padOrTruncateEnd s maxLength padWith in
  (padWith <> EmptyString -> String.length result = Z.to_nat maxLength)
  /\ ((Z.of_nat (String.length s) <= maxLength)%Z -> String.prefix s result = true)
  /\ ((maxLength < Z.of_nat (String.length s))%Z ->
      String.prefix result s = true
      /\ String.length result = Z.to_nat maxLength)
  /\ (padWith = EmptyString -> (Z.of_nat (String.length s) <= maxLength)%Z ->
      result = s).
Proof.
  cbv zeta. unfold Strings.padOrTruncateEnd, Strings.substring0, Strings.padEnd.
  destruct (Z.ltb_spec maxLength (Z.of_nat (String.length s))) as [Hlt | Hge].
  - repeat split; try lia.
    + intros _. rewrite takeString_length. lia.
    + apply takeString_prefix.
    + rewrite takeString_length. lia.
  - destruct (Z.leb_spec maxLength (Z.of_nat (String.length s))) as [Hle | Hgt].
    + repeat split; try lia.
      * intros _. rewrite <- (string_app_nil_r s) at 2. apply prefix_app.
    + repeat split; try lia.
      * intros Hpad. rewrite string_app_length. unfold Strings.filler.
        rewrite (fillFrom_length padWith Hpad). lia.
      * intros _. apply prefix_app.
      * intros -> _. unfold Strings.filler.
        destruct (Z.to_nat maxLength - String.length s); cbn [Strings.fillFrom];
          apply string_app_nil_r.
Qed.

Lemma padOrTruncateEnd_length_witness :
  String.length (Strings.padOrTruncateEnd "info" 7 " ") = 7
  /\ String.prefix "info" (Strings.padOrTruncateEnd "info" 7 " ") = true
  /\ String.prefix (Strings.padOrTruncateEnd "warning" 4 " ") "warning" = true
  /\ Strings.padOrTruncateEnd "info" 7 EmptyString = "info".
Proof.
  destruct (padOrTruncateEnd_length "info" 7 " ") as (Hlength & Hkept & _ & _).
  destruct (padOrTruncateEnd_length "warning" 4 " ") as (_ & _ & Hcut & _).
  destruct (padOrTruncateEnd_length "info" 7 EmptyString) as (_ & _ & _ & Hsame).
  split; [| split; [| split]].
  - apply Hlength. discriminate.
  - apply Hkept. simpl. lia.
  - apply Hcut. simpl. lia.
  - apply Hsame; [reflexivity | simpl; lia].
Defined.

(** X23: the block that [getLoggableScopeBlockOverride] builds is the
    prefix and the suffix between brackets, with as many blanks
    between them as it takes to fill 13 columns; it is never cut, so
    its width is 2 more than the larger of 13 and the two lengths
    together. *)
Theorem getLoggableScopeBlockOverride_width (prefix_ : string) (suffix : option string) :
  let text := match suffix with Some suffix => suffix | None => EmptyString end in
  let width := String.length prefix_ + String.length text in
  Strings.getLoggableScopeBlockOverride prefix_ suffix
  = "[" +:+ prefix_ +:+ Strings.filler " " (13 - width) +:+ text +:+ "]"
  /\ String.length (Strings.getLoggableScopeBlockOverride prefix_ suffix)
     = 2 + Nat.max 13 width.
Proof.
  cbv zeta.
  assert (Hfill : forall n, String.length (Strings.filler " " n) = n).
  { intros n. now apply fillFrom_length. }
  assert (Heq : Strings.getLoggableScopeBlockOverride prefix_ suffix
                = "[" +:+ prefix_
                  +:+ Strings.filler " "
                        (13 - (String.length prefix_
                               + String.length match suffix with
                                               | Some suffix => suffix
                                               | None => EmptyString
                                               end))
                  +:+ match suffix with Some suffix => suffix | None => EmptyString end
                  +:+ "]").
  { unfold Strings.getLoggableScopeBlockOverride, Strings.padEnd, Strings.padStart.
    destruct suffix as [suffix |].
    - destruct (Z.leb_spec (13 - Z.of_nat (String.length prefix_))
                           (Z.of_nat (String.length suffix))) as [Hle | Hgt].
      + replace (13 - (String.length prefix_ + String.length suffix)) with 0 by lia.
        reflexivity.
      + replace (Z.to_nat (13 - Z.of_nat (String.length prefix_)) - String.length suffix)
          with (13 - (String.length prefix_ + String.length suffix)) by lia.
        now rewrite !string_app_assoc.
    - cbn [String.length]. rewrite Nat.add_0_r.
      destruct (Z.leb_spec 13 (Z.of_nat (String.length prefix_))) as [Hle | Hgt].
      + replace (13 - String.length prefix_) with 0 by lia. reflexivity.
      + replace (Z.to_nat 13 - String.length prefix_)
          with (13 - String.length prefix_) by lia.
        now rewrite !string_app_assoc. }
  split; [exact Heq |]. rewrite Heq.
  rewrite !string_app_length, Hfill. cbn [String.length]. lia.
Qed.

(** ** The extract-responsibility command *)

Lemma splits_separable (a b : Extract.Method) :
  Extract.splits a b = true <-> separable a b.
Proof.
  unfold Extract.splits, separable, Extract.overlap.
  destruct (String.eqb_spec (Extract.name a) "constructor") as [Ha | Ha];
    [cbn; split; [discriminate | tauto] |].
  destruct (String.eqb_spec (Extract.name b) "constructor") as [Hb | Hb];
    [cbn; split; [discriminate | tauto] |].
  cbn [orb]. rewrite andb_true_iff, orb_true_iff, Nat.eqb_eq, !Nat.ltb_lt.
  rewrite size_empty_iff.
  assert (Hpos : forall X : gset string, 0 < size X <-> X <> ∅).
  { intros X. split.
    - intros Hsize ->. rewrite size_empty in Hsize. lia.
    - intros Hne. destruct (size X) eqn:Hsize; [| lia].
      exfalso. apply Hne. apply leibniz_equiv. now apply size_empty_inv. }
  rewrite !Hpos.
  assert (Hdisjoint : filter (fun x => x ∈ Extract.fields b) (Extract.fields a) ≡ ∅
                      <-> Extract.fields a ## Extract.fields b).
  { split.
    - intros Hempty x Hxa Hxb. apply (not_elem_of_empty (C := gset string) x).
      apply Hempty. apply elem_of_filter. now split.
    - intros Hdis x. split; [| intros Hx; now apply not_elem_of_empty in Hx].
      intros Hx. apply elem_of_filter in Hx. destruct Hx as [Hxb Hxa].
      exfalso. exact (Hdis x Hxa Hxb). }
  rewrite Hdisjoint.
  assert (Hequiv : forall X : gset string, X ≡ ∅ <-> X = ∅)
    by (intros X; split; [apply leibniz_equiv | now intros ->]).
  tauto.
Qed.

Lemma partnerOf_spec a i rest : forall j,
  match Extract.partnerOf a i j rest with
  | Some (i', j') =>
      i' = i
      /\ exists k b, j' = j + k /\ rest !! k = Some b /\ Extract.splits a b = true
                     /\ forall k' b', k' < k -> rest !! k' = Some b' ->
                                      Extract.splits a b' = false
  | None => forall k b', rest !! k = Some b' -> Extract.splits a b' = false
  end.
Proof.
  induction rest as [| b rest IH]; intros j; cbn [Extract.partnerOf].
  - intros k b' Hk. discriminate.
  - destruct (Extract.splits a b) eqn:Hab.
    + split; [reflexivity |]. exists 0, b. repeat split; [lia | exact Hab | lia].
    + specialize (IH (S j)).
      destruct (Extract.partnerOf a i (S j) rest) as [[i' j'] |].
      * destruct IH as (-> & k & b0 & -> & Hk & Hs & Hfirst).
        split; [reflexivity |]. exists (S k), b0.
        repeat split; [lia | exact Hk | exact Hs |].
        intros [| k'] b' Hlt Hk'; cbn in Hk'; [congruence |].
        apply (Hfirst k'); [lia | exact Hk'].
      * intros [| k] b' Hk; cbn in Hk; [congruence | now apply (IH k)].
Qed.

Lemma pairFrom_spec rest : forall i,
  match Extract.pairFrom i rest with
  | Some (i', j') =>
      exists p q a b,
        i' = i + p /\ j' = i + q /\ p < q
        /\ rest !! p = Some a /\ rest !! q = Some b /\ Extract.splits a b = true
        /\ forall p' q' a' b',
             p' < q' -> rest !! p' = Some a' -> rest !! q' = Some b' ->
             visitedBefore p' q' p q -> Extract.splits a' b' = false
  | None =>
      forall p' q' a' b',
        p' < q' -> rest !! p' = Some a' -> rest !! q' = Some b' ->
        Extract.splits a' b' = false
  end.
Proof.
  induction rest as [| a rest IH]; intros i; cbn [Extract.pairFrom].
  - intros p' q' a' b' _ Hp. discriminate.
  - pose proof (partnerOf_spec a i rest (S i)) as Hpartner.
    destruct (Extract.partnerOf a i (S i) rest) as [[i' j'] |].
    + destruct Hpartner as (-> & k & b & -> & Hk & Hs & Hfirst).
      exists 0, (S k), a, b. repeat split; try lia; try assumption.
      intros p' q' a' b' Hlt Hp' Hq' [Hbefore | [-> Hbefore]]; [lia |].
      cbn in Hp'. injection Hp' as <-.
      destruct q' as [| q']; [lia |]. cbn in Hq'.
      apply (Hfirst q'); [lia | exact Hq'].
    + specialize (IH (S i)).
      destruct (Extract.pairFrom (S i) rest) as [[i' j'] |].
      * destruct IH as (p & q & a0 & b0 & -> & -> & Hpq & Hp & Hq & Hs & Hfirst).
        exists (S p), (S q), a0, b0. repeat split; try lia; try assumption.
        intros p' q' a' b' Hlt Hp' Hq' Hbefore.
        destruct q' as [| q']; [lia |]. cbn in Hq'.
        destruct p' as [| p'].
        -- cbn in Hp'. injection Hp' as <-. now apply (Hpartner q').
        -- cbn in Hp'. apply (Hfirst p' q'); try assumption; [lia |].
           unfold visitedBefore in *. lia.
      * intros p' q' a' b' Hlt Hp' Hq'.
        destruct q' as [| q']; [lia |]. cbn in Hq'.
        destruct p' as [| p'].
        -- cbn in Hp'. injection Hp' as <-. now apply (Hpartner q').
        -- cbn in Hp'. apply (IH p' q'); try assumption. lia.
Qed.

(** X24: the pair the command picks is the first, in the order of the
    double loop, of the pairs of methods that are not constructors,
    share no field and of which one uses a field; the command finds no
    pair exactly when no two methods are like that. *)
Theorem findPair_first (methods : list Extract.Method) :
  match Extract.findPair methods with
  | Some (i, j) =>
      i < j
      /\ exists a b,
           methods !! i = Some a /\ methods !! j = Some b /\ separable a b
           /\ forall p q a' b',
                p < q -> methods !! p = Some a' -> methods !! q = Some b' ->
                visitedBefore p q i j -> ~ separable a' b'
  | None =>
      forall p q a' b',
        p < q -> methods !! p = Some a' -> methods !! q = Some b' ->
        ~ separable a' b'
  end.
Proof.
  unfold Extract.findPair. pose proof (pairFrom_spec methods 0) as Hspec.
  destruct (Extract.pairFrom 0 methods) as [[i j] |].
  - destruct Hspec as (p & q & a & b & -> & -> & Hpq & Hp & Hq & Hs & Hfirst).
    cbn [Nat.add]. split; [exact Hpq |]. exists a, b.
    split; [exact Hp |]. split; [exact Hq |].
    split; [now apply splits_separable |].
    intros p' q' a' b' Hlt Hp' Hq' Hbefore Hsep.
    apply splits_separable in Hsep.
    rewrite (Hfirst p' q' a' b' Hlt Hp' Hq' Hbefore) in Hsep. discriminate.
  - intros p q a' b' Hlt Hp Hq Hsep. apply splits_separable in Hsep.
    rewrite (Hspec p q a' b' Hlt Hp Hq) in Hsep. discriminate.
Qed.

Lemma imap_pair_fst {A} (l : list A) : forall n,
  map fst (imap (fun k => pair (n + k)) l) = seq n (length l).
Proof.
  induction l as [| x l IH]; intros n; [reflexivity |].
  cbn [imap map length seq fst]. rewrite Nat.add_0_r. f_equal.
  rewrite <- (IH (S n)). f_equal. apply imap_ext. intros k y _. cbn. f_equal. lia.
Qed.

Lemma In_imap_pair {A} (l : list A) (k : nat) (x : A) :
  In (k, x) (imap pair l) <-> l !! k = Some x.
Proof.
  rewrite <- list_elem_of_In, elem_of_lookup_imap. split.
  - intros (i & y & [= -> ->] & Hy). exact Hy.
  - intros Hk. now exists k, x.
Qed.

Lemma toMove_filter_In (methods : list Extract.Method) (i : nat)
    (b : Extract.Method) (k : nat) :
  In k (List.filter
          (fun m : nat * Extract.Method =>
             negb (m.1 =? i)%nat && (0 <? size (Extract.fields m.2))%nat
             && bool_decide (Extract.fields m.2 ⊆ Extract.fields b))
          (imap pair methods)).*1
  <-> exists m, methods !! k = Some m /\ k <> i
                /\ 0 < size (Extract.fields m)
                /\ Extract.fields m ⊆ Extract.fields b.
Proof.
  change (In k (?l.*1)) with (In k (map fst l)). rewrite in_map_iff. split.
  - intros ([k' m] & Hk & Hin). cbn in Hk. subst k'.
    apply filter_In in Hin. destruct Hin as [Hin Htest]. cbn [fst snd] in Htest.
    apply In_imap_pair in Hin.
    apply andb_true_iff in Htest. destruct Htest as [Htest Hsub].
    apply andb_true_iff in Htest. destruct Htest as [Hne Hpos].
    exists m. repeat split; try assumption.
    + apply negb_true_iff, Nat.eqb_neq in Hne. exact Hne.
    + now apply Nat.ltb_lt.
    + now apply bool_decide_eq_true in Hsub.
  - intros (m & Hm & Hne & Hpos & Hsub). exists (k, m). split; [reflexivity |].
    apply filter_In. split; [now apply In_imap_pair |]. cbn [fst snd].
    rewrite !andb_true_iff. repeat split.
    + now apply negb_true_iff, Nat.eqb_neq.
    + now apply Nat.ltb_lt.
    + now apply bool_decide_eq_true.
Qed.

(** X25: for the pair the command picks, the methods it moves always
    include the second method of the pair and never the first; no
    method is moved twice; and every moved method uses only fields of
    the second method, hence none of the first. *)
Theorem toMove_moves (methods : list Extract.Method) (i j : nat) :
  Extract.findPair methods = Some (i, j) ->
  let moved := Extract.toMove methods (i, j) in
  In j moved /\ ~ In i moved /\ NoDup moved
  /\ forall k, In k moved ->
       exists m a b,
         methods !! k = Some m /\ methods !! i = Some a /\ methods !! j = Some b
         /\ Extract.fields m ⊆ Extract.fields b
         /\ Extract.fields m ## Extract.fields a.
Proof.
  unfold Extract.findPair. intros Hpair.
  pose proof (pairFrom_spec methods 0) as Hspec. rewrite Hpair in Hspec.
  destruct Hspec as (p & q & a & b & -> & -> & Hpq & Hp & Hq & Hs & _).
  cbn [Nat.add] in *. apply splits_separable in Hs.
  destruct Hs as (_ & _ & Hdisjoint & _).
  pose (raw := (List.filter
                  (fun m : nat * Extract.Method =>
                     negb (m.1 =? p)%nat && (0 <? size (Extract.fields m.2))%nat
                     && bool_decide (Extract.fields m.2 ⊆ Extract.fields b))
                  (imap pair methods)).*1).
  assert (Hmoved : Extract.toMove methods (p, q)
                   = if (length raw =? 0)%nat then push raw q else raw).
  { unfold Extract.toMove. cbn [fst snd]. now rewrite Hq. }
  cbv zeta. rewrite Hmoved. clear Hmoved.
  assert (Hraw : forall k, In k raw <->
             exists m, methods !! k = Some m /\ k <> p
                       /\ 0 < size (Extract.fields m)
                       /\ Extract.fields m ⊆ Extract.fields b)
    by (intros k; apply toMove_filter_In).
  assert (Hnodup : NoDup raw).
  { subst raw. apply NoDup_map_filter.
    rewrite <- (imap_ext (fun k => pair (0 + k)) pair) by reflexivity.
    unfold fmap, list_fmap.
    change (NoDup (map fst (imap (fun k => pair (0 + k)) methods))).
    rewrite imap_pair_fst. apply NoDup_ListNoDup, seq_NoDup. }
  assert (Hall : forall k, In k raw ->
             exists m a0 b0,
               methods !! k = Some m /\ methods !! p = Some a0
               /\ methods !! q = Some b0
               /\ Extract.fields m ⊆ Extract.fields b0
               /\ Extract.fields m ## Extract.fields a0).
  { intros k Hk. apply Hraw in Hk. destruct Hk as (m & Hm & _ & _ & Hsub).
    exists m, a, b.
    split; [exact Hm |]. split; [exact Hp |]. split; [exact Hq |].
    split; [exact Hsub |].
    apply elem_of_disjoint. intros x Hxm Hxa. exact (Hdisjoint x Hxa (Hsub x Hxm)). }
  destruct (length raw =? 0)%nat eqn:Hlen.
  - apply Nat.eqb_eq in Hlen. destruct raw as [| k raw']; [| discriminate].
    unfold push. cbn [app]. repeat split.
    + now left.
    + intros [Heq | []]. lia.
    + apply NoDup_singleton.
    + intros k [<- | []]. exists b, a, b.
      split; [exact Hq |]. split; [exact Hp |]. split; [exact Hq |].
      split; [reflexivity |].
      apply elem_of_disjoint. intros x Hxb Hxa. exact (Hdisjoint x Hxa Hxb).
  - apply Nat.eqb_neq in Hlen. repeat split; try assumption.
    + apply Hraw. exists b.
      split; [exact Hq |]. split; [lia |]. split; [| reflexivity].
      destruct raw as [| k raw'] eqn:Eraw; [contradiction |].
      assert (Hk : In k (k :: raw')) by now left.
      apply Hraw in Hk. destruct Hk as (m & _ & _ & Hpos & Hsub).
      apply (Nat.lt_le_trans _ _ _ Hpos). now apply subseteq_size.
    + intros Hin. apply Hraw in Hin. destruct Hin as (m & _ & Hne & _). contradiction.
Qed.

Lemma toMove_moves_witness :
  In 2 (Extract.toMove methodsStore (1, 2))
  /\ ~ In 1 (Extract.toMove methodsStore (1, 2)).
Proof.
  destruct (toMove_moves methodsStore 1 2) as (Hin & Hout & _);
    [vm_compute; reflexivity |].
  split; [exact Hin | exact Hout].
Defined.

(** ** Scanning a text *)

Lemma dropString_app_length (a b : string) :
  Scan.dropString (String.length a) (a +:+ b) = b.
Proof. induction a as [| c a IH]; [now destruct b | exact IH]. Qed.

Lemma dropString_add (s : string) : forall a b,
  Scan.dropString (a + b) s = Scan.dropString b (Scan.dropString a s).
Proof.
  induction s as [| c s IH]; intros [| a] b; cbn; try reflexivity.
  - now destruct b.
  - apply IH.
Qed.

Lemma dropString_length (s : string) : forall n,
  String.length (Scan.dropString n s) = String.length s - n.
Proof. induction s as [| c s IH]; intros [| n]; cbn; try reflexivity. apply IH. Qed.

Lemma takeString_app_length (a b : string) :
  Strings.takeString (String.length a) (a +:+ b) = a.
Proof.
  induction a as [| c a IH]; [now destruct b |].
  rewrite string_app_cons. cbn. now rewrite IH.
Qed.

Lemma takeString_all (s : string) : forall n,
  String.length s <= n -> Strings.takeString n s = s.
Proof.
  induction s as [| c s IH]; intros [| n] Hn; cbn in *; try reflexivity; try lia.
  rewrite IH; [reflexivity | lia].
Qed.

Lemma takeString_dropString (s : string) : forall n,
  Strings.takeString n s +:+ Scan.dropString n s = s.
Proof.
  induction s as [| c s IH]; intros [| n]; cbn; try reflexivity.
  rewrite string_app_cons. now rewrite IH.
Qed.



Lemma between_app prev prev' (w t : string) :
  Scan.between (prev, w +:+ t) (prev', t) = w.
Proof.
  unfold Scan.between. cbn [snd]. rewrite string_app_length.
  replace (String.length w + String.length t - String.length t)
    with (String.length w) by lia.
  apply takeString_app_length.
Qed.

Lemma indexOfChar_spec (c : ascii) (s : string) : forall j,
  Scan.indexOfChar c s = Some j ->
  exists a b, s = a +:+ String c b /\ String.length a = j
              /\ allChars (fun d => negb (isChar c d)) a = true.
Proof.
  induction s as [| d s IH]; intros j Hj; [discriminate |].
  cbn [Scan.indexOfChar] in Hj. destruct (isChar c d) eqn:Hd.
  - injection Hj as <-. exists EmptyString, s. repeat split.
    unfold isChar in Hd. apply Ascii.eqb_eq in Hd. now subst d.
  - destruct (Scan.indexOfChar c s) as [j' |]; [| discriminate].
    injection Hj as <-. destruct (IH j' eq_refl) as (a & b & -> & <- & Ha).
    exists (String d a), b. repeat split. cbn. now rewrite Hd, Ha.
Qed.



Lemma star_Chr ml (f : ascii -> bool) : forall n p q,
  In q (star (run ml (Chr f)) n p) ->
  exists w, p.2 = w +:+ q.2 /\ allChars f w = true.
Proof.
  induction n as [| n IH]; intros [prev s] q Hin.
  - destruct Hin as [<- | []]. now exists EmptyString.
  - rewrite star_S in Hin. apply in_app_or in Hin. destruct Hin as [Hin | [<- | []]].
    + apply in_flat_map in Hin. destruct Hin as (m & Hm & Hq).
      apply filter_In in Hm. destruct Hm as [Hm _].
      destruct s as [| c s]; [now rewrite run_Chr_end in Hm |].
      rewrite run_Chr in Hm. destruct (f c) eqn:Hc; [| destruct Hm].
      destruct Hm as [<- | []]. destruct (IH _ _ Hq) as (w & E & Hw).
      cbn [snd] in E. exists (String c w). cbn [snd].
      rewrite string_app_cons, <- E. split; [reflexivity |].
      cbn. now rewrite Hc, Hw.
    + now exists EmptyString.
Qed.

Lemma run_Plus_Chr ml (f : ascii -> bool) p q :
  In q (run ml (Plus (Chr f)) p) ->
  exists w, p.2 = w +:+ q.2 /\ allChars f w = true /\ w <> EmptyString.
Proof.
  destruct p as [prev s]. unfold Plus. rewrite run_Seq. intros Hin.
  apply in_flat_map in Hin. destruct Hin as (m & Hm & Hq).
  destruct s as [| c s]; [now rewrite run_Chr_end in Hm |].
  rewrite run_Chr in Hm. destruct (f c) eqn:Hc; [| destruct Hm].
  destruct Hm as [<- | []]. rewrite run_Star in Hq.
  apply star_Chr in Hq. destruct Hq as (w & E & Hw). cbn [snd] in E.
  exists (String c w). cbn [snd]. rewrite string_app_cons, <- E.
  repeat split; [| discriminate]. cbn. now rewrite Hc, Hw.
Qed.

Lemma runGroup_In ml pre grp post p mm g q :
  In (mm, g, q) (Scan.runGroup ml pre grp post p)
  <-> In mm (run ml pre p) /\ In g (run ml grp mm) /\ In q (run ml post g).
Proof.
  unfold Scan.runGroup. rewrite in_flat_map. split.
  - intros (m & Hm & Hin). apply in_flat_map in Hin. destruct Hin as (g' & Hg & Hin).
    apply in_map_iff in Hin. destruct Hin as (q' & [= <- <- <-] & Hq). now repeat split.
  - intros (Hm & Hg & Hq). exists mm. split; [exact Hm |].
    apply in_flat_map. exists g. split; [exact Hg |].
    apply in_map_iff. now exists q.
Qed.

Lemma execAll_In ml pre grp post (s : string) : forall index skip prev m,
  In m (Scan.execAll ml pre grp post index skip prev s) ->
  exists k prev' mm g q,
    Scan.index m = index + k /\ k <= String.length s
    /\ head (Scan.runGroup ml pre grp post (prev', Scan.dropString k s))
       = Some (mm, g, q)
    /\ Scan.whole m = Scan.between (prev', Scan.dropString k s) q
    /\ Scan.group m = Scan.between mm g.
Proof.
  induction s as [| c s IH]; intros index skip prev m Hin; cbn [Scan.execAll] in Hin.
  - destruct skip; [| destruct Hin].
    destruct (head (Scan.runGroup ml pre grp post (prev, EmptyString)))
      as [[[mm g] q] |] eqn:Hhead; [| destruct Hin].
    destruct Hin as [<- | []]. exists 0, prev, mm, g, q. cbn.
    repeat split; [lia | lia | exact Hhead].
  - assert (Hnext : forall skip',
               In m (Scan.execAll ml pre grp post (S index) skip' (Some c) s) ->
               exists k prev' mm g q,
                 Scan.index m = index + k /\ k <= String.length (String c s)
                 /\ head (Scan.runGroup ml pre grp post
                            (prev', Scan.dropString k (String c s)))
                    = Some (mm, g, q)
                 /\ Scan.whole m
                    = Scan.between (prev', Scan.dropString k (String c s)) q
                 /\ Scan.group m = Scan.between mm g).
    { intros skip' Hin'. destruct (IH _ _ _ _ Hin')
        as (k & prev' & mm & g & q & Hidx & Hk & Hhead & Hwhole & Hgroup).
      exists (S k), prev', mm, g, q. cbn [Scan.dropString String.length].
      repeat split; try assumption; lia. }
    destruct skip as [| skip]; [| now apply (Hnext (S skip - 1))].
    destruct (head (Scan.runGroup ml pre grp post (prev, String c s)))
      as [[[mm g] q] |] eqn:Hhead; [| now apply (Hnext (0 - 1))].
    destruct Hin as [<- | Hin]; [| now apply Hnext in Hin].
    exists 0, prev, mm, g, q. cbn [Scan.dropString Scan.index Scan.whole Scan.group].
    repeat split; [lia | lia | exact Hhead].
Qed.

Lemma head_In {A} (l : list A) (x : A) : head l = Some x -> In x l.
Proof. destruct l; [discriminate |]. intros [= <-]. now left. Qed.

Lemma matchBrace_spec (s : string) : forall (d i : nat),
  (exists body rest,
     s = body +:+ String "}" rest /\ balancedFrom d body = true
     /\ Scan.matchBrace (Z.of_nat (S d)) i s = i + String.length body)
  \/ (Scan.matchBrace (Z.of_nat (S d)) i s = i + String.length s
      /\ forall body rest, s = body +:+ String "}" rest ->
                           balancedFrom d body = false).
Proof.
  induction s as [| c s IH]; intros d i.
  - right. split; [cbn; lia |]. intros [| x body] rest E; discriminate.
  - cbn [Scan.matchBrace]. destruct (isChar "{" c) eqn:Hopen.
    + replace (Z.of_nat (S d) + 1)%Z with (Z.of_nat (S (S d))) by lia.
      destruct (IH (S d) (S i)) as [(body & rest & -> & Hbal & Hres) | [Hres Hnone]].
      * left. exists (String c body), rest. rewrite string_app_cons.
        repeat split; [cbn [balancedFrom]; now rewrite Hopen | rewrite Hres; cbn; lia].
      * right. split; [rewrite Hres; cbn; lia |].
        intros [| x body] rest E.
        -- cbn in E. injection E as -> _. discriminate.
        -- rewrite string_app_cons in E. injection E as <- E.
           cbn [balancedFrom]. rewrite Hopen. now apply (Hnone body rest).
    + destruct (isChar "}" c) eqn:Hclose.
      * unfold isChar in Hclose. apply Ascii.eqb_eq in Hclose. subst c.
        destruct d as [| d].
        -- left. exists EmptyString, s. repeat split.
           change (Z.of_nat 1 - 1 =? 0)%Z with true. cbn. lia.
        -- replace (Z.of_nat (S (S d)) - 1 =? 0)%Z with false
             by (symmetry; apply Z.eqb_neq; lia).
           replace (Z.of_nat (S (S d)) - 1)%Z with (Z.of_nat (S d)) by lia.
           destruct (IH d (S i)) as [(body & rest & -> & Hbal & Hres) | [Hres Hnone]].
           ++ left. exists (String "}" body), rest. rewrite string_app_cons.
              repeat split; [exact Hbal | rewrite Hres; cbn; lia].
           ++ right. split; [rewrite Hres; cbn; lia |].
              intros [| x body] rest E; [reflexivity |].
              rewrite string_app_cons in E. injection E as <- E.
              cbn. now apply (Hnone body rest).
      * destruct (IH d (S i)) as [(body & rest & -> & Hbal & Hres) | [Hres Hnone]].
        -- left. exists (String c body), rest. rewrite string_app_cons.
           repeat split; [cbn [balancedFrom]; now rewrite Hopen, Hclose | rewrite Hres; cbn; lia].
        -- right. split; [rewrite Hres; cbn; lia |].
           intros [| x body] rest E.
           ++ cbn in E. injection E as -> _. discriminate.
           ++ rewrite string_app_cons in E. injection E as <- E.
              cbn [balancedFrom]. rewrite Hopen, Hclose. now apply (Hnone body rest).
Qed.

(** ** The classes of a text *)

Lemma dropString_eq_length (s x : string) (k : nat) :
  k <= String.length s -> Scan.dropString k s = x ->
  String.length s = k + String.length x.
Proof. intros Hk <-. rewrite dropString_length. lia. Qed.

Lemma findClasses_shape (text : string) (cls : Classes.Class) :
  In cls (Classes.findClasses text) -> classShape text cls.
Proof.
  unfold Classes.findClasses. rewrite <- list_elem_of_In, list_elem_of_omap.
  intros (m & Hm & Hcls). apply list_elem_of_In in Hm.
  apply execAll_In in Hm.
  destruct Hm as (k & prev' & mm & g & q & Hidx & Hk & Hhead & Hwhole & Hgroup).
  cbn [Nat.add] in Hidx. apply head_In, runGroup_In in Hhead.
  destruct Hhead as (Hmm & Hg & Hq). destruct Hq as [<- | []].
  unfold Classes.re_classHead in Hmm. rewrite run_Seq in Hmm.
  apply in_flat_map in Hmm. destruct Hmm as (m1 & Hm1 & Hmm).
  apply run_Lit in Hm1. apply run_Plus_Chr in Hmm.
  destruct Hmm as (gap & Egap & Hgap & Hgap_ne).
  apply run_Plus_Chr in Hg. destruct Hg as (name & Ename & Hname & Hname_ne).
  set (input := Scan.dropString k text) in *.
  assert (Einput : input = "class" +:+ gap +:+ name +:+ g.2).
  { rewrite Hm1, Egap, Ename. reflexivity. }
  assert (Egroup : Scan.group m = name).
  { rewrite Hgroup. destruct mm as [pm sm], g as [pg sg]. cbn [snd] in *.
    rewrite Ename. apply between_app. }
  assert (Ewhole : Scan.whole m = "class" +:+ gap +:+ name).
  { rewrite Hwhole, Einput. destruct g as [pg sg]. cbn [snd].
    replace ("class" +:+ gap +:+ name +:+ sg)
      with (("class" +:+ gap +:+ name) +:+ sg) by (now rewrite !string_app_assoc).
    apply between_app. }
  unfold Classes.classOf in Hcls. cbv zeta in Hcls.
  rewrite Hidx, Ewhole in Hcls.
  set (idx := k + String.length ("class" +:+ gap +:+ name)) in *.
  assert (Eidx : Scan.dropString idx text = g.2).
  { unfold idx. rewrite dropString_add. fold input. rewrite Einput.
    replace ("class" +:+ gap +:+ name +:+ g.2)
      with (("class" +:+ gap +:+ name) +:+ g.2) by (now rewrite !string_app_assoc).
    apply dropString_app_length. }
  unfold Scan.indexOfFrom in Hcls. rewrite Eidx in Hcls.
  destruct (Scan.indexOfChar "{" g.2) as [j |] eqn:Hj; [| discriminate].
  cbn [fmap option_fmap option_map] in Hcls.
  apply indexOfChar_spec in Hj. destruct Hj as (stretch & rest & Eg & Hlen & Hstretch).
  assert (Ebrace : Scan.dropString (idx + j) text = String "{" rest).
  { rewrite dropString_add, Eidx, Eg, <- Hlen. apply dropString_app_length. }
  assert (Ebody : Scan.dropString (idx + j + 1) text = rest).
  { rewrite dropString_add, Ebrace. reflexivity. }
  assert (Htotal : String.length text = idx + j + 1 + String.length rest).
  { assert (Hin : String.length text = k + String.length input)
      by (apply dropString_eq_length; [exact Hk | reflexivity]).
    rewrite Einput, Eg in Hin. unfold idx.
    rewrite !string_app_length in *. cbn [String.length] in *. lia. }
  rewrite Ebrace in Hcls. cbn [Scan.matchBrace] in Hcls.
  change (isChar "{" "{") with true in Hcls. cbn iota in Hcls.
  change (0 + 1)%Z with (Z.of_nat 1) in Hcls.
  injection Hcls as <-.
  exists gap, stretch, rest. cbn [Classes.name Classes.start Classes.end_ Classes.bodyText].
  rewrite Egroup. repeat split; try assumption.
  - fold input. now rewrite Einput, Eg.
  - cbv zeta.
    assert (Estart : k + String.length ("class" +:+ gap +:+ name +:+ stretch) + 1
                     = idx + j + 1).
    { unfold idx. rewrite <- Hlen, !string_app_length. lia. }
    rewrite Estart.
    destruct (matchBrace_spec rest 0 (S (idx + j)))
      as [(body & rest' & Erest & Hbal & Hres) | [Hres Hnone]]; rewrite Hres.
    + left. exists rest'.
      assert (Esub : Scan.substring text (idx + j + 1) (S (idx + j) + String.length body)
                     = body).
      { unfold Scan.substring. cbv zeta.
        replace (Nat.min (idx + j + 1) (S (idx + j) + String.length body))
          with (idx + j + 1) by lia.
        replace (Nat.max (idx + j + 1) (S (idx + j) + String.length body)
                 - (idx + j + 1)) with (String.length body) by lia.
        rewrite Ebody, Erest. apply takeString_app_length. }
      rewrite Esub. repeat split; [exact Erest | exact Hbal | lia].
    + right.
      assert (Esub : Scan.substring text (idx + j + 1) (S (idx + j) + String.length rest)
                     = rest).
      { unfold Scan.substring. cbv zeta.
        replace (Nat.min (idx + j + 1) (S (idx + j) + String.length rest))
          with (idx + j + 1) by lia.
        replace (Nat.max (idx + j + 1) (S (idx + j) + String.length rest)
                 - (idx + j + 1)) with (String.length rest) by lia.
        rewrite Ebody. now apply takeString_all. }
      rewrite Esub. repeat split; [lia | exact Hnone].
Qed.

(** X26: every class that [findClasses] returns starts where the text
    reads [class], blanks and the name of the class (a non-empty word);
    its body starts behind the first opening brace after the name and
    ends before the brace that closes it, so that the braces of the
    body match; when no brace closes it, the body is the rest of the
    text and the end of the class lies one behind the end of the text. *)
Theorem findClasses_classes (text : string) (cls : Classes.Class) :
  In cls (Classes.findClasses text) -> classShape text cls.
Proof. apply findClasses_shape. Qed.

Lemma findClasses_classes_witness :
  classShape textClasses
    {| Classes.name := "A"; Classes.start := 0; Classes.end_ := 31;
       Classes.bodyText := " m() { this.x = 1; } " |}.
Proof.
  apply (findClasses_classes textClasses). vm_compute. left. reflexivity.
Defined.

(** ** The methods of a class *)






(** ** The fields of a method *)

Lemma prefix_spec (w s : string) :
  String.prefix w s = true <-> exists b, s = w +:+ b.
Proof.
  split.
  - revert s. induction w as [| c w IH]; intros s Hp; [now exists s |].
    destruct s as [| d s]; [discriminate |]. cbn [String.prefix] in Hp.
    destruct (Ascii.ascii_dec c d) as [<- |]; [| discriminate].
    destruct (IH s Hp) as (b & ->). now exists b.
  - intros (b & ->). apply prefix_app.
Qed.

Lemma includes_spec (s w : string) :
  includes s w = true <-> exists a b, s = a +:+ w +:+ b.
Proof.
  split.
  - induction s as [| c s IH]; cbn [includes]; intros Hi.
    + rewrite orb_false_r in Hi. apply prefix_spec in Hi.
      destruct Hi as (b & ->). now exists EmptyString, b.
    + apply orb_true_iff in Hi. destruct Hi as [Hp | Hi].
      * apply prefix_spec in Hp. destruct Hp as (b & ->). now exists EmptyString, b.
      * destruct (IH Hi) as (a & b & ->). now exists (String c a), b.
  - intros (a & b & ->). induction a as [| c a IH].
    + change (EmptyString +:+ w +:+ b) with (w +:+ b).
      destruct (w +:+ b) eqn:E; cbn [includes]; rewrite <- E, prefix_app; reflexivity.
    + rewrite string_app_cons. cbn [includes]. rewrite IH. apply orb_true_r.
Qed.

Lemma fields_In (l : list Scan.Match) : forall (set : gset string) (f : string),
  f ∈ foldl (fun set m => {[Scan.group m]} ∪ set) set l
  <-> f ∈ set \/ exists m, In m l /\ Scan.group m = f.
Proof.
  induction l as [| m l IH]; intros set f; cbn [foldl].
  - split; [now left | intros [H | (m & [] & _)]; exact H].
  - rewrite IH, elem_of_union, elem_of_singleton. split.
    + intros [[-> | H] | (m' & Hm' & E)].
      * right. exists m. split; [now left | reflexivity].
      * now left.
      * right. exists m'. split; [now right | exact E].
    + intros [H | (m' & [<- | Hm'] & E)].
      * left. now right.
      * left. now left.
      * right. now exists m'.
Qed.

Lemma execAll_nil ml pre grp post (s : string) : forall index prev,
  Scan.execAll ml pre grp post index 0 prev s = [] ->
  forall k, k <= String.length s ->
    exists prev', head (Scan.runGroup ml pre grp post (prev', Scan.dropString k s))
                  = None.
Proof.
  induction s as [| c s IH]; intros index prev Hnil k Hk; cbn [Scan.execAll] in Hnil.
  - destruct (head (Scan.runGroup ml pre grp post (prev, EmptyString)))
      as [[[mm g] q] |] eqn:Hhead; [discriminate |].
    exists prev. now destruct k.
  - destruct (head (Scan.runGroup ml pre grp post (prev, String c s)))
      as [[[mm g] q] |] eqn:Hhead; [discriminate |].
    destruct k as [| k]; [now exists prev |].
    cbn [Scan.dropString]. apply (IH (S index) (Some c) Hnil). cbn in Hk. lia.
Qed.

Lemma run_Lit_app ml (w : string) : forall prev x,
  exists prev', In (prev', x) (run ml (Lit w) (prev, w +:+ x)).
Proof.
  induction w as [| c w IH]; intros prev x.
  - exists prev. now left.
  - cbn [Lit]. rewrite string_app_cons, run_Seq, run_Chr.
    unfold isChar. rewrite Ascii.eqb_refl. cbn [flat_map]. rewrite app_nil_r.
    apply IH.
Qed.

Lemma star_In_self (step : pos -> list pos) (n : nat) (p : pos) :
  In p (star step n p).
Proof.
  destruct n; [now left |]. rewrite star_S. apply in_or_app. right. now left.
Qed.

(** X28: every field that [extractThisFields] finds is a non-empty
    word that the text has behind [this.]; no field is found exactly
    when the text has nowhere a word character behind [this.]. *)
Theorem extractThisFields_fields (text : string) :
  (forall f, f ∈ Extract.extractThisFields text ->
             f <> EmptyString /\ allChars isWord f = true
             /\ includes text ("this." +:+ f) = true)
  /\ (Extract.extractThisFields text = ∅
      <-> forall c, isWord c = true ->
                    includes text ("this." +:+ String c EmptyString) = false).
Proof.
  assert (Hfields : forall f, f ∈ Extract.extractThisFields text ->
             f <> EmptyString /\ allChars isWord f = true
             /\ exists a b, text = a +:+ ("this." +:+ f) +:+ b).
  { intros f Hf. unfold Extract.extractThisFields in Hf. apply fields_In in Hf.
    destruct Hf as [Hf | (m & Hm & <-)]; [now apply not_elem_of_empty in Hf |].
    apply execAll_In in Hm.
    destruct Hm as (k & prev' & mm & g & q & _ & Hk & Hhead & _ & Hgroup).
    apply head_In, runGroup_In in Hhead. destruct Hhead as (Hmm & Hg & _).
    apply run_Lit in Hmm. cbn [snd] in Hmm.
    apply run_Plus_Chr in Hg. destruct Hg as (w & Ew & Hw & Hne).
    assert (Egroup : Scan.group m = w).
    { rewrite Hgroup. destruct mm as [pm sm], g as [pg sg]. cbn [snd] in *.
      rewrite Ew. apply between_app. }
    rewrite Egroup. repeat split; try assumption.
    exists (Strings.takeString k text), g.2.
    rewrite <- (takeString_dropString text k) at 1. f_equal.
    rewrite Hmm, Ew. now rewrite !string_app_assoc. }
  split.
  - intros f Hf. destruct (Hfields f Hf) as (Hne & Hw & Hocc).
    repeat split; try assumption. now apply includes_spec.
  - split.
    + intros Hempty c Hc. apply not_true_is_false. intros Hinc.
      apply includes_spec in Hinc. destruct Hinc as (a & b & Etext).
      unfold Extract.extractThisFields in Hempty.
      destruct (Scan.execAll false Extract.re_this Extract.re_field Eps 0 0 None text)
        as [| m l] eqn:Hexec.
      * destruct (execAll_nil _ _ _ _ _ _ _ Hexec (String.length a)) as (prev' & Hhead).
        { rewrite Etext, string_app_length. lia. }
        rewrite Etext, dropString_app_length in Hhead.
        destruct (run_Lit_app false "this." prev' (String c b)) as (p1 & Hp1).
        assert (Hin : In (p1, String c b, (Some c, b), (Some c, b))
                         (Scan.runGroup false Extract.re_this Extract.re_field Eps
                            (prev', ("this." +:+ String c EmptyString) +:+ b))).
        { apply runGroup_In. repeat split.
          - replace (("this." +:+ String c EmptyString) +:+ b)
              with ("this." +:+ String c b) by reflexivity.
            exact Hp1.
          - unfold Extract.re_field, Plus. rewrite run_Seq, run_Chr, Hc.
            cbn [flat_map]. rewrite app_nil_r, run_Star. apply star_In_self.
          - now left. }
        destruct (Scan.runGroup _ _ _ _ _); [destruct Hin | discriminate].
      * cbn [foldl] in Hempty.
        assert (Hin : Scan.group m
                      ∈ foldl (fun (set : gset string) m0 => {[Scan.group m0]} ∪ set)
                              ({[Scan.group m]} ∪ (∅ : gset string)) l).
        { apply fields_In. left. apply elem_of_union. left. now apply elem_of_singleton. }
        rewrite Hempty in Hin. now apply not_elem_of_empty in Hin.
    + intros Hnone. apply leibniz_equiv. intros f. split;
        [| intros Hf; now apply not_elem_of_empty in Hf].
      intros Hf. exfalso. destruct (Hfields f Hf) as (Hne & Hw & a & b & Etext).
      destruct f as [| c f]; [contradiction |].
      cbn [allChars] in Hw. apply andb_true_iff in Hw. destruct Hw as [Hc _].
      specialize (Hnone c Hc).
      assert (Hinc : includes text ("this." +:+ String c EmptyString) = true).
      { apply includes_spec. exists a, (f +:+ b). rewrite Etext.
        f_equal. }
      rewrite Hinc in Hnone. discriminate.
Qed.

(** ** The normal form of a text *)

(** A greedy [\s*] first tries the whole run of whitespace. *)
Lemma star_space_head : forall n prev s,
  String.length s <= n ->
  exists rest,
    star (run false (Chr isSpace)) n (prev, s) = skipSpace prev s :: rest.
Proof.
  induction n as [| n IH]; intros prev s Hlen.
  - destruct s; [| cbn in Hlen; lia]. now exists [].
  - rewrite star_S. destruct s as [| c s]; cbn [skipSpace].
    + rewrite run_Chr_end. now exists [].
    + rewrite run_Chr. destruct (isSpace c) eqn:E; cbn [List.filter].
      * unfold advances at 1; cbn [snd String.length].
        rewrite (proj2 (Nat.ltb_lt _ _)) by lia. cbn [flat_map].
        destruct (IH (Some c) s) as [rest Hrest]; [cbn in Hlen; lia |].
        rewrite Hrest. cbn [app]. eauto.
      * now exists [].
Qed.

Lemma skipSpace_length prev s : String.length (skipSpace prev s).2 <= String.length s.
Proof.
  revert prev. induction s as [| c s IH]; intros prev; cbn; [lia |].
  destruct (isSpace c); [specialize (IH (Some c)); lia | cbn; lia].
Qed.

Lemma collapse_skipSpace prev s :
  collapse true s = collapse false (skipSpace prev s).2.
Proof.
  revert prev. induction s as [| c s IH]; intros prev; cbn; [reflexivity |].
  destruct (isSpace c) eqn:E; [apply IH | cbn; now rewrite E].
Qed.

Lemma replaceFrom_spaces : forall fuel prev s,
  String.length s < fuel ->
  replaceFrom fuel false Engine.re_spaces " " prev s = collapse false s.
Proof.
  induction fuel as [| fuel IH]; intros prev s Hlen; [lia |].
  rewrite replaceFrom_S. destruct s as [| c s].
  - unfold Engine.re_spaces, Plus. now rewrite run_Seq, run_Chr_end.
  - unfold Engine.re_spaces, Plus. rewrite run_Seq, run_Chr.
    cbn [collapse]. destruct (isSpace c) eqn:E.
    + cbn [flat_map]. rewrite app_nil_r, run_Star. cbn [snd].
      destruct (star_space_head (String.length s) (Some c) s) as [rest ->]; [lia |].
      pose proof (skipSpace_length (Some c) s) as Hskip.
      unfold advances. cbn [snd String.length].
      rewrite (proj2 (Nat.ltb_lt _ _)) by lia.
      rewrite IH by (cbn in Hlen; lia).
      now rewrite <- collapse_skipSpace.
    + cbn [flat_map]. rewrite IH by (cbn in Hlen; lia). reflexivity.
Qed.

Lemma singleBlanks_collapse (s : string) :
  singleBlanks false (collapse false s) = true
  /\ singleBlanks true (collapse true s) = true.
Proof.
  induction s as [| c s [IHf IHt]]; [now split |].
  cbn [collapse]. destruct (isSpace c) eqn:E.
  - split; [| exact IHt]. cbn [singleBlanks].
    change (isSpace " ") with true. cbn. exact IHt.
  - cbn [singleBlanks]. rewrite E. now split.
Qed.

Lemma singleBlanks_trimStart (s : string) : forall b,
  singleBlanks b s = true -> singleBlanks false (trimStart s) = true.
Proof.
  induction s as [| c s IH]; intros b Hs; [reflexivity |].
  cbn [trimStart]. cbn [singleBlanks] in Hs. destruct (isSpace c) eqn:E.
  - apply andb_true_iff in Hs. destruct Hs as [_ Hs]. now apply (IH true).
  - cbn [singleBlanks]. now rewrite E.
Qed.

Lemma trimEnd_cons (c : ascii) (s : string) :
  trimEnd (String c s)
  = match trimEnd s with
    | EmptyString => if isSpace c then EmptyString else String c EmptyString
    | t => String c t
    end.
Proof. reflexivity. Qed.

Lemma singleBlanks_trimEnd (s : string) : forall b,
  singleBlanks b s = true -> singleBlanks b (trimEnd s) = true.
Proof.
  induction s as [| c s IH]; intros b Hs; [reflexivity |].
  rewrite trimEnd_cons. cbn [singleBlanks] in Hs.
  destruct (isSpace c) eqn:E.
  - apply andb_true_iff in Hs. destruct Hs as [Hc Hs].
    specialize (IH true Hs).
    destruct (trimEnd s) as [| d t]; [reflexivity |].
    cbn [singleBlanks] in *. now rewrite E, Hc, IH.
  - specialize (IH false Hs).
    destruct (trimEnd s) as [| d t]; cbn [singleBlanks] in *; now rewrite E.
Qed.

Lemma trimStart_first (s : string) (c : ascii) :
  firstChar (trimStart s) = Some c -> isSpace c = false.
Proof.
  induction s as [| d s IH]; [discriminate |]. cbn [trimStart].
  destruct (isSpace d) eqn:E; [exact IH |]. now intros [= <-].
Qed.

Lemma trimEnd_first (s : string) (c : ascii) :
  firstChar (trimEnd s) = Some c -> firstChar s = Some c.
Proof.
  destruct s as [| d s]; [discriminate |]. rewrite trimEnd_cons.
  destruct (trimEnd s); [destruct (isSpace d); [discriminate |] |]; exact id.
Qed.

Lemma trimEnd_last (s : string) (c : ascii) :
  lastChar (trimEnd s) = Some c -> isSpace c = false.
Proof.
  induction s as [| d s IH]; [discriminate |]. rewrite trimEnd_cons.
  destruct (trimEnd s) as [| e t].
  - destruct (isSpace d) eqn:E; [discriminate |]. now intros [= <-].
  - exact IH.
Qed.

(** X29: in the normal form of a text the only whitespace is single
    blanks between other characters: every whitespace character is a
    blank, no two blanks follow each other, and the normal form neither
    starts nor ends with one. *)
Theorem normalizeForDuplication_blanks (s : string) :
  let normal := Engine.normalizeForDuplication s in
  singleBlanks false normal = true
  /\ (forall c, firstChar normal = Some c -> isSpace c = false)
  /\ (forall c, lastChar normal = Some c -> isSpace c = false).
Proof.
  cbv zeta. unfold Engine.normalizeForDuplication, trim.
  set (t := replaceAll false Engine.re_name "id" s).
  assert (E : replaceAll false Engine.re_spaces " " t = collapse false t).
  { unfold replaceAll. apply replaceFrom_spaces. lia. }
  rewrite E. repeat split.
  - apply singleBlanks_trimEnd, (singleBlanks_trimStart _ false).
    apply singleBlanks_collapse.
  - intros c Hc. apply trimEnd_first in Hc. now apply trimStart_first in Hc.
  - intros c Hc. now apply trimEnd_last in Hc.
Qed.

(** ** The shape of a method *)

Lemma execAll_In_at ml pre grp post (s : string) : forall index skip prev m,
  In m (Scan.execAll ml pre grp post index skip prev s) ->
  exists k mm g q,
    let before := match k with 0 => prev | S k' => Engine.charAt s k' end in
    Scan.index m = index + k /\ k <= String.length s
    /\ head (Scan.runGroup ml pre grp post (before, Scan.dropString k s))
       = Some (mm, g, q)
    /\ Scan.whole m = Scan.between (before, Scan.dropString k s) q
    /\ Scan.group m = Scan.between mm g.
Proof.
  induction s as [| c s IH]; intros index skip prev m Hin; cbn [Scan.execAll] in Hin.
  - destruct skip; [| destruct Hin].
    destruct (head (Scan.runGroup ml pre grp post (prev, EmptyString)))
      as [[[mm g] q] |] eqn:Hhead; [| destruct Hin].
    destruct Hin as [<- | []]. exists 0, mm, g, q. cbn.
    repeat split; [lia | lia | exact Hhead].
  - assert (Hnext : forall skip',
               In m (Scan.execAll ml pre grp post (S index) skip' (Some c) s) ->
               exists k mm g q,
                 let before :=
                   match k with 0 => prev | S k' => Engine.charAt (String c s) k' end in
                 Scan.index m = index + k /\ k <= String.length (String c s)
                 /\ head (Scan.runGroup ml pre grp post
                            (before, Scan.dropString k (String c s)))
                    = Some (mm, g, q)
                 /\ Scan.whole m
                    = Scan.between (before, Scan.dropString k (String c s)) q
                 /\ Scan.group m = Scan.between mm g).
    { intros skip' Hin'. destruct (IH _ _ _ _ Hin')
        as (k & mm & g & q & Hidx & Hk & Hhead & Hwhole & Hgroup).
      exists (S k), mm, g, q. cbn [Scan.dropString String.length].
      assert (E : Engine.charAt (String c s) k
                  = match k with 0 => Some c | S k' => Engine.charAt s k' end)
        by now destruct k.
      cbv zeta. rewrite E. repeat split; try assumption; lia. }
    destruct skip as [| skip]; [| now apply (Hnext (S skip - 1))].
    destruct (head (Scan.runGroup ml pre grp post (prev, String c s)))
      as [[[mm g] q] |] eqn:Hhead; [| now apply (Hnext (0 - 1))].
    destruct Hin as [<- | Hin]; [| now apply Hnext in Hin].
    exists 0, mm, g, q. cbn [Scan.dropString Scan.index Scan.whole Scan.group].
    repeat split; [lia | lia | exact Hhead].
Qed.

Lemma allChars_app (f : ascii -> bool) (a b : string) :
  allChars f (a +:+ b) = allChars f a && allChars f b.
Proof.
  induction a as [| c a IH]; [reflexivity |].
  rewrite string_app_cons. cbn [allChars]. now rewrite IH, andb_assoc.
Qed.

Lemma star_within (f : ascii -> bool) (step : pos -> list pos) :
  (forall p q, In q (step p) -> exists w, p.2 = w +:+ q.2 /\ allChars f w = true) ->
  forall n p q, In q (star step n p) ->
                exists w, p.2 = w +:+ q.2 /\ allChars f w = true.
Proof.
  intros Hstep. induction n as [| n IH]; intros p q Hin.
  - destruct Hin as [<- | []]. now exists EmptyString.
  - rewrite star_S in Hin. apply in_app_or in Hin. destruct Hin as [Hin | [<- | []]].
    + apply in_flat_map in Hin. destruct Hin as (m & Hm & Hq).
      apply filter_In in Hm. destruct Hm as [Hm _].
      destruct (Hstep _ _ Hm) as (w1 & -> & H1). destruct (IH _ _ Hq) as (w2 & -> & H2).
      exists (w1 +:+ w2). rewrite string_app_assoc, allChars_app, H1, H2. now split.
    + now exists EmptyString.
Qed.

Lemma run_within ml (f : ascii -> bool) (r : regex) :
  within f r ->
  forall p q, In q (run ml r p) -> exists w, p.2 = w +:+ q.2 /\ allChars f w = true.
Proof.
  induction r as [| g | r1 IH1 r2 IH2 | r1 IH1 r2 IH2 | r IH | | |];
    intros Hr [prev s] q Hin.
  - destruct Hin as [<- | []]. now exists EmptyString.
  - destruct s as [| c s]; [now rewrite run_Chr_end in Hin |].
    rewrite run_Chr in Hin. destruct (g c) eqn:Hc; [| destruct Hin].
    destruct Hin as [<- | []]. exists (String c EmptyString).
    split; [reflexivity |]. cbn. now rewrite (Hr c Hc).
  - destruct Hr as [H1 H2]. rewrite run_Seq in Hin. apply in_flat_map in Hin.
    destruct Hin as (m & Hm & Hq).
    destruct (IH1 H1 _ _ Hm) as (w1 & E1 & A1).
    destruct (IH2 H2 _ _ Hq) as (w2 & E2 & A2).
    exists (w1 +:+ w2). rewrite string_app_assoc, <- E2, allChars_app, A1, A2.
    now split.
  - destruct Hr as [H1 H2]. cbn [run] in Hin. apply in_app_or in Hin.
    destruct Hin as [Hin | Hin]; [now apply IH1 | now apply IH2].
  - rewrite run_Star in Hin. now apply (star_within f _ (IH Hr)) in Hin.
  - cbn [run] in Hin. destruct (atBol ml (prev, s)); [| destruct Hin].
    destruct Hin as [<- | []]. now exists EmptyString.
  - cbn [run] in Hin. destruct (atEol ml (prev, s)); [| destruct Hin].
    destruct Hin as [<- | []]. now exists EmptyString.
  - rewrite run_WordB in Hin. destruct (xorb _ _); [| destruct Hin].
    destruct Hin as [<- | []]. now exists EmptyString.
Qed.

Lemma within_Lit (f : ascii -> bool) (w : string) :
  allChars f w = true -> within f (Lit w).
Proof.
  induction w as [| c w IH]; [exact (fun _ => I) |].
  cbn [allChars Lit within]. intros Hw. apply andb_true_iff in Hw.
  destruct Hw as [Hc Hw]. split; [| now apply IH].
  intros d Hd. unfold isChar in Hd. apply Ascii.eqb_eq in Hd. now subst d.
Qed.

Lemma run_Chr_In ml (f : ascii -> bool) p q :
  In q (run ml (Chr f) p) -> exists c, p.2 = String c q.2 /\ f c = true.
Proof.
  destruct p as [prev [| c s]]; [now rewrite run_Chr_end |].
  rewrite run_Chr. destruct (f c) eqn:Hc; [| intros []].
  intros [<- | []]. now exists c.
Qed.

Lemma run_Star_Chr ml (f : ascii -> bool) p q :
  In q (run ml (Star (Chr f)) p) ->
  exists w, p.2 = w +:+ q.2 /\ allChars f w = true.
Proof. rewrite run_Star. apply star_Chr. Qed.

Ltac string_assoc :=
  repeat (rewrite string_app_assoc || rewrite string_app_cons).

(** X30: every method that [extractMethods] returns starts at the
    start of a line, where the body of the class reads blanks and
    lower-case words, the name of the method (a non-empty word), a
    parameter list and an opening brace; its body is what follows up to
    the brace that closes the opening one, so that its braces match,
    and its text runs from the start to that brace; when no brace
    closes it, body and text run to the end. *)
Theorem extractMethods_methods (body : string) (m : Extract.Method) :
  In m (Extract.extractMethods body) -> methodShape body m.
Proof.
  unfold Extract.extractMethods. rewrite <- list_elem_of_In, list_elem_of_omap.
  intros (mt & Hmt & Hm). apply list_elem_of_In, execAll_In_at in Hmt.
  destruct Hmt as (k & mm & g & q & Hmt). cbv zeta in Hmt.
  change (match k with 0 => None | S k' => Engine.charAt body k' end)
    with (charBefore body k) in Hmt.
  destruct Hmt as (Hidx & Hk & Hhead & Hwhole & Hgroup). cbn [Nat.add] in Hidx.
  set (input := Scan.dropString k body) in *.
  apply head_In, runGroup_In in Hhead. destruct Hhead as (Hmm & Hg & Hq).
  (* before the name *)
  unfold Extract.re_modifiers in Hmm. cbn [Engine.seqs] in Hmm.
  rewrite run_Seq in Hmm. apply in_flat_map in Hmm. destruct Hmm as (p0 & Hp0 & Hmm).
  cbn [run] in Hp0. destruct (atBol true (charBefore body k, input)) eqn:Hbol;
    [| destruct Hp0]. destruct Hp0 as [<- | []].
  apply (run_within true (fun c => isSpace c || isLower c)) in Hmm.
  2:{ cbn [within]. repeat split; intros c Hc;
        first [ now rewrite Hc
              | unfold isChar in Hc; apply Ascii.eqb_eq in Hc; subst c; reflexivity ]. }
  destruct Hmm as (lead & Elead & Hlead). cbn [snd] in Elead.
  (* the name *)
  apply run_Plus_Chr in Hg. destruct Hg as (name & Ename & Hname & Hname_ne).
  (* behind the name *)
  unfold Extract.re_parameters in Hq. cbn [Engine.seqs] in Hq.
  rewrite run_Seq in Hq. apply in_flat_map in Hq. destruct Hq as (p1 & H1 & Hq).
  apply run_Star_Chr in H1. destruct H1 as (gap1 & E1 & Hgap1).
  rewrite run_Seq in Hq. apply in_flat_map in Hq. destruct Hq as (p2 & H2 & Hq).
  apply run_Chr_In in H2. destruct H2 as (c2 & E2 & Hc2).
  unfold isChar in Hc2. apply Ascii.eqb_eq in Hc2. subst c2.
  rewrite run_Seq in Hq. apply in_flat_map in Hq. destruct Hq as (p3 & H3 & Hq).
  apply run_Star_Chr in H3. destruct H3 as (params & E3 & Hparams).
  rewrite run_Seq in Hq. apply in_flat_map in Hq. destruct Hq as (p4 & H4 & Hq).
  apply run_Chr_In in H4. destruct H4 as (c4 & E4 & Hc4).
  unfold isChar in Hc4. apply Ascii.eqb_eq in Hc4. subst c4.
  rewrite run_Seq in Hq. apply in_flat_map in Hq. destruct Hq as (p5 & H5 & Hq).
  apply run_Star_Chr in H5. destruct H5 as (gap2 & E5 & Hgap2).
  apply run_Chr_In in Hq. destruct Hq as (c6 & E6 & Hc6).
  unfold isChar in Hc6. apply Ascii.eqb_eq in Hc6. subst c6.
  set (head_ := lead +:+ name +:+ gap1 +:+ String "(" (params +:+ String ")" gap2)).
  set (rest := q.2) in *.
  assert (Einput : input = head_ +:+ String "{" rest).
  { rewrite Elead, Ename, E1, E2, E3, E4, E5, E6. unfold head_. now string_assoc. }
  assert (Egroup : Scan.group mt = name).
  { rewrite Hgroup. destruct mm as [pm sm], g as [pg sg]. cbn [snd] in *.
    rewrite Ename. apply between_app. }
  assert (Ewhole : Scan.whole mt = head_ +:+ String "{" EmptyString).
  { rewrite Hwhole, Einput. destruct q as [pq sq]. cbn [snd] in *. subst rest.
    replace (head_ +:+ String "{" sq) with ((head_ +:+ String "{" EmptyString) +:+ sq)
      by (now string_assoc).
    apply between_app. }
  assert (Hlength : String.length body = k + String.length head_ + 1 + String.length rest).
  { assert (Hin : String.length body = k + String.length input)
      by (apply dropString_eq_length; [exact Hk | reflexivity]).
    rewrite Einput, string_app_length in Hin. cbn [String.length] in Hin. lia. }
  assert (Ebrace : Scan.dropString (k + String.length head_) body = String "{" rest).
  { rewrite dropString_add. fold input. rewrite Einput. apply dropString_app_length. }
  assert (Ebody : Scan.dropString (k + String.length head_ + 1) body = rest).
  { rewrite dropString_add, Ebrace. reflexivity. }
  (* the body of the loop *)
  unfold Extract.methodOf in Hm. cbv zeta in Hm. rewrite Hidx, Ewhole, Egroup in Hm.
  replace (k + String.length (head_ +:+ String "{" EmptyString) - 1)
    with (k + String.length head_) in Hm
    by (rewrite string_app_length; cbn [String.length]; lia).
  unfold Scan.indexOfFrom in Hm. rewrite Ebrace in Hm.
  cbn [Scan.indexOfChar] in Hm. change (isChar "{" "{") with true in Hm.
  cbn [fmap option_fmap option_map] in Hm. rewrite Nat.add_0_r, Ebrace in Hm.
  cbn [Scan.matchBrace] in Hm. change (isChar "{" "{") with true in Hm.
  cbn iota in Hm. change (0 + 1)%Z with (Z.of_nat 1) in Hm.
  set (b := k + String.length head_) in *.
  injection Hm as <-.
  exists lead, gap1, params, gap2, rest.
  cbn [Extract.name Extract.start Extract.end_ Extract.bodyStart Extract.bodyEnd
       Extract.text Extract.bodyText]. cbv zeta. fold head_.
  split; [fold input; exact Einput |]. split; [exact Hk |].
  split.
  { unfold atBol in Hbol. cbn [fst] in Hbol.
    destruct (charBefore body k); [exact Hbol | exact I]. }
  split; [exact Hlead |]. split; [exact Hname_ne |]. split; [exact Hname |].
  split; [exact Hgap1 |]. split; [exact Hparams |]. split; [exact Hgap2 |].
  split; [reflexivity |]. split; [reflexivity |].
  destruct (matchBrace_spec rest 0 (S b))
    as [(inner & rest' & Erest & Hbal & Hres) | [Hres Hnone]]; rewrite Hres.
  - left. exists rest'.
    assert (Esub : Scan.substring body (b + 1) (S b + String.length inner) = inner).
    { unfold Scan.substring. cbv zeta.
      replace (Nat.min (b + 1) (S b + String.length inner)) with (b + 1) by lia.
      replace (Nat.max (b + 1) (S b + String.length inner) - (b + 1))
        with (String.length inner) by lia.
      rewrite Ebody, Erest. apply takeString_app_length. }
    rewrite Esub. split; [exact Erest |]. split; [exact Hbal |]. split; [lia |].
    unfold Scan.substring. cbv zeta.
    replace (Nat.min k (S b + String.length inner + 1)) with k by lia.
    replace (Nat.max k (S b + String.length inner + 1) - k)
      with (String.length (head_ +:+ String "{" (inner +:+ String "}" EmptyString))).
    2:{ rewrite string_app_length. cbn [String.length].
        rewrite string_app_length. cbn [String.length]. unfold b. lia. }
    fold input. rewrite Einput, Erest.
    replace (head_ +:+ String "{" (inner +:+ String "}" rest'))
      with ((head_ +:+ String "{" (inner +:+ String "}" EmptyString)) +:+ rest')
      by (now string_assoc).
    apply takeString_app_length.
  - right.
    assert (Esub : Scan.substring body (b + 1) (S b + String.length rest) = rest).
    { unfold Scan.substring. cbv zeta.
      replace (Nat.min (b + 1) (S b + String.length rest)) with (b + 1) by lia.
      replace (Nat.max (b + 1) (S b + String.length rest) - (b + 1))
        with (String.length rest) by lia.
      rewrite Ebody. now apply takeString_all. }
    rewrite Esub. split; [reflexivity |]. split; [unfold b; lia |].
    split; [| exact Hnone].
    unfold Scan.substring. cbv zeta.
    replace (Nat.min k (S b + String.length rest + 1)) with k by lia.
    fold input. rewrite <- Einput. apply takeString_all.
    unfold input. rewrite dropString_length. unfold b. lia.
Qed.

Lemma extractMethods_methods_witness :
  methodShape bodyStore
    {| Extract.name := "load"; Extract.start := 0; Extract.end_ := 32;
       Extract.bodyStart := 11; Extract.bodyEnd := 31;
       Extract.text := String LF "  load() { return this.cache; }";
       Extract.bodyText := " return this.cache; ";
       Extract.fields := ∅ |}.
Proof.
  apply (extractMethods_methods bodyStore). vm_compute. left. reflexivity.
Defined.

(** ** Intra-unit duplication, on the lines of the specification *)

Lemma blank_isSpace (c : ascii) : blank c = isSpace c.
Proof. destruct c as [[] [] [] [] [] [] [] []]; vm_compute; reflexivity. Qed.

Lemma split_nonempty (s : string) : split s <> [].
Proof.
  induction s as [| c s IH]; cbn [split]; [discriminate |].
  destruct (isChar LF c); [discriminate |]. now destruct (split s).
Qed.

Lemma cutLines_split (s : string) : forall line,
  cutLines line s
  = match split s with
    | l :: ls => (line +:+ l) :: ls
    | [] => [line]
    end.
Proof.
  induction s as [| c s IH]; intros line; cbn [cutLines split].
  - now rewrite string_app_nil_r.
  - unfold isChar. rewrite (Ascii.eqb_sym LF c). change (ascii_of_nat 10) with LF.
    destruct (Ascii.eqb c LF).
    + rewrite string_app_nil_r, IH. pose proof (split_nonempty s) as Hne.
      destruct (split s); [contradiction | reflexivity].
    + rewrite IH. destruct (split s); [reflexivity |].
      now rewrite string_app_assoc.
Qed.

Lemma dropBlanks_trimStart (s : string) : dropBlanks s = trimStart s.
Proof.
  induction s as [| c s IH]; [reflexivity |]. cbn [dropBlanks trimStart].
  rewrite blank_isSpace, IH. reflexivity.
Qed.

Lemma reverseOnto_app (s acc : string) :
  reverseOnto acc s = reversed s +:+ acc.
Proof.
  unfold reversed. revert acc. induction s as [| c s IH]; intros acc; [reflexivity |].
  cbn [reverseOnto]. rewrite IH, (IH (String c EmptyString)).
  now rewrite string_app_assoc.
Qed.

Lemma reversed_cons (c : ascii) (s : string) :
  reversed (String c s) = reversed s +:+ String c EmptyString.
Proof. unfold reversed at 1. cbn [reverseOnto]. apply reverseOnto_app. Qed.

Lemma reversed_snoc (s : string) (c : ascii) :
  reversed (s +:+ String c EmptyString) = String c (reversed s).
Proof.
  induction s as [| d s IH]; [reflexivity |].
  rewrite string_app_cons, !reversed_cons, IH. reflexivity.
Qed.

Lemma reversed_reversed (s : string) : reversed (reversed s) = s.
Proof.
  induction s as [| c s IH]; [reflexivity |].
  now rewrite reversed_cons, reversed_snoc, IH.
Qed.

Lemma trimEnd_snoc (s : string) (c : ascii) :
  trimEnd (s +:+ String c EmptyString)
  = if isSpace c then trimEnd s else s +:+ String c EmptyString.
Proof.
  induction s as [| d s IH].
  - change (EmptyString +:+ String c EmptyString) with (String c EmptyString).
    rewrite trimEnd_cons. cbn [trimEnd]. now destruct (isSpace c).
  - rewrite string_app_cons, !trimEnd_cons, IH. destruct (isSpace c); [reflexivity |].
    destruct s; reflexivity.
Qed.

Lemma trimEnd_reversed (r : string) :
  trimEnd (reversed r) = reversed (dropBlanks r).
Proof.
  induction r as [| c r IH]; [reflexivity |].
  rewrite reversed_cons, trimEnd_snoc. cbn [dropBlanks]. rewrite blank_isSpace.
  destruct (isSpace c); [exact IH | now rewrite reversed_cons].
Qed.

Lemma stripped_trim (s : string) : stripped s = trim s.
Proof.
  unfold stripped, trim. rewrite <- trimEnd_reversed, reversed_reversed.
  now rewrite dropBlanks_trimStart.
Qed.

(** The lines of the specification are the lines the engine counts. *)
Lemma trimmedNonEmptyLines_engine (text : string) :
  trimmedNonEmptyLines text = Engine.trimmedLines text.
Proof.
  unfold trimmedNonEmptyLines, Engine.trimmedLines.
  rewrite (cutLines_split text EmptyString).
  pose proof (split_nonempty text) as Hne.
  destruct (split text) as [| l ls] eqn:E; [contradiction |].
  change (EmptyString +:+ l) with l.
  rewrite (map_ext stripped trim stripped_trim).
  apply filter_ext. intros [| c x]; reflexivity.
Qed.

(** C8: a unit is flagged for intra-unit duplication exactly when the
    number of distinct lines divided by the number of lines, both taken
    over its trimmed non-empty lines (the stretches between line feeds,
    without the whitespace at their ends, those that are not empty), is
    below 0.8 (the quotient exists when there is a line; a unit without
    one is not flagged); a unit whose lines are all distinct is never
    flagged. *)
Theorem hasDuplication_ratio (unit : CodeUnit) :
  let lines := trimmedNonEmptyLines (getText unit) in
  (Engine.hasDuplication unit = true
   <-> 0 < length lines
       /\ (natQ (distinctCount lines) / natQ (length lines) < 8 # 10)%Q)
  /\ (NoDup lines -> Engine.hasDuplication unit = false).
Proof.
  intros lines.
  assert (Hflag : Engine.hasDuplication unit = true
                  <-> 10 * distinctCount lines < 8 * length lines).
  { unfold Engine.hasDuplication; cbv zeta. subst lines.
    rewrite trimmedNonEmptyLines_engine.
    now rewrite size_list_to_set_distinct, Qltb_lt, lt_scaled. }
  split.
  - rewrite Hflag. split.
    + intros H. assert (0 < length lines) as Hpos by lia.
      split; [exact Hpos | now apply ratio_lt].
    + intros [Hpos H]. now apply ratio_lt in H.
  - intros Hnodup. apply not_true_iff_false. rewrite Hflag.
    rewrite (distinctCount_NoDup _ Hnodup). lia.
Qed.

Lemma hasDuplication_ratio_witness :
  (trimmedNonEmptyLines (getText unitSteps)
   = ["function steps(){"; "first();"; "second();"; "}"]
   /\ Engine.hasDuplication unitSteps = false)
  /\ (trimmedNonEmptyLines (getText unitRepeat)
      = ["function repeat(){"; "step();"; "step();"; "step();"; "step();"; "}"]
      /\ Engine.hasDuplication unitRepeat = true).
Proof.
  split; (split; [vm_compute; reflexivity |]).
  - apply (hasDuplication_ratio unitSteps).
    apply (bool_decide_unpack _). vm_compute. reflexivity.
  - apply (hasDuplication_ratio unitRepeat). split.
    + vm_compute. lia.
    + vm_compute. reflexivity.
Defined.

(** ** The side-effect patterns *)

Lemma lastChar_some (s : string) : forall c, exists d, lastChar (String c s) = Some d.
Proof.
  induction s as [| a s IH]; intros c; [now exists c |].
  destruct (IH a) as [d Hd]. exists d. exact Hd.
Qed.

Lemma lastChar_cons (c : ascii) (s : string) :
  lastChar (String c s) = match lastChar s with Some d => Some d | None => Some c end.
Proof.
  destruct s as [| a s]; [reflexivity |].
  change (lastChar (String c (String a s))) with (lastChar (String a s)).
  destruct (lastChar_some s a) as [d ->]. reflexivity.
Qed.

Lemma lastOr_cons prev (c : ascii) (s : string) :
  lastOr prev (String c s) = lastOr (Some c) s.
Proof. unfold lastOr. rewrite lastChar_cons. now destruct (lastChar s). Qed.

Lemma lastOr_app prev (a b : string) :
  lastOr prev (a +:+ b) = lastOr (lastOr prev a) b.
Proof.
  revert prev. induction a as [| c a IH]; intros prev; [reflexivity |].
  now rewrite string_app_cons, !lastOr_cons, IH.
Qed.

(** A search succeeds exactly when the expression matches at some
    place of the text. *)
Lemma search_spec ml r (s : string) : forall prev,
  search ml r prev s <> None
  <-> exists pre rest, s = pre +:+ rest /\ run ml r (lastOr prev pre, rest) <> [].
Proof.
  induction s as [| c s IH]; intros prev; cbn [search].
  - destruct (run ml r (prev, EmptyString)) as [| q l] eqn:Hr.
    + split; [congruence |]. intros (pre & rest & E & Hrun).
      destruct pre; [| discriminate]. change (EmptyString +:+ rest) with rest in E.
      subst rest. change (lastOr prev EmptyString) with prev in Hrun.
      now rewrite Hr in Hrun.
    + split; [| discriminate]. intros _. exists EmptyString, EmptyString.
      split; [reflexivity |]. change (lastOr prev EmptyString) with prev.
      now rewrite Hr.
  - destruct (run ml r (prev, String c s)) as [| q l] eqn:Hr.
    + rewrite IH. split.
      * intros (pre & rest & -> & Hrun). exists (String c pre), rest.
        split; [reflexivity |]. now rewrite lastOr_cons.
      * intros (pre & rest & E & Hrun). destruct pre as [| d pre].
        -- change (EmptyString +:+ rest) with rest in E.
           subst rest. change (lastOr prev EmptyString) with prev in Hrun.
      now rewrite Hr in Hrun.
        -- rewrite string_app_cons in E. injection E as <- ->.
           exists pre, rest. split; [reflexivity |].
           now rewrite <- (lastOr_cons prev).
    + split; [| discriminate]. intros _. exists EmptyString, (String c s).
      split; [reflexivity |]. change (lastOr prev EmptyString) with prev.
      now rewrite Hr.
Qed.

Lemma test_spec ml r (text : string) :
  test ml r text = true
  <-> exists pre rest q,
        text = pre +:+ rest /\ In q (run ml r (lastChar pre, rest)).
Proof.
  unfold test. pose proof (search_spec ml r text None) as Hs.
  assert (Hl : forall pre, lastOr None pre = lastChar pre)
    by (intros pre; unfold lastOr; now destruct (lastChar pre)).
  split.
  - intros Ht.
    assert (Hne : search ml r None text <> None)
      by (destruct (search ml r None text); [discriminate | discriminate Ht]).
    destruct (proj1 Hs Hne) as (pre & rest & Etext & Hrun).
    rewrite Hl in Hrun. destruct (run ml r (lastChar pre, rest)) as [| q l] eqn:Hr;
      [contradiction |].
    exists pre, rest, q. split; [exact Etext |]. rewrite Hr. now left.
  - intros (pre & rest & q & Etext & Hq).
    assert (Hne : search ml r None text <> None).
    { apply Hs. exists pre, rest. split; [exact Etext |]. rewrite Hl.
      intros Hnil. now rewrite Hnil in Hq. }
    destruct (search ml r None text); [reflexivity | contradiction].
Qed.

(** Where a literal and a run of characters lead. *)
Lemma run_Lit_pos ml (w : string) : forall prev s q,
  In q (run ml (Lit w) (prev, s)) ->
  exists rest, s = w +:+ rest /\ q = (lastOr prev w, rest).
Proof.
  induction w as [| c w IH]; intros prev s q Hin.
  - destruct Hin as [<- | []]. now exists s.
  - cbn [Lit] in Hin. rewrite run_Seq in Hin.
    destruct s as [| d s]; [now rewrite run_Chr_end in Hin |].
    rewrite run_Chr in Hin. unfold isChar in Hin.
    destruct (Ascii.eqb c d) eqn:Hcd; [| destruct Hin].
    apply Ascii.eqb_eq in Hcd. subst d.
    cbn [flat_map] in Hin. rewrite app_nil_r in Hin.
    destruct (IH _ _ _ Hin) as (rest & -> & ->).
    exists rest. now rewrite lastOr_cons.
Qed.

Lemma In_run_Seq ml r1 r2 p m q :
  In m (run ml r1 p) -> In q (run ml r2 m) -> In q (run ml (Seq r1 r2) p).
Proof. intros Hm Hq. rewrite run_Seq. apply in_flat_map. now exists m. Qed.

Lemma In_run_Lit ml (w : string) : forall prev x,
  In (lastOr prev w, x) (run ml (Lit w) (prev, w +:+ x)).
Proof.
  induction w as [| c w IH]; intros prev x; [now left |].
  cbn [Lit]. rewrite string_app_cons, run_Seq, run_Chr.
  unfold isChar. rewrite Ascii.eqb_refl. cbn [flat_map]. rewrite app_nil_r.
  rewrite lastOr_cons. apply IH.
Qed.

Lemma In_run_Chr ml (f : ascii -> bool) prev (c : ascii) (x : string) :
  f c = true -> In (Some c, x) (run ml (Chr f) (prev, String c x)).
Proof. intros Hc. rewrite run_Chr, Hc. now left. Qed.

Lemma In_star_Chr ml (f : ascii -> bool) (w : string) : forall n prev x,
  allChars f w = true -> String.length (w +:+ x) <= n ->
  In (lastOr prev w, x) (star (run ml (Chr f)) n (prev, w +:+ x)).
Proof.
  induction w as [| c w IH]; intros n prev x Hw Hn; [apply star_In_self |].
  cbn [allChars] in Hw. apply andb_true_iff in Hw. destruct Hw as [Hc Hw].
  rewrite string_app_cons in *. cbn [String.length] in Hn.
  destruct n as [| n]; [lia |].
  rewrite star_S. apply in_or_app. left. apply in_flat_map.
  exists (Some c, w +:+ x). split.
  - apply filter_In. split; [now apply In_run_Chr |].
    unfold advances. cbn [snd String.length]. apply Nat.ltb_lt. lia.
  - rewrite lastOr_cons. apply IH; [exact Hw | lia].
Qed.

Lemma In_run_Star_Chr ml (f : ascii -> bool) (w : string) prev x :
  allChars f w = true ->
  In (lastOr prev w, x) (run ml (Star (Chr f)) (prev, w +:+ x)).
Proof. intros Hw. rewrite run_Star. now apply In_star_Chr. Qed.

Lemma In_run_Plus_Chr ml (f : ascii -> bool) (w : string) prev x :
  w <> EmptyString -> allChars f w = true ->
  In (lastOr prev w, x) (run ml (Plus (Chr f)) (prev, w +:+ x)).
Proof.
  destruct w as [| c w]; [contradiction |]. intros _ Hw.
  cbn [allChars] in Hw. apply andb_true_iff in Hw. destruct Hw as [Hc Hw].
  rewrite string_app_cons, lastOr_cons. unfold Plus.
  apply (In_run_Seq _ _ _ _ (Some c, w +:+ x)); [now apply In_run_Chr |].
  now apply In_run_Star_Chr.
Qed.

Lemma In_run_WordB ml p :
  xorb (wordBefore p) (wordAfter p) = true -> In p (run ml WordB p).
Proof. intros H. rewrite run_WordB, H. now left. Qed.

Lemma run_WordB_In ml p q :
  In q (run ml WordB p) -> q = p /\ xorb (wordBefore p) (wordAfter p) = true.
Proof.
  rewrite run_WordB. destruct (xorb _ _); [| intros []].
  intros [<- | []]. now split.
Qed.

Lemma wordCharacter_isWord (c : ascii) : wordCharacter c = isWord c.
Proof. destruct c as [[] [] [] [] [] [] [] []]; vm_compute; reflexivity. Qed.

Lemma nameStartCharacter_isNameStart (c : ascii) :
  nameStartCharacter c = isNameStart c.
Proof. destruct c as [[] [] [] [] [] [] [] []]; vm_compute; reflexivity. Qed.

Lemma allChars_ext (f g : ascii -> bool) (s : string) :
  (forall c, f c = g c) -> allChars f s = allChars g s.
Proof.
  intros H. induction s as [| c s IH]; [reflexivity |].
  cbn [allChars]. now rewrite H, IH.
Qed.

Lemma allChars_wordCharacter (s : string) :
  allChars wordCharacter s = allChars isWord s.
Proof. apply allChars_ext, wordCharacter_isWord. Qed.

Lemma allChars_blank (s : string) : allChars blank s = allChars isSpace s.
Proof. apply allChars_ext, blank_isSpace. Qed.

Lemma wordStartsBehind_wordBefore (pre rest : string) :
  wordStartsBehind pre <-> wordBefore (lastChar pre, rest) = false.
Proof.
  unfold wordStartsBehind, wordBefore. cbn [fst].
  destruct (lastChar pre);
    [now rewrite wordCharacter_isWord | split; [reflexivity | exact (fun _ => I)]].
Qed.

Lemma wordEndsBefore_wordAfter prev (post : string) :
  wordEndsBefore post <-> wordAfter (prev, post) = false.
Proof.
  unfold wordEndsBefore, wordAfter. cbn [snd].
  destruct post; cbn [firstChar];
    [split; [reflexivity | exact (fun _ => I)] | now rewrite wordCharacter_isWord].
Qed.

Ltac peel H m Hm :=
  rewrite run_Seq in H; apply in_flat_map in H; destruct H as (m & Hm & H).

Lemma isChar_eq (a c : ascii) : isChar a c = true -> c = a.
Proof. unfold isChar. intros H. apply Ascii.eqb_eq in H. now subst. Qed.

(** The field pattern, in plain terms. *)
Lemma mutatesField_assignsField (text : string) :
  mutatesField text = true <-> assignsField text.
Proof.
  unfold mutatesField, assignsField. rewrite test_spec. split.
  - intros (pre & rest & q & Etext & Hq).
    unfold Engine.re_thisAssignment in Hq. cbn [Engine.seqs] in Hq.
    peel Hq m0 H0. apply run_WordB_In in H0. destruct H0 as [-> Hb].
    peel Hq m1 H1. apply run_Lit_pos in H1. destruct H1 as (r1 & E1 & ->).
    peel Hq m2 H2. apply run_Chr_In in H2. destruct H2 as (c2 & E2 & Hc2).
    apply isChar_eq in Hc2. subst c2.
    peel Hq m3 H3. apply run_Plus_Chr in H3. destruct H3 as (field & E3 & Hfield & Hne).
    peel Hq m4 H4. apply run_Star_Chr in H4. destruct H4 as (gap & E4 & Hgap).
    apply run_Chr_In in Hq. destruct Hq as (c5 & E5 & Hc5).
    apply isChar_eq in Hc5. subst c5. cbn [snd] in *.
    rewrite <- allChars_wordCharacter in Hfield. rewrite <- allChars_blank in Hgap.
    exists pre, field, gap, q.2. repeat split; try assumption.
    + rewrite Etext, E1, E2, E3, E4, E5. reflexivity.
    + apply (wordStartsBehind_wordBefore pre rest). subst rest.
      destruct (wordBefore _); [vm_compute in Hb; discriminate Hb | reflexivity].
  - intros (pre & field & gap & post & Etext & Hstart & Hne & Hfield & Hgap).
    rewrite allChars_wordCharacter in Hfield. rewrite allChars_blank in Hgap.
    set (rest := "this." +:+ field +:+ gap +:+ "=" +:+ post).
    exists pre, rest, (Some "="%char, post). split; [exact Etext |].
    unfold Engine.re_thisAssignment. cbn [Engine.seqs].
    apply (In_run_Seq _ _ _ _ (lastChar pre, rest)).
    { apply In_run_WordB.
      rewrite (proj1 (wordStartsBehind_wordBefore pre rest) Hstart). reflexivity. }
    apply (In_run_Seq _ _ _ _
             (lastOr (lastChar pre) "this",
              String "." (field +:+ gap +:+ "=" +:+ post))).
    { exact (In_run_Lit false "this" (lastChar pre)
               (String "." (field +:+ gap +:+ "=" +:+ post))). }
    apply (In_run_Seq _ _ _ _ (Some "."%char, field +:+ gap +:+ "=" +:+ post)).
    { now apply In_run_Chr. }
    apply (In_run_Seq _ _ _ _ (lastOr (Some "."%char) field, gap +:+ "=" +:+ post)).
    { now apply In_run_Plus_Chr. }
    apply (In_run_Seq _ _ _ _
             (lastOr (lastOr (Some "."%char) field) gap, "=" +:+ post)).
    { now apply In_run_Star_Chr. }
    now apply In_run_Chr.
Qed.

(** The setter pattern, in plain terms. *)
Lemma setterWord_namesSetter (text : string) :
  setterWord text = true <-> namesSetter text.
Proof.
  unfold setterWord, namesSetter. rewrite test_spec. split.
  - intros (pre & rest & q & Etext & Hq).
    unfold Engine2.re_setter in Hq. cbn [Engine.seqs] in Hq.
    peel Hq m0 H0. apply run_WordB_In in H0. destruct H0 as [-> Hb].
    peel Hq m1 H1. apply run_Lit_pos in H1. destruct H1 as (r1 & E1 & ->).
    apply run_Plus_Chr in Hq. destruct Hq as (w & E2 & Hw & Hne). cbn [snd] in *.
    rewrite <- allChars_wordCharacter in Hw.
    exists pre, w, q.2. repeat split; try assumption.
    + rewrite Etext, E1, E2. reflexivity.
    + apply (wordStartsBehind_wordBefore pre rest). subst rest.
      destruct (wordBefore _); [vm_compute in Hb; discriminate Hb | reflexivity].
  - intros (pre & w & post & Etext & Hstart & Hne & Hw).
    rewrite allChars_wordCharacter in Hw.
    set (rest := "set" +:+ w +:+ post).
    exists pre, rest, (lastOr (lastOr (lastChar pre) "set") w, post).
    split; [exact Etext |].
    unfold Engine2.re_setter. cbn [Engine.seqs].
    apply (In_run_Seq _ _ _ _ (lastChar pre, rest)).
    { apply In_run_WordB.
      rewrite (proj1 (wordStartsBehind_wordBefore pre rest) Hstart). reflexivity. }
    apply (In_run_Seq _ _ _ _ (lastOr (lastChar pre) "set", w +:+ post)).
    { exact (In_run_Lit false "set" (lastChar pre) (w +:+ post)). }
    now apply In_run_Plus_Chr.
Qed.

(** The console pattern, in plain terms. *)
Lemma consoleIo_logsToConsole (text : string) :
  consoleIo text = true <-> logsToConsole text.
Proof.
  unfold consoleIo, logsToConsole. rewrite test_spec. split.
  - intros (pre & rest & q & Etext & Hq).
    unfold Engine.re_console in Hq. cbn [Engine.seqs] in Hq.
    peel Hq m0 H0. apply run_WordB_In in H0. destruct H0 as [-> Hb].
    peel Hq m1 H1. apply run_Lit_pos in H1. destruct H1 as (r1 & E1 & ->).
    peel Hq m2 H2. destruct m2 as [p2 s2].
    apply run_Chr_In in H2. destruct H2 as (c2 & E2 & Hc2).
    apply isChar_eq in Hc2. subst c2. cbn [snd] in E2.
    peel Hq m3 H3.
    assert (Hmethod : exists method r3,
               In method ["log"; "error"; "warn"]
               /\ s2 = method +:+ r3 /\ m3.2 = r3 /\ wordBefore m3 = true).
    { cbn [run] in H3. apply in_app_or in H3. destruct H3 as [H3 | H3];
        [| apply in_app_or in H3; destruct H3 as [H3 | H3]];
        apply run_Lit_pos in H3; destruct H3 as (r3 & E3 & ->).
      - exists "log", r3. repeat split; [now left | exact E3].
      - exists "error", r3. repeat split; [right; now left | exact E3].
      - exists "warn", r3. repeat split; [right; right; now left | exact E3]. }
    destruct Hmethod as (method & r3 & Hin & E3 & Em3 & Hbefore).
    apply run_WordB_In in Hq. destruct Hq as [-> Hb3].
    rewrite Hbefore in Hb3.
    exists pre, method, r3. repeat split; try assumption.
    + rewrite Etext, E1, E2, E3. reflexivity.
    + apply (wordStartsBehind_wordBefore pre rest). subst rest.
      destruct (wordBefore _); [vm_compute in Hb; discriminate Hb | reflexivity].
    + apply (wordEndsBefore_wordAfter m3.1). destruct m3 as [p3 s3]. cbn [snd fst] in *.
      subst s3. destruct (wordAfter (p3, r3)); [discriminate Hb3 | reflexivity].
  - intros (pre & method & post & Etext & Hstart & Hin & Hend).
    set (rest := "console." +:+ method +:+ post).
    exists pre, rest, (lastOr (Some "."%char) method, post). split; [exact Etext |].
    unfold Engine.re_console. cbn [Engine.seqs].
    apply (In_run_Seq _ _ _ _ (lastChar pre, rest)).
    { apply In_run_WordB.
      rewrite (proj1 (wordStartsBehind_wordBefore pre rest) Hstart). reflexivity. }
    apply (In_run_Seq _ _ _ _
             (lastOr (lastChar pre) "console", String "." (method +:+ post))).
    { exact (In_run_Lit false "console" (lastChar pre) (String "." (method +:+ post))). }
    apply (In_run_Seq _ _ _ _ (Some "."%char, method +:+ post)).
    { now apply In_run_Chr. }
    apply (In_run_Seq _ _ _ _ (lastOr (Some "."%char) method, post)).
    { cbn [run]. destruct Hin as [<- | [<- | [<- | []]]].
      - apply in_or_app. left. apply In_run_Lit.
      - apply in_or_app. right. apply in_or_app. left. apply In_run_Lit.
      - apply in_or_app. right. apply in_or_app. right. apply In_run_Lit. }
    apply In_run_WordB.
    rewrite (proj1 (wordEndsBefore_wordAfter (lastOr (Some "."%char) method) post) Hend).
    destruct Hin as [<- | [<- | [<- | []]]]; reflexivity.
Qed.

Lemma lastChar_snoc (s : string) (c : ascii) :
  lastChar (s +:+ String c EmptyString) = Some c.
Proof.
  induction s as [| d s IH]; [reflexivity |].
  now rewrite string_app_cons, lastChar_cons, IH.
Qed.

Lemma lastChar_inv (s : string) :
  match lastChar s with
  | None => s = EmptyString
  | Some c => exists s', s = s' +:+ String c EmptyString
  end.
Proof.
  induction s as [| d s IH]; [reflexivity |]. rewrite lastChar_cons.
  destruct (lastChar s) as [c |].
  - destruct IH as (s' & ->). now exists (String d s').
  - subst s. now exists EmptyString.
Qed.

Lemma isArithOp_In (o : ascii) :
  Engine.isArithOp o = true
  <-> In (String o EmptyString) [EmptyString; "+"; "-"; "*"; "/"].
Proof.
  unfold Engine.isArithOp. split.
  - intros H. cbn [In].
    repeat (apply orb_true_iff in H; destruct H as [H | H]);
      apply isChar_eq in H; subst o; tauto.
  - intros [H | [H | [H | [H | [H | []]]]]]; [discriminate | | | |];
      injection H as <-; reflexivity.
Qed.

Lemma run_Alt ml r1 r2 p :
  run ml (Alt r1 r2) p = (run ml r1 p ++ run ml r2 p)%list.
Proof. reflexivity. Qed.

Lemma run_Eps ml p : run ml Eps p = [p].
Proof. reflexivity. Qed.

(** The part of the assignment pattern from the word on, at a place
    behind the character [prev]. *)
Lemma run_assignment_tail (prev : option ascii) (s : string) :
  (exists q,
     In q (run true
             (Seq WordB
                (Seq (Seq (Chr isNameStart) (Star (Chr isWord)))
                   (Seq (Star (Chr isSpace))
                      (Seq (Seq (Opt (Chr Engine.isArithOp)) (Chr (isChar "=")))
                           (Star (Chr isSpace))))))
             (prev, s)))
  <-> wordBefore (prev, s) = false
      /\ exists c rest gap op post,
           s = String c rest +:+ gap +:+ op +:+ "=" +:+ post
           /\ isNameStart c = true /\ allChars isWord rest = true
           /\ allChars isSpace gap = true
           /\ In op [EmptyString; "+"; "-"; "*"; "/"].
Proof.
  split.
  - intros (q & Hq).
    peel Hq m0 H0. apply run_WordB_In in H0. destruct H0 as [-> Hb].
    peel Hq mN HN. peel HN mN1 HN1.
    apply run_Chr_In in HN1. destruct HN1 as (c & Ec & Hc).
    apply run_Star_Chr in HN. destruct HN as (rest & Erest & Hrest).
    peel Hq mS HS. apply run_Star_Chr in HS. destruct HS as (gap & Egap & Hgap).
    peel Hq mO HO. peel HO mO1 HO1.
    apply run_Chr_In in HO. destruct HO as (e & Ee & He).
    apply isChar_eq in He. subst e. cbn [snd] in *.
    assert (Hop : exists op, In op [EmptyString; "+"; "-"; "*"; "/"]
                             /\ mS.2 = op +:+ mO1.2).
    { unfold Opt in HO1. rewrite run_Alt, run_Eps in HO1. apply in_app_or in HO1.
      destruct HO1 as [HO1 | [<- | []]].
      - apply run_Chr_In in HO1. destruct HO1 as (o & Eo & Ho).
        exists (String o EmptyString). split; [now apply isArithOp_In | exact Eo].
      - exists EmptyString. split; [now left | reflexivity]. }
    destruct Hop as (op & Hop & Eop).
    split.
    + rewrite Ec in Hb. unfold wordAfter in Hb. cbn [snd] in Hb.
      rewrite (isNameStart_isWord c Hc) in Hb.
      destruct (wordBefore (prev, String c mN1.2)) eqn:Hw; [discriminate Hb |].
      exact Hw.
    + exists c, rest, gap, op, mO.2. repeat split; try assumption.
      rewrite Ec, Erest, Egap, Eop, Ee. now string_assoc.
  - intros (Hb & c & rest & gap & op & post & -> & Hc & Hrest & Hgap & Hop).
    exists (lastOr (Some "="%char) EmptyString, post).
    set (s := String c rest +:+ gap +:+ op +:+ "=" +:+ post) in *.
    apply (In_run_Seq _ _ _ _ (prev, s)).
    { apply In_run_WordB. rewrite Hb. unfold wordAfter, s. cbn [snd].
      rewrite string_app_cons. now rewrite (isNameStart_isWord c Hc). }
    apply (In_run_Seq _ _ _ _ (lastOr (Some c) rest, gap +:+ op +:+ "=" +:+ post)).
    { apply (In_run_Seq _ _ _ _ (Some c, rest +:+ gap +:+ op +:+ "=" +:+ post)).
      - unfold s. rewrite string_app_cons. now apply In_run_Chr.
      - now apply In_run_Star_Chr. }
    apply (In_run_Seq _ _ _ _
             (lastOr (lastOr (Some c) rest) gap, op +:+ "=" +:+ post)).
    { now apply In_run_Star_Chr. }
    apply (In_run_Seq _ _ _ _ (Some "="%char, post)).
    { apply (In_run_Seq _ _ _ _
               (lastOr (lastOr (lastOr (Some c) rest) gap) op, "=" +:+ post)).
      - unfold Opt. rewrite run_Alt, run_Eps. apply in_or_app.
        destruct Hop as [<- | Hop]; [right; now left |].
        left. destruct Hop as [<- | [<- | [<- | [<- | []]]]];
          (apply In_run_Chr; reflexivity).
      - now apply In_run_Chr. }
    exact (In_run_Star_Chr true isSpace EmptyString (Some "="%char) post eq_refl).
Qed.

Lemma run_Bol ml p : run ml Bol p = if atBol ml p then [p] else [].
Proof. reflexivity. Qed.

(** The assignment pattern, in plain terms. *)
Lemma bareAssignment_assignsName (text : string) :
  bareAssignment text = true <-> assignsName text.
Proof.
  unfold bareAssignment, assignsName. rewrite test_spec.
  unfold Engine.re_bareAssignment. cbn [Engine.seqs]. split.
  - intros (pre0 & rest0 & q & Etext & Hq).
    peel Hq mA HA. rewrite run_Alt in HA. apply in_app_or in HA.
    destruct HA as [HA | HA].
    + rewrite run_Bol in HA.
      destruct (atBol true (lastChar pre0, rest0)) eqn:Hbol; [| destruct HA].
      destruct HA as [<- | []].
      destruct (proj1 (run_assignment_tail _ _) (ex_intro _ q Hq))
        as (Hb & c & rest & gap & op & post & E & Hc & Hrest & Hgap & Hop).
      rewrite <- nameStartCharacter_isNameStart in Hc.
      rewrite <- allChars_wordCharacter in Hrest. rewrite <- allChars_blank in Hgap.
      exists pre0, c, rest, gap, op, post.
      split; [now rewrite Etext, E |]. split; [| now repeat split].
      unfold atBol, wordBefore in *. cbn [fst] in *.
      destruct (lastChar pre0) as [d |]; [| exact I].
      split; [now rewrite wordCharacter_isWord |]. intros ->. discriminate Hbol.
    + destruct rest0 as [| d s']; [now rewrite run_Chr_end in HA |].
      rewrite run_Chr in HA.
      destruct (negb (isChar "." d)) eqn:Hdot; [| destruct HA].
      destruct HA as [<- | []].
      destruct (proj1 (run_assignment_tail _ _) (ex_intro _ q Hq))
        as (Hb & c & rest & gap & op & post & E & Hc & Hrest & Hgap & Hop).
      rewrite <- nameStartCharacter_isNameStart in Hc.
      rewrite <- allChars_wordCharacter in Hrest. rewrite <- allChars_blank in Hgap.
      exists (pre0 +:+ String d EmptyString), c, rest, gap, op, post.
      split; [rewrite Etext, E; now string_assoc |].
      split; [| now repeat split].
      rewrite lastChar_snoc. split; [rewrite wordCharacter_isWord; exact Hb |].
      intros ->. discriminate Hdot.
  - intros (pre & c & rest & gap & op & post & Etext & Hprev & Hc & Hrest & Hgap & Hop).
    rewrite nameStartCharacter_isNameStart in Hc.
    rewrite allChars_wordCharacter in Hrest. rewrite allChars_blank in Hgap.
    set (tail := String c rest +:+ gap +:+ op +:+ "=" +:+ post) in *.
    pose proof (lastChar_inv pre) as Hpre.
    destruct (lastChar pre) as [d |] eqn:Hlast.
    + destruct Hpre as (pre' & ->). destruct Hprev as [Hword Hdot].
      rewrite wordCharacter_isWord in Hword.
      destruct (proj2 (run_assignment_tail (Some d) tail)) as (q & Hq).
      { split; [exact Hword |]. exists c, rest, gap, op, post. now repeat split. }
      exists pre', (String d tail), q. split; [rewrite Etext; now string_assoc |].
      apply (In_run_Seq _ _ _ _ (Some d, tail)); [| exact Hq].
      rewrite run_Alt. apply in_or_app. right. apply In_run_Chr.
      destruct (isChar "." d) eqn:E; [| reflexivity].
      apply isChar_eq in E. contradiction.
    + subst pre.
      destruct (proj2 (run_assignment_tail None tail)) as (q & Hq).
      { split; [reflexivity |]. exists c, rest, gap, op, post. now repeat split. }
      exists EmptyString, tail, q. split; [exact Etext |].
      apply (In_run_Seq _ _ _ _ (None, tail)); [| exact Hq].
      rewrite run_Alt. apply in_or_app. left. now left.
Qed.

(** C3, amended: the first variant of the predicate is true of a unit
    exactly when its text holds, at the start of a word, [this.], one
    or more word characters, whitespace if any and [=]; or
    [console.log], [console.error] or [console.warn] as a word of its
    own; or a word that starts with a letter or an underscore behind
    neither a word character nor a dot, then whitespace if any, one of
    [+ - * /] or none, and [=]. The second
    variant is true exactly when the text holds the same [this.]
    pattern or, at the start of a word, [set] and at least one more
    word character. So both report every text with the [this.]
    pattern, and where they differ the text holds the console pattern,
    the assignment pattern or the [set] pattern. *)
Theorem hasSideEffects_variants (unit : CodeUnit) :
  (Engine.hasSideEffects unit = true
   <-> assignsField (getText unit) \/ logsToConsole (getText unit)
       \/ assignsName (getText unit))
  /\ (Engine2.hasSideEffects unit = true
      <-> assignsField (getText unit) \/ namesSetter (getText unit))
  /\ (assignsField (getText unit) ->
      Engine.hasSideEffects unit = true /\ Engine2.hasSideEffects unit = true)
  /\ (Engine.hasSideEffects unit <> Engine2.hasSideEffects unit ->
      logsToConsole (getText unit) \/ assignsName (getText unit)
      \/ namesSetter (getText unit)).
Proof.
  assert (H1 : Engine.hasSideEffects unit = true
               <-> assignsField (getText unit) \/ logsToConsole (getText unit)
                   \/ assignsName (getText unit)).
  { unfold Engine.hasSideEffects; cbv zeta.
    fold (mutatesField (getText unit)) (consoleIo (getText unit))
         (bareAssignment (getText unit)).
    rewrite !orb_true_iff, mutatesField_assignsField, consoleIo_logsToConsole,
      bareAssignment_assignsName. tauto. }
  assert (H2 : Engine2.hasSideEffects unit = true
               <-> assignsField (getText unit) \/ namesSetter (getText unit)).
  { unfold Engine2.hasSideEffects; cbv zeta.
    fold (mutatesField (getText unit)) (setterWord (getText unit)).
    rewrite orb_true_iff, mutatesField_assignsField, setterWord_namesSetter.
    tauto. }
  split; [exact H1 |]. split; [exact H2 |]. split.
  - intros Hfield. split; [apply H1 | apply H2]; now left.
  - intros Hdiff.
    destruct (Engine.hasSideEffects unit) eqn:E1, (Engine2.hasSideEffects unit) eqn:E2;
      try contradiction.
    + destruct (proj1 H1 eq_refl) as [Hf | [Hc | Hn]]; [| tauto | tauto].
      assert (false = true) by (apply H2; now left). discriminate.
    + destruct (proj1 H2 eq_refl) as [Hf | Hs]; [| tauto].
      assert (false = true) by (apply H1; now left). discriminate.
Qed.

Lemma hasSideEffects_variants_witness :
  (Engine.hasSideEffects unitCompare = true
   /\ Engine2.hasSideEffects unitCompare = true)
  /\ (logsToConsole (getText unitLog) \/ assignsName (getText unitLog)
      \/ namesSetter (getText unitLog)).
Proof.
  split.
  - apply (hasSideEffects_variants unitCompare).
    exists "function same(){ return ", "x", " ", "= 1 }". now repeat split.
  - apply (hasSideEffects_variants unitLog). vm_compute. discriminate.
Defined.

(** A compound assignment to a field is reported by neither variant,
    a comparison of a field by both. *)
Example hasSideEffects_compound_compare :
  (Engine.hasSideEffects unitCompound = false
   /\ Engine2.hasSideEffects unitCompound = false)
  /\ (Engine.hasSideEffects unitCompare = true
      /\ Engine2.hasSideEffects unitCompare = true).
Proof. vm_compute. repeat split. Qed.
